(** * Congestion-aware routing and signal pre-emption: a verification development

    The Python sources are embedded function by function:
    - [Binary64]: the double-precision arithmetic the timing constants and
      the tier rule go through ([0.15 * L], [round], [int]);
    - [Stage2Rules]: [partition_counts] and the tier modifiers of
      stage2_full_rules.py;
    - [Signals]: the per-junction light cycle of stage0_traffic_heat.py and of
      generate_lights_and_ambulance.py;
    - [Replanner]: [dijkstra_weighted] of replanner.py (and the variant of
      path_selection.py that returns the distance and predecessor arrays);
    - [Runner]: [build_graph] and the multi-ambulance loop of
      multi_ambulance_runner.py. *)

From Stdlib Require Import ZArith QArith Qpower Qround Lia Lqa List Bool Ascii String.
From stdpp Require Import gmap list.

Local Open Scope Z_scope.

(** ** Double-precision numbers

    A finite double is [mant * 2^expo].  Every operation computes the exact
    result and rounds it to 53 significant bits, ties to even, which is what
    IEEE 754 binary64 does as long as the result stays inside the normal
    range (between 2^-1022 and 2^1024 in magnitude); the exponent itself is
    not bounded here. *)
Module Binary64.

Record float : Type := Float { mant : Z; expo : Z }.

(** [m / p] rounded to the nearest integer, ties to the even one ([0 < p]). *)
Definition rne_div (m p : Z) : Z :=
  let q := m / p in
  let r := m mod p in
  if 2 * r <? p then q
  else if p <? 2 * r then q + 1
  else if Z.even q then q else q + 1.

(** Rounding of an exact value [m * 2^e] to 53 significant bits. *)
Definition round53 (m e : Z) : float :=
  if Z.abs m <? 2 ^ 53 then Float m e
  else let k := Z.log2 (Z.abs m) - 52 in Float (rne_div m (2 ^ k)) (e + k).

(** [float(n)] for a Python integer [n]. *)
Definition of_int (n : Z) : float := round53 n 0.

(** [a * b] on doubles. *)
Definition fmul (a b : float) : float :=
  round53 (mant a * mant b) (expo a + expo b).

(** [round(x)]: nearest integer, ties to even. *)
Definition py_round (x : float) : Z :=
  if 0 <=? expo x then mant x * 2 ^ expo x
  else rne_div (mant x) (2 ^ (- expo x)).

(** [int(x)]: truncation towards zero. *)
Definition py_int (x : float) : Z :=
  if 0 <=? expo x then mant x * 2 ^ expo x
  else Z.quot (mant x) (2 ^ (- expo x)).

(** The exact rational value of a double. *)
Definition val (x : float) : Q := inject_Z (mant x) * (2 ^ expo x)%Q.

(** The decimal literals of the sources, as the doubles Python reads them. *)
Definition lit_0_15 : float := Float 5404319552844595 (-55).
Definition lit_0_40 : float := Float 7205759403792794 (-54).
Definition lit_0_6  : float := Float 5404319552844595 (-53).
Definition lit_0_1  : float := Float 7205759403792794 (-56).
Definition lit_0_3  : float := Float 5404319552844595 (-54).
Definition lit_0_25 : float := Float 1 (-2).
Definition lit_0_5  : float := Float 1 (-1).
Definition lit_1_5  : float := Float 3 (-1).
Definition lit_2_0  : float := Float 2 0.
Definition lit_10_0 : float := Float 10 0.

(** The relative size of half a unit in the last place: 2^-53. *)
Definition ulp : Q := 1 # 9007199254740992.

(** [x] is the double nearest to [n / d]: a 53-bit mantissa, and an error of
    at most half a unit in the last place. *)
Definition nearest_to (x : float) (n d : Z) : Prop :=
  2 ^ 52 <= mant x < 2 ^ 53 /\ expo x < 0 /\
  2 * Z.abs (mant x * d - n * 2 ^ (- expo x)) <= d.

End Binary64.

(** ** Tiered pre-emption (stage2_full_rules.py) *)
Module Stage2Rules.
Import Binary64.

(** [partition_counts(L)]. *)
Definition partition_counts (L : Z) : Z * Z * Z :=
  let n1 := Z.max 1 (py_round (fmul lit_0_15 (of_int L))) in
  let n2 := Z.max 3 (py_round (fmul lit_0_40 (of_int L))) in
  let n3 := L - n1 - n2 in
  let '(n2, n3) :=
    if n3 <? 4 then
      let need := 4 - n3 in
      let take := Z.min need (n2 - 3) in
      (n2 - take, n3 + take)
    else (n2, n3) in
  if n3 <? 0 then
    let n1 := Z.max 1 (py_int (fmul (of_int L) lit_0_15)) in
    let n2 := Z.max 3 (py_int (fmul (of_int L) lit_0_40)) in
    (n1, n2, L - n1 - n2)
  else (n1, n2, n3).

(** Base timings: [G_T = int(CYCLE_SECONDS * TICKS_PER_SEC * PHASE_PROPS[0])]
    and so on, with the constants of the script. *)
Definition base_ticks (p : float) : Z := py_int (fmul (fmul lit_10_0 (of_int 10)) p).
Definition G_T : Z := base_ticks lit_0_6.
Definition Y_T : Z := base_ticks lit_0_1.
Definition R_T : Z := base_ticks lit_0_3.

Inductive tier : Type := tier1 | tier2 | tier3.

(** The tier of route position [i]. *)
Definition tier_at (n1 n2 : Z) (i : nat) : tier :=
  if Z.of_nat i <? n1 then tier1
  else if Z.of_nat i <? n1 + n2 then tier2
  else tier3.

(** [tiers[ni] = ...] for every [(i, ni)] of [enumerate(path_nodes)]. *)
Definition assign_tiers (n1 n2 : Z) (path_nodes : list nat) : gmap nat tier :=
  fold_left (fun m ini => <[snd ini := tier_at n1 n2 (fst ini)]> m)
            (imap pair path_nodes) ∅.

(** The dictionary [{'G': .., 'Y': .., 'R': ..}] of a junction. *)
Record timings : Type := Timings { tG : Z; tY : Z; tR : Z }.

Definition base_timings : timings := Timings G_T Y_T R_T.

(** [{ni: base for ni in range(N)}]. *)
Definition all_junctions {A} (N : nat) (x : A) : gmap nat A :=
  list_to_map ((fun i => (i, x)) <$> seq 0 N).

(** [int(base * k)]. *)
Definition scaled (base : Z) (k : float) : Z := py_int (fmul (of_int base) k).

(** The body of the "apply modifiers per tier" loop, on the two entries of
    the junction. *)
Definition tier_modifier (t : tier) (sel oth : timings) : timings * timings :=
  match t with
  | tier1 =>
      (Timings (Z.max 1 (scaled G_T lit_2_0)) (tY sel) (Z.max 1 (scaled R_T lit_0_25)),
       Timings 0 (tY oth) (tR oth))
  | tier2 =>
      (Timings (Z.max 1 (scaled G_T lit_1_5)) (tY sel) (Z.max 1 (scaled R_T lit_0_5)),
       Timings (Z.max 0 (scaled G_T lit_0_5)) (tY oth) (tR oth))
  | tier3 =>
      (Timings G_T (tY sel) (Z.max 1 (scaled R_T lit_0_6)),
       Timings G_T (tY oth) (tR oth))
  end.

(** One iteration of that loop; [None] is the [KeyError] of a route junction
    that is not a key of the dictionaries. *)
Definition modify_junction (tiers : gmap nat tier)
    (st : gmap nat timings * gmap nat timings) (ni : nat)
    : option (gmap nat timings * gmap nat timings) :=
  t ← tiers !! ni;
  sel ← fst st !! ni;
  oth ← snd st !! ni;
  let '(sel', oth') := tier_modifier t sel oth in
  Some (<[ni := sel']> (fst st), <[ni := oth']> (snd st)).

Fixpoint apply_modifiers (tiers : gmap nat tier) (path_nodes : list nat)
    (st : gmap nat timings * gmap nat timings)
    : option (gmap nat timings * gmap nat timings) :=
  match path_nodes with
  | [] => Some st
  | ni :: rest => st' ← modify_junction tiers st ni; apply_modifiers tiers rest st'
  end.

(** [sim_selected_state]: every junction starts RED with its red duration,
    then the first [n1] route junctions turn green at once. *)
Definition preempt (selected : gmap nat timings) (state : gmap nat (Z * Z)) (idx : nat)
    : option (gmap nat (Z * Z)) :=
  sel ← selected !! idx; Some (<[idx := (1, tG sel)]> state).

Fixpoint preempt_all (selected : gmap nat timings) (idxs : list nat)
    (state : gmap nat (Z * Z)) : option (gmap nat (Z * Z)) :=
  match idxs with
  | [] => Some state
  | idx :: rest => state' ← preempt selected state idx; preempt_all selected rest state'
  end.

Record setup : Type := Setup {
  counts3 : Z * Z * Z;
  selected_timings : gmap nat timings;
  others_timings : gmap nat timings;
  sim_selected_state : gmap nat (Z * Z)
}.

(** Lines 100-151 of the script, for [N] junctions and the route
    [path_nodes]. *)
Definition stage2_setup (N : nat) (path_nodes : list nat) : option setup :=
  let L := Z.of_nat (length path_nodes) in
  let '(n1, n2, n3) := partition_counts L in
  let tiers := assign_tiers n1 n2 path_nodes in
  '(sel, oth) ← apply_modifiers tiers path_nodes
                   (all_junctions N base_timings, all_junctions N base_timings);
  let state := (fun t => (0, tR t)) <$> sel in
  state' ← preempt_all sel (take (Z.to_nat n1) path_nodes) state;
  Some (Setup (n1, n2, n3) sel oth state').

(** The route of the pre-emption scenario. *)
Definition route7 : list nat := [0; 1; 2; 3; 4; 5; 6]%nat.

End Stage2Rules.

(** ** The light cycle *)
Module Signals.
Import Binary64.

(** Phases are stored as the integers the sources use. *)
Definition RED : Z := 0.
Definition GREEN : Z := 1.
Definition YELLOW : Z := 2.

(** A light is the pair [(state, timer)]. *)
Abbreviation light := (Z * Z)%type (only parsing).

(** stage0_traffic_heat.py: [phase_ticks = [int(CYCLE_SECONDS * TICKS_PER_SEC * p)
    for p in PHASE_PROPS]] with [CYCLE_SECONDS = 10.0], [TICKS_PER_SEC = 10]
    and [PHASE_PROPS = (0.6, 0.1, 0.3)]. *)
Definition TICKS_PER_SEC : Z := 10.
Definition phase_ticks (p : float) : Z :=
  py_int (fmul (fmul lit_10_0 (of_int TICKS_PER_SEC)) p).
Definition G_T : Z := phase_ticks lit_0_6.
Definition Y_T : Z := phase_ticks lit_0_1.
Definition R_T : Z := phase_ticks lit_0_3.

(** The lights part of one iteration of the stage-0 loop body: the timer is
    decremented, and a timer that is then [<= 0] advances the state. *)
Definition stage0_light_tick (l : light) : light :=
  let '(st, timer) := l in
  let timer := timer - 1 in
  if timer <=? 0 then
    if st =? 1 then (2, Y_T)
    else if st =? 2 then (0, R_T)
    else (1, G_T)
  else (st, timer).

(** The vehicle counter of a junction in the same iteration: [arrive] is the
    outcome of [random.random() < ARRIVAL_LAMBDA]; a green light lets
    [min(counts[idx], DEPART_WHEN_GREEN)] vehicles leave. *)
Definition DEPART_WHEN_GREEN : Z := 2.
Definition stage0_count_tick (arrive : bool) (st : Z) (c : Z) : Z :=
  let c := if arrive then c + 1 else c in
  if (st =? 1) && (0 <? c) then c - Z.min c DEPART_WHEN_GREEN else c.

(** One junction, one tick of stage 0. *)
Definition stage0_junction_tick (arrive : bool) (cl : Z * light) : Z * light :=
  let '(c, l) := cl in
  (stage0_count_tick arrive (fst l) c, stage0_light_tick l).

(** One tick over all active junctions, and the whole simulation, given the
    arrival draws of every tick. *)
Definition stage0_tick (arrivals : nat -> bool) (s : list (Z * light)) : list (Z * light) :=
  imap (fun idx cl => stage0_junction_tick (arrivals idx) cl) s.
Definition stage0_run (draws : list (nat -> bool)) (s : list (Z * light)) : list (Z * light) :=
  fold_left (fun s arrivals => stage0_tick arrivals s) draws s.

(** generate_lights_and_ambulance.py: the phase lengths and the
    "advance lights timers" loop body. *)
Definition GREEN_LEN : Z := 120.
Definition YELLOW_LEN : Z := 30.
Definition RED_LEN : Z := 150.

Definition lights_tick (l : light) : light :=
  let '(state, timer) := l in
  if timer <=? 1 then
    if state =? 0 then (1, GREEN_LEN)
    else if state =? 1 then (2, YELLOW_LEN)
    else (0, RED_LEN)
  else (state, timer - 1).

Definition advance_lights (lights : list light) : list light := map lights_tick lights.

(** The configured duration of a phase, for each of the two scripts. *)
Definition stage0_duration (st : Z) : Z :=
  if st =? 1 then G_T else if st =? 2 then Y_T else R_T.
Definition lights_duration (st : Z) : Z :=
  if st =? 1 then GREEN_LEN else if st =? 2 then YELLOW_LEN else RED_LEN.

(** The fixed cycle RED -> GREEN -> YELLOW -> RED. *)
Definition next_phase (st : Z) : Z :=
  if st =? 0 then 1 else if st =? 1 then 2 else 0.

Definition is_phase (st : Z) : Prop := st = RED \/ st = GREEN \/ st = YELLOW.

(** The lights a script starts from: [random.choice([0,1,2])] with a timer
    drawn from [lo .. duration]. *)
Definition stage0_initial (l : light) : Prop :=
  is_phase (fst l) /\ 1 <= snd l <= stage0_duration (fst l).
Definition lights_initial (l : light) : Prop :=
  is_phase (fst l) /\
  (if fst l =? 2 then 10 else 30) <= snd l <= lights_duration (fst l).

(** What holds of a light at every tick: a phase of the cycle, and a timer
    between 1 and the duration of the phase. *)
Definition stage0_ok (l : light) : Prop :=
  is_phase (fst l) /\ 1 <= snd l <= stage0_duration (fst l).
Definition lights_ok (l : light) : Prop :=
  is_phase (fst l) /\ 1 <= snd l <= lights_duration (fst l).

(** The statement of the cycle invariant read literally: a phase changes in a
    tick only if the timer was 0 when the tick began. *)
Definition changes_only_at_zero (tick : light -> light) (start : light -> Prop) : Prop :=
  forall (n : nat) (l : light),
    start l ->
    let before := Nat.iter n tick l in
    fst (tick before) <> fst before -> snd before = 0.

End Signals.

(** ** Congestion counts *)
Module Congestion.

(** multi_ambulance_runner.py, lines 160-161:
    [if counts_vals[idx] > 0: counts_vals[idx] = max(0, counts_vals[idx]-1)];
    [None] stands for the [IndexError] of an index past the end. *)
Definition decrement_on_pass (counts : list Z) (idx : nat) : option (list Z) :=
  c ← counts !! idx;
  if 0 <? c then Some (<[idx := Z.max 0 (c - 1)]> counts) else Some counts.

(** A sequence of decrements, one after the other. *)
Fixpoint decrement_all (idxs : list nat) (counts : list Z) : option (list Z) :=
  match idxs with
  | [] => Some counts
  | idx :: rest => counts' ← decrement_on_pass counts idx; decrement_all rest counts'
  end.

(** The effect of one decrement on the count it is applied to. *)
Definition dec1 (c : Z) : Z := if 0 <? c then Z.max 0 (c - 1) else c.

End Congestion.

(** ** Results of code that can raise or loop *)
Inductive outcome (A : Type) : Type :=
  | Ret (a : A)      (* the code returns [a] *)
  | Raise            (* an exception ([IndexError], [ValueError]) *)
  | Timeout.         (* the step budget of the model ran out *)
Arguments Ret {A} a.
Arguments Raise {A}.
Arguments Timeout {A}.

#[global] Instance outcome_ret : MRet outcome := fun A a => Ret a.
#[global] Instance outcome_bind : MBind outcome := fun A B f m =>
  match m with
  | Ret a => f a
  | Raise => Raise
  | Timeout => Timeout
  end.

(** An index or key that is not there raises. *)
Definition lift {A} (o : option A) : outcome A :=
  match o with
  | Some a => Ret a
  | None => Raise
  end.

(** ** The replanner (replanner.py) *)
Module Replanner.

(** The floating-point operations the search uses.  Nothing is assumed about
    them: [F] holds every number of the search (the integer [0] the distance
    of the start is set to included), [of_int] is the conversion of an
    integer operand, [inf] is [math.inf], [isinf] is [math.isinf], [flt] and
    [feq] are [<] and [==], and [hypot] is [math.hypot] on two integers. *)
Class FloatOps : Type := {
  F : Type;
  of_int : Z -> F;
  fadd : F -> F -> F;
  fmul : F -> F -> F;
  fdiv : F -> F -> F;
  flt : F -> F -> bool;
  feq : F -> F -> bool;
  inf : F;
  isinf : F -> bool;
  hypot : Z -> Z -> F
}.

(** [adj]: junction -> list of [(neighbour, weight)]. *)
Abbreviation graph := (gmap nat (list (nat * F))) (only parsing).

Section Search.
Context {FO : FloatOps}.


(** [adj.get(u, [])]. *)
Definition neighbours (adj : graph) (u : nat) : list (nat * F) :=
  default [] (adj !! u).

(** Python's order on the tuples [(d, u)] of the queue: the first components
    decide unless they are equal. *)
Definition entry_lt (a b : F * nat) : bool :=
  if feq (fst a) (fst b) then (snd a <? snd b)%nat else flt (fst a) (fst b).

(** The queue is the list of its entries; [heappush] adds one and [heappop]
    takes a least one out (the earliest of them in the list). *)
Definition heappush (pq : list (F * nat)) (e : F * nat) : list (F * nat) := pq ++ [e].

Fixpoint pop_min (x : F * nat) (l : list (F * nat)) : (F * nat) * list (F * nat) :=
  match l with
  | [] => (x, [])
  | y :: l' =>
      let '(m, r) := pop_min y l' in
      if entry_lt m x then (m, x :: r) else (x, y :: l')
  end.

Definition heappop (pq : list (F * nat)) : option ((F * nat) * list (F * nat)) :=
  match pq with
  | [] => None
  | x :: l => Some (pop_min x l)
  end.

(** The arrays and the queue of one solve; [None] in [prev] is the [-1] of
    the source. *)
Record dstate : Type := DState {
  dist : list F;
  prev : list (option nat);
  pq : list (F * nat)
}.

(** [maxc = max(1, max(counts))]; [max] of an empty list raises. *)
Definition max_count (counts : list Z) : outcome Z :=
  match counts with
  | [] => Raise
  | c :: cs => Ret (Z.max 1 (fold_left Z.max cs c))
  end.

(** [traffic = (counts[u] + counts[v]) / 2.0] and
    [nd = d + alpha*w + beta*(traffic / maxc)]. *)
Definition traffic (cu cv : Z) : F := fdiv (of_int (cu + cv)) (of_int 2).
Definition step_cost_from (d alpha beta : F) (maxc cu cv : Z) (w : F) : F :=
  fadd (fadd d (fmul alpha w)) (fmul beta (fdiv (traffic cu cv) (of_int maxc))).

(** The body of [for v,w in adj.get(u,[])]. *)
Definition relax (counts : list Z) (alpha beta : F) (maxc : Z) (d : F) (u : nat)
    (st : dstate) (e : nat * F) : outcome dstate :=
  let '(v, w) := e in
  cu ← lift (counts !! u);
  cv ← lift (counts !! v);
  let nd := step_cost_from d alpha beta maxc cu cv w in
  dv ← lift (dist st !! v);
  if flt nd dv then
    Ret (DState (<[v := nd]> (dist st)) (<[v := Some u]> (prev st))
                (heappush (pq st) (nd, v)))
  else Ret st.

Fixpoint relax_all (counts : list Z) (alpha beta : F) (maxc : Z) (d : F) (u : nat)
    (es : list (nat * F)) (st : dstate) : outcome dstate :=
  match es with
  | [] => Ret st
  | e :: es' =>
      st' ← relax counts alpha beta maxc d u st e;
      relax_all counts alpha beta maxc d u es' st'
  end.

(** [while pq: ...], one iteration per unit of [fuel]. *)
Fixpoint search (fuel : nat) (adj : graph) (counts : list Z) (target : nat)
    (alpha beta : F) (maxc : Z) (st : dstate) : outcome dstate :=
  match fuel with
  | O => Timeout
  | S fuel' =>
      match heappop (pq st) with
      | None => Ret st
      | Some ((d, u), rest) =>
          let st := DState (dist st) (prev st) rest in
          du ← lift (dist st !! u);
          if negb (feq d du) then search fuel' adj counts target alpha beta maxc st
          else if (u =? target)%nat then Ret st
          else
            st' ← relax_all counts alpha beta maxc d u (neighbours adj u) st;
            search fuel' adj counts target alpha beta maxc st'
      end
  end.

(** Lines 9-13: the arrays before the loop; [dist[start] = 0] raises when
    [start] is not an index. *)
Definition init (N start : nat) : outcome dstate :=
  if (start <? N)%nat then
    Ret (DState (<[start := of_int 0]> (replicate N inf)) (replicate N None)
                [(of_int 0, start)])
  else Raise.

(** The search of path_selection.py, which returns [dist, prev]; the first
    26 lines of the one of replanner.py. *)
Definition dijkstra_arrays (fuel : nat) (adj : graph) (N : nat) (counts : list Z)
    (start target : nat) (alpha beta : F) : outcome (list F * list (option nat)) :=
  st ← init N start;
  maxc ← max_count counts;
  st' ← search fuel adj counts target alpha beta maxc st;
  Ret (dist st', prev st').

(** [while u != -1: path.append(u); if u == start: break; u = prev[u]]. *)
Fixpoint reconstruct (fuel : nat) (prev : list (option nat)) (start : nat)
    (u : option nat) (path : list nat) : outcome (list nat) :=
  match u with
  | None => Ret path
  | Some u =>
      match fuel with
      | O => Timeout
      | S fuel' =>
          let path := path ++ [u] in
          if (u =? start)%nat then Ret path
          else p ← lift (prev !! u); reconstruct fuel' prev start p path
      end
  end.

(** [dijkstra_weighted(adj, nodes, counts, start, target, alpha, beta)];
    [Ret None] is the [None] the source returns. *)
Definition dijkstra_weighted {A} (fuel : nat) (adj : graph) (nodes : list A)
    (counts : list Z) (start target : nat) (alpha beta : F)
    : outcome (option (list nat)) :=
  '(dist, prev) ← dijkstra_arrays fuel adj (length nodes) counts start target alpha beta;
  dt ← lift (dist !! target);
  if isinf dt then Ret None
  else path ← reconstruct fuel prev start (Some target) []; Ret (Some (reverse path)).

(** The default arguments [alpha=1.0, beta=2.0]. *)
Definition default_alpha : F := of_int 1.
Definition default_beta : F := of_int 2.

(** A walk from [start] and the cost the search accumulates along it, with
    the one denominator [maxc] of the solve. *)
Inductive walk_cost (adj : graph) (counts : list Z) (alpha beta : F) (maxc : Z)
    (start : nat) : nat -> F -> Prop :=
  | walk_start : walk_cost adj counts alpha beta maxc start start (of_int 0)
  | walk_step u v w d cu cv :
      walk_cost adj counts alpha beta maxc start u d ->
      (v, w) ∈ neighbours adj u ->
      counts !! u = Some cu ->
      counts !! v = Some cv ->
      walk_cost adj counts alpha beta maxc start v
        (fadd (fadd d (fmul alpha w))
              (fmul beta (fdiv (fdiv (of_int (cu + cv)) (of_int 2)) (of_int maxc)))).

(** Consecutive junctions of a route are joined by an edge. *)
Fixpoint edges_along (adj : graph) (route : list nat) : Prop :=
  match route with
  | a :: (b :: _) as rest => (exists w, (b, w) ∈ neighbours adj a) /\ edges_along adj rest
  | _ => True
  end.

(** A junction the search has a way back from: the start, or one with a
    predecessor. *)
Definition reached (start : nat) (prev : list (option nat)) (u : nat) : Prop :=
  u = start \/ exists p, prev !! u = Some (Some p).

(** What holds of the arrays and the queue all along a solve over [N]
    junctions. *)
Record invariant (adj : graph) (counts : list Z) (alpha beta : F) (maxc : Z)
    (start N : nat) (st : dstate) : Prop := {
  inv_len_dist : length (dist st) = N;
  inv_len_prev : length (prev st) = N;
  inv_cost : forall v d, dist st !! v = Some d ->
               d = inf \/ walk_cost adj counts alpha beta maxc start v d;
  inv_queue_cost : forall d u, (d, u) ∈ pq st ->
               walk_cost adj counts alpha beta maxc start u d;
  inv_edge : forall v u, prev st !! v = Some (Some u) ->
               exists w, (v, w) ∈ neighbours adj u;
  inv_back : forall v u, prev st !! v = Some (Some u) -> reached start (prev st) u;
  inv_finite : forall v d, dist st !! v = Some d -> d <> inf -> reached start (prev st) v;
  inv_queue : forall d u, (d, u) ∈ pq st -> reached start (prev st) u
}.

(** The junctions the reconstruction visits from [u] back to [start]. *)
Inductive chain (prev : list (option nat)) (start : nat) : nat -> list nat -> Prop :=
  | chain_start : chain prev start start [start]
  | chain_step u p l :
      u <> start -> prev !! u = Some (Some p) -> chain prev start p l ->
      chain prev start u (u :: l).

End Search.

(** *** Termination

    The order the search needs of [<] and [==] to end: [<] is a strict
    order, "not greater" is transitive, and equal numbers are not ordered.
    IEEE comparisons have these properties on numbers that are not NaN. *)
Class FloatOrder `{FO : FloatOps} : Prop := {
  flt_irrefl : forall x, flt x x = false;
  flt_trans : forall x y z, flt x y = true -> flt y z = true -> flt x z = true;
  fle_trans : forall x y z, flt y x = false -> flt z y = false -> flt z x = false;
  feq_fle : forall x y, feq x y = true -> flt x y = false /\ flt y x = false
}.

Section Budget.
Context {FO : FloatOps}.

(** Every neighbour is a junction of the map. *)
Definition graph_wf (adj : gmap nat (list (nat * F))) (N : nat) : Prop :=
  forall u v w, (v, w) ∈ neighbours adj u -> (v < N)%nat.

(** No step makes a distance smaller: the costs are not negative. *)
Definition nonneg_costs (adj : gmap nat (list (nat * F))) (counts : list Z)
    (alpha beta : F) (maxc : Z) : Prop :=
  forall d u v w cu cv,
    (v, w) ∈ neighbours adj u -> counts !! u = Some cu -> counts !! v = Some cv ->
    flt (step_cost_from d alpha beta maxc cu cv w) d = false.

(** The number of entries of [adj[u]], and their total over the junctions
    that are not in [X]. *)
Definition degree (adj : gmap nat (list (nat * F))) (u : nat) : nat :=
  length (neighbours adj u).

Definition unexpanded_degree (adj : gmap nat (list (nat * F))) (N : nat)
    (X : gset nat) : nat :=
  sum_list_with (fun u => if decide (u ∈ X) then 0%nat else degree adj u) (seq 0 N).

(** A budget of iterations that is enough for one solve. *)
Definition enough_fuel (adj : gmap nat (list (nat * F))) (N : nat) : nat :=
  N + 2 + unexpanded_degree adj N ∅.

(** The edge [e] out of [u] cannot lower the distance of its end any more. *)
Definition relaxed (counts : list Z) (alpha beta : F) (maxc : Z) (dist : list F)
    (u : nat) (e : nat * F) : Prop :=
  forall du cu cv dv,
    dist !! u = Some du -> counts !! u = Some cu -> counts !! (fst e) = Some cv ->
    dist !! (fst e) = Some dv ->
    flt (step_cost_from du alpha beta maxc cu cv (snd e)) dv = false.

(** What holds, with costs that are not negative, once the junctions of [X]
    have been expanded and [dlast] is the last key taken from the queue. *)
Record settled (counts : list Z) (alpha beta : F) (maxc : Z) (start N : nat)
    (X : gset nat) (dlast : F) (R : nat -> nat * F -> Prop) (st : dstate) : Prop := {
  t_keys : forall k x, (k, x) ∈ pq st -> flt k dlast = false /\ (x < N)%nat;
  t_done : forall u du, u ∈ X -> dist st !! u = Some du -> flt dlast du = false;
  t_relaxed : forall u e, R u e -> u ∈ X /\ relaxed counts alpha beta maxc (dist st) u e;
  t_entry : forall k x dx, (k, x) ∈ pq st -> dist st !! x = Some dx ->
              k = dx \/ flt dx k = true;
  t_sub : forall u, u ∈ X -> (u < N)%nat;
  t_pred : forall v p, prev st !! v = Some (Some p) -> p ∈ X;
  t_chain : forall u, u ∈ X ->
              exists l, chain (prev st) start u l /\ Forall (fun x => x ∈ X) l /\
                        (length l <= size X)%nat
}.

(** [p] holds of every entry of the adjacency. *)
Definition check_graph (p : nat -> nat * F -> bool) (adj : gmap nat (list (nat * F))) : bool :=
  forallb (fun ues => forallb (p (fst ues)) (snd ues)) (map_to_list adj).

End Budget.
End Replanner.

(** ** The multi-ambulance runner (multi_ambulance_runner.py) *)
Module Runner.
Import Replanner.

Definition N_AMB : nat := 2.
Definition REPLAN_INTERVAL : Z := 5.
Definition max_ticks : Z := 1000.

Abbreviation point := (Z * Z)%type (only parsing).

Section Run.
Context {FO : FloatOps}.

(** [euclid(a, b) = math.hypot(a[0]-b[0], a[1]-b[1])]. *)
Definition euclid (a b : point) : F := hypot (fst a - fst b) (snd a - snd b).

(** [{nodes[i]: i for i in range(len(nodes))}]: a later junction at the same
    position replaces an earlier one. *)
Definition node_map (nodes : list point) : gmap point nat :=
  fold_left (fun m ip => <[snd ip := fst ip]> m) (imap pair nodes) ∅.

(** The scan of [find_nearest_node_idx], from [best=None; bd=1e9]. *)
Definition scan_step (pt : point) (acc : Z * option nat) (ip : nat * point)
    : Z * option nat :=
  let d := (fst (snd ip) - fst pt) ^ 2 + (snd (snd ip) - snd pt) ^ 2 in
  if d <? fst acc then (d, Some (fst ip)) else acc.

Definition find_nearest_node_idx (nodes : list point) (pt : point) : option nat :=
  match node_map nodes !! pt with
  | Some i => Some i
  | None => snd (fold_left (scan_step pt) (imap pair nodes) (10 ^ 9, None))
  end.

(** [adj[a].append((b, w))] on a [defaultdict(list)]. *)
Definition append_edge (adj : graph) (a b : nat) (w : F) : graph :=
  <[a := neighbours adj a ++ [(b, w)]]> adj.

(** The body of [for poly in polylines].  The indices the snapping returns
    are positions of [nodes], so [nodes[a]] and [nodes[b]] are there. *)
Definition add_polyline (nodes : list point) (adj : graph) (poly : list point) : graph :=
  if (length poly <? 2)%nat then adj
  else
    match head poly, last poly with
    | Some p0, Some p1 =>
        match find_nearest_node_idx nodes p0, find_nearest_node_idx nodes p1 with
        | Some a, Some b =>
            if (a =? b)%nat then adj
            else
              match nodes !! a, nodes !! b with
              | Some pa, Some pb =>
                  let w := euclid pa pb in
                  append_edge (append_edge adj a b w) b a w
              | _, _ => adj
              end
        | _, _ => adj
        end
    | _, _ => adj
    end.

Definition build_graph (nodes : list point) (polylines : list (list point)) : graph :=
  fold_left (add_polyline nodes) polylines ∅.

(** The dictionary of one ambulance. *)
Record ambulance : Type := Ambulance {
  start : nat;
  path : list nat;
  pos_idx : nat;
  done : bool
}.

(** Lines 129-132: the route of a new ambulance, with the two-junction
    fallback. *)
Definition spawn (fuel : nat) (adj : graph) (nodes : list point) (counts_vals : list Z)
    (target si : nat) : outcome ambulance :=
  p ← dijkstra_weighted fuel adj nodes counts_vals si target default_alpha default_beta;
  let p := match p with
           | None => [si; target]
           | Some p => p
           end in
  Ret (Ambulance si p 0 false).

(** Lines 144-146: the replanning of one ambulance at tick [ticks];
    [if newp:] holds for a route that is neither [None] nor empty. *)
Definition replan_due (ticks : Z) (a : ambulance) : bool :=
  (ticks mod REPLAN_INTERVAL =? 0) &&
  (Z.of_nat (pos_idx a) <? Z.of_nat (length (path a)) - 1).

Definition replan (fuel : nat) (adj : graph) (nodes : list point) (counts_vals : list Z)
    (target : nat) (ticks : Z) (a : ambulance) : outcome ambulance :=
  if replan_due ticks a then
    cur ← lift (path a !! pos_idx a);
    newp ← dijkstra_weighted fuel adj nodes counts_vals cur target
              default_alpha default_beta;
    match newp with
    | Some (x :: l) => Ret (Ambulance (start a) (x :: l) 0 (done a))
    | _ => Ret a
    end
  else Ret a.

(** Lines 148-151: one junction forward, or done. *)
Definition advance (a : ambulance) : ambulance :=
  if Z.of_nat (pos_idx a) <? Z.of_nat (length (path a)) - 1
  then Ambulance (start a) (path a) (pos_idx a + 1) (done a)
  else Ambulance (start a) (path a) (pos_idx a) true.

(** Lines 152-155: the exported frame word. *)
Definition frame_word (p : point) : Z :=
  Z.land (Z.lor (Z.shiftl (Z.land (fst p) 1023) 22) (Z.shiftl (Z.land (snd p) 1023) 12))
         4294967295.

(** The body of [for ai,a in enumerate(ambulances)]. *)
Definition ambulance_step (fuel : nat) (adj : graph) (nodes : list point)
    (counts_vals : list Z) (target : nat) (ticks : Z) (ai : nat) (a : ambulance)
    (amb_frames : list (list Z)) : outcome (ambulance * list (list Z)) :=
  if done a then Ret (a, amb_frames)
  else
    a1 ← replan fuel adj nodes counts_vals target ticks a;
    let a2 := advance a1 in
    cur ← lift (path a2 !! pos_idx a2);
    p ← lift (nodes !! cur);
    frames ← lift (amb_frames !! ai);
    Ret (a2, <[ai := frames ++ [frame_word p]]> amb_frames).

Fixpoint step_all (fuel : nat) (adj : graph) (nodes : list point)
    (counts_vals : list Z) (target : nat) (ticks : Z) (ai : nat)
    (ambulances : list ambulance) (amb_frames : list (list Z))
    : outcome (list ambulance * list (list Z)) :=
  match ambulances with
  | [] => Ret ([], amb_frames)
  | a :: rest =>
      '(a', frames') ← ambulance_step fuel adj nodes counts_vals target ticks ai a amb_frames;
      '(rest', frames'') ← step_all fuel adj nodes counts_vals target ticks (S ai) rest frames';
      Ret (a' :: rest', frames'')
  end.

(** Line 160: [a['path'][max(0, a['pos_idx']-1)]]. *)
Definition passed_junction (a : ambulance) : option nat :=
  path a !! (pos_idx a - 1)%nat.

(** Lines 159-161, over every ambulance of the list. *)
Fixpoint decrement_passed (ambulances : list ambulance) (counts_vals : list Z)
    : outcome (list Z) :=
  match ambulances with
  | [] => Ret counts_vals
  | a :: rest =>
      idx ← lift (passed_junction a);
      counts' ← lift (Congestion.decrement_on_pass counts_vals idx);
      decrement_passed rest counts'
  end.

Record sim : Type := Sim {
  ambulances : list ambulance;
  counts_vals : list Z;
  amb_frames : list (list Z);
  ticks : Z
}.

(** One iteration of the [while] loop of [main]. *)
Definition tick (fuel : nat) (adj : graph) (nodes : list point) (target : nat)
    (s : sim) : outcome sim :=
  let ticks := ticks s + 1 in
  '(ambs, frames) ← step_all fuel adj nodes (counts_vals s) target ticks 0
                       (ambulances s) (amb_frames s);
  counts ← decrement_passed ambs (counts_vals s);
  Ret (Sim ambs counts frames ticks).

(** [while ticks < max_ticks and not all(a['done'] for a in ambulances)];
    [budget] bounds the iterations, and [max_ticks] of them are enough. *)
Fixpoint run (budget fuel : nat) (adj : graph) (nodes : list point) (target : nat)
    (s : sim) : outcome sim :=
  match budget with
  | O => Ret s
  | S budget' =>
      if (ticks s <? max_ticks) && negb (forallb done (ambulances s)) then
        s' ← tick fuel adj nodes target s;
        run budget' fuel adj nodes target s'
      else Ret s
  end.

(** Every entry of the adjacency joins two different junctions, and its
    weight is the distance between their positions. *)
Definition edges_ok (nodes : list point) (adj : graph) : Prop :=
  forall u v w, (v, w) ∈ neighbours adj u ->
    u <> v /\
    exists pu pv, nodes !! u = Some pu /\ nodes !! v = Some pv /\
                  (w = euclid pu pv \/ w = euclid pv pu).

(** What every ambulance of the loop satisfies: the cursor is an index of
    the route, and a done ambulance stands on the last one. *)
Definition cursor_ok (a : ambulance) : Prop :=
  (pos_idx a < length (path a))%nat /\
  (done a = true -> pos_idx a = (length (path a) - 1)%nat).

End Run.
End Runner.

(** ** The whole loop of the runner *)
Module RunnerLoop.
Import Replanner Runner.
Section Loop.
Context {FO : FloatOps}.

(** Lines 128-132: one ambulance for each spawn junction. *)
Fixpoint spawn_all (fuel : nat) (adj : graph) (nodes : list point) (counts_vals : list Z)
    (target : nat) (spawns : list nat) : outcome (list ambulance) :=
  match spawns with
  | [] => Ret []
  | si :: rest =>
      a ← spawn fuel adj nodes counts_vals target si;
      ambulances ← spawn_all fuel adj nodes counts_vals target rest;
      Ret (a :: ambulances)
  end.

(** Lines 128-161 of [main]: the ambulances, [amb_frames = [[] for _ in
    range(N_AMB)]], and the loop. *)
Definition simulate (budget fuel : nat) (adj : graph) (nodes : list point)
    (counts_vals : list Z) (target : nat) (spawns : list nat) : outcome sim :=
  ambulances ← spawn_all fuel adj nodes counts_vals target spawns;
  run budget fuel adj nodes target (Sim ambulances counts_vals (replicate N_AMB []) 0).

(** A state of the loop over a map of [N] junctions: cursors inside their
    routes, routes inside the map, counts that are not negative, one for
    each junction at least, and a list of frames for each ambulance. *)
Definition sim_ok (N : nat) (s : sim) : Prop :=
  Forall cursor_ok (ambulances s) /\
  Forall (fun a => Forall (fun j => (j < N)%nat) (path a)) (ambulances s) /\
  Forall (fun c => 0 <= c) (counts_vals s) /\
  (N <= length (counts_vals s))%nat /\
  (length (ambulances s) <= length (amb_frames s))%nat.

(** The loop condition is false. *)
Definition finished (s : sim) : Prop :=
  max_ticks <= ticks s \/ forallb done (ambulances s) = true.

End Loop.
End RunnerLoop.

(** ** Packed words of the COE files

    The scripts exchange junction positions, ambulance frames, lights,
    geometry entries and pixels as integers with fixed bit fields. *)
Module Words.

Definition WIDTH : Z := 640.
Definition HEIGHT : Z := 480.

(** [load_nodes]: [x = (v>>10)&0x3FF; y = v & 0x3FF] for every value of the
    file. *)
Definition node_of_word (v : Z) : Z * Z :=
  (Z.land (Z.shiftr v 10) 1023, Z.land v 1023).
Definition load_nodes (vals : list Z) : list (Z * Z) := map node_of_word vals.

(** runtime_controller.py, lines 89-90: the position an ambulance frame
    holds, [x = (w>>22)&0x3FF; y = (w>>12)&0x3FF]. *)
Definition frame_point (w : Z) : Z * Z :=
  (Z.land (Z.shiftr w 22) 1023, Z.land (Z.shiftr w 12) 1023).

(** The word of a light, [((st & 0x3) << 14) | (tm & 0x3FFF)], and what the
    readers make of it, [st = (v>>14)&0x3; tm = v & 0x3FFF]. *)
Definition light_word (l : Z * Z) : Z :=
  Z.lor (Z.shiftl (Z.land (fst l) 3) 14) (Z.land (snd l) 16383).
Definition light_of_word (v : Z) : Z * Z :=
  (Z.land (Z.shiftr v 14) 3, Z.land v 16383).

(** [pack_geom(x, y, typ, color8)] of generate_framebuffer.py and
    make_fpga_assets.py. *)
Definition pack_geom (x y typ color8 : Z) : Z :=
  Z.lor (Z.lor (Z.lor (Z.shiftl (Z.land x 1023) 22) (Z.shiftl (Z.land y 1023) 12))
               (Z.shiftl (Z.land typ 15) 8))
        (Z.land color8 255).

(** [rgb888_to_rgb565(r, g, b)] (and [rgb565] of stage0_traffic_heat.py). *)
Definition rgb888_to_rgb565 (r g b : Z) : Z :=
  let r5 := (r * 31) / 255 in
  let g6 := (g * 63) / 255 in
  let b5 := (b * 31) / 255 in
  Z.lor (Z.lor (Z.shiftl r5 11) (Z.shiftl g6 5)) b5.

(** visualize_runtime.py, lines 21-23: a pixel back to eight bits a channel. *)
Definition rgb565_to_rgb888 (v : Z) : Z * Z * Z :=
  (Z.land (Z.shiftr v 11) 31 * 255 / 31,
   Z.land (Z.shiftr v 5) 63 * 255 / 63,
   Z.land v 31 * 255 / 31).

(** [load_edges_polylines]: bit 19 of a word ends a polyline, the 19 bits
    below hold the point. *)
Definition edge_flag (v : Z) : bool := negb (Z.land v 524288 =? 0).
Definition edge_point (v : Z) : Z * Z :=
  let coord := Z.land v 524287 in
  (Z.land (Z.shiftr coord 10) 1023, Z.land coord 1023).

(** The body of [for v in vals], on [(polylines, cur)]. *)
Definition polyline_step (acc : list (list (Z * Z)) * list (Z * Z)) (v : Z)
    : list (list (Z * Z)) * list (Z * Z) :=
  let '(polylines, cur) := acc in
  let cur := cur ++ [edge_point v] in
  if edge_flag v then
    (match cur with [] => polylines | _ => polylines ++ [cur] end, [])
  else (polylines, cur).

Definition load_edges_polylines (vals : list Z) : list (list (Z * Z)) :=
  let '(polylines, cur) := fold_left polyline_step vals ([], []) in
  match cur with [] => polylines | _ => polylines ++ [cur] end.
End Words.

(** ** The runtime controller (runtime_controller.py) *)
Module Controller.
Import Binary64 Words.

(** [preempt_count = max(1, int(len(path_nodes)*0.15))]. *)
Definition preempt_count (L : nat) : Z :=
  Z.max 1 (py_int (fmul (of_int (Z.of_nat L)) lit_0_15)).

(** Lines 71-77: [[0,60]] for every junction, overwritten by the lights of
    lights.coe when the file is there. *)
Definition initial_lights (N : nat) (orig : option (list Z)) : list (Z * Z) :=
  match orig with
  | Some vals =>
      (light_of_word <$> take N vals) ++ replicate (N - length vals) (0, 60)
  | None => replicate N (0, 60)
  end.

(** Lines 116-117: [if full_lights[i][1] > 0: full_lights[i][1] =
    max(0, full_lights[i][1]-1)]. *)
Definition decrement_timer (l : Z * Z) : Z * Z :=
  if 0 <? snd l then (fst l, Z.max 0 (snd l - 1)) else l.

(** Lines 119-120: [full_lights[ni] = [1, 60]] for every junction of the
    window; a junction that is not an index raises. *)
Fixpoint set_green (full_lights : list (Z * Z)) (window : list nat)
    : outcome (list (Z * Z)) :=
  match window with
  | [] => Ret full_lights
  | ni :: rest =>
      if (ni <? length full_lights)%nat
      then set_green (<[ni := (1, 60)]> full_lights) rest
      else Raise
  end.

(** The body of [for t in range(ticks)], on the lights and the frames. *)
Definition controller_tick (nodes : list (Z * Z)) (path_nodes : list nat)
    (preempt_count : nat) (st : list (Z * Z) * list Z) (t : nat)
    : outcome (list (Z * Z) * list Z) :=
  current ← lift (path_nodes !! t);
  let full_lights := decrement_timer <$> fst st in
  full_lights ← set_green full_lights (take preempt_count (drop t path_nodes));
  p ← lift (nodes !! current);
  Ret (full_lights, snd st ++ [Runner.frame_word p]).

Fixpoint controller_loop (nodes : list (Z * Z)) (path_nodes : list nat)
    (preempt_count : nat) (ts : list nat) (st : list (Z * Z) * list Z)
    : outcome (list (Z * Z) * list Z) :=
  match ts with
  | [] => Ret st
  | t :: rest =>
      st' ← controller_tick nodes path_nodes preempt_count st t;
      controller_loop nodes path_nodes preempt_count rest st'
  end.

(** The state after the first [k] ticks of the loop. *)
Definition controller_after (nodes : list (Z * Z)) (orig : option (list Z))
    (path_nodes : list nat) (k : nat) : outcome (list (Z * Z) * list Z) :=
  controller_loop nodes path_nodes (Z.to_nat (preempt_count (length path_nodes)))
    (seq 0 k) (initial_lights (length nodes) orig, []).


(** The route positions the window has reached after [k] ticks. *)
Definition covered (pc k : nat) : nat :=
  match k with
  | O => O
  | S k' => (k' + pc)%nat
  end.

(** What holds after [k] ticks from the lights [lights0]: a frame for each
    junction passed, junctions the window has not reached only count down,
    junctions it has reached are green, and those of the last window are
    green with the full timer. *)
Record tick_inv (nodes : list (Z * Z)) (path : list nat) (pc : nat)
    (lights0 : list (Z * Z)) (k : nat) (st : list (Z * Z) * list Z) : Prop := {
  ti_len : length (fst st) = length nodes;
  ti_frames : Forall2 (fun j w => exists p, nodes !! j = Some p /\ w = Runner.frame_word p)
                      (take k path) (snd st);
  ti_off : forall j, j ∉ take (covered pc k) path ->
             fst st !! j = Nat.iter k decrement_timer <$> lights0 !! j;
  ti_on : forall j, j ∈ take (covered pc k) path ->
             exists tm, fst st !! j = Some (1, tm) /\ 0 <= tm <= 60;
  ti_window : forall k' j, k = S k' -> j ∈ take pc (drop k' path) ->
             fst st !! j = Some (1, 60)
}.

End Controller.

(** ** The tiers and the timings of a whole route *)
Module Stage2Tiers.
Import Stage2Rules.
(** Equality of tiers. *)
Definition tier_eqb (a b : tier) : bool :=
  match a, b with
  | tier1, tier1 | tier2, tier2 | tier3, tier3 => true
  | _, _ => false
  end.

(** The number of junctions of [path] that [tiers] puts in tier [t]. *)
Definition tier_size (tiers : gmap nat tier) (t : tier) (path : list nat) : nat :=
  length (List.filter (fun ni => match tiers !! ni with
                                 | Some t' => tier_eqb t t'
                                 | None => false
                                 end) path).

(** The two dictionaries during the loop: a junction holds the base timings
    or the timings of its tier. *)
Definition modified (tiers : gmap nat tier) (N : nat) (seen : list nat)
    (st : gmap nat timings * gmap nat timings) : Prop :=
  forall ni,
    ((ni < N)%nat ->
     exists sel oth, fst st !! ni = Some sel /\ snd st !! ni = Some oth /\
       (ni ∉ seen -> sel = base_timings /\ oth = base_timings) /\
       (ni ∈ seen -> exists t, tiers !! ni = Some t /\
          (sel, oth) = tier_modifier t base_timings base_timings)) /\
    ((N <= ni)%nat -> fst st !! ni = None /\ snd st !! ni = None).

End Stage2Tiers.

(** ** The rasterizer (generate_framebuffer.py, make_fpga_assets.py) *)
Module Raster.
Import Words.

(** The place of pixel [(x, y)] in the buffer, [y * WIDTH + x]. *)
Definition pixel_index (x y : Z) : nat := Z.to_nat (y * WIDTH + x).

Definition on_screen (x y : Z) : bool :=
  (0 <=? x) && (x <? WIDTH) && (0 <=? y) && (y <? HEIGHT).

(** [set_pixel(buf, x, y, color)]; an index past the end of [buf] raises. *)
Definition set_pixel (buf : list Z) (x y color : Z) : outcome (list Z) :=
  if on_screen x y then
    if (pixel_index x y <? length buf)%nat
    then Ret (<[pixel_index x y := color]> buf)
    else Raise
  else Ret buf.

(** The [while True] loop of [draw_line], one iteration per unit of fuel. *)
Fixpoint line_loop (fuel : nat) (buf : list Z) (x0 y0 x1 y1 dx dy sx sy err color : Z)
    : outcome (list Z) :=
  match fuel with
  | O => Timeout
  | S fuel' =>
      buf ← set_pixel buf x0 y0 color;
      if (x0 =? x1) && (y0 =? y1) then Ret buf
      else
        let e2 := 2 * err in
        let '(err, x0) := if dy <=? e2 then (err + dy, x0 + sx) else (err, x0) in
        let '(err, y0) := if e2 <=? dx then (err + dx, y0 + sy) else (err, y0) in
        line_loop fuel' buf x0 y0 x1 y1 dx dy sx sy err color
  end.

(** [draw_line(buf, x0, y0, x1, y1, color)]. *)
Definition draw_line (fuel : nat) (buf : list Z) (x0 y0 x1 y1 color : Z)
    : outcome (list Z) :=
  let dx := Z.abs (x1 - x0) in
  let dy := - Z.abs (y1 - y0) in
  let sx := if x0 <? x1 then 1 else -1 in
  let sy := if y0 <? y1 then 1 else -1 in
  line_loop fuel buf x0 y0 x1 y1 dx dy sx sy (dx + dy) color.

(** The pixels [buf'] differs from [buf] in have the colour and lie on the
    screen between the two corners. *)
Definition painted_within (buf buf' : list Z) (color xa ya xb yb : Z) : Prop :=
  forall k, buf' !! k <> buf !! k ->
    buf' !! k = Some color /\
    exists x y, on_screen x y = true /\ k = pixel_index x y /\
                Z.min xa xb <= x <= Z.max xa xb /\ Z.min ya yb <= y <= Z.max ya yb.

(** Lines 116-122 of [main]: an endpoint is clamped to the screen and its
    y is turned upside down. *)
Definition clamp_x (x : Z) : Z := Z.max 0 (Z.min (WIDTH - 1) x).
Definition screen_y (y : Z) : Z := HEIGHT - 1 - Z.max 0 (Z.min (HEIGHT - 1) y).

(** Lines 112-123: [for i in range(0, len(edges) - 1, 2)], a line for each
    pair of consecutive points; a last point without a partner is left. *)
Fixpoint draw_edges (fuel : nat) (buf : list Z) (edges : list (Z * Z)) (color : Z)
    : outcome (list Z) :=
  match edges with
  | (x0, y0) :: (x1, y1) :: rest =>
      buf ← draw_line fuel buf (clamp_x x0) (screen_y y0) (clamp_x x1) (screen_y y1) color;
      draw_edges fuel buf rest color
  | _ => Ret buf
  end.

End Raster.

(** ** Division of doubles *)
Module Binary64Div.
Import Binary64.

(** [(ma / mb) * 2^e] rounded to 53 significant bits, ties to even, for
    [0 < mb]: the quotient is scaled to lie between 2^52 and 2^53 and
    rounded to an integer there. *)
Definition div_round (ma mb e : Z) : float :=
  if ma =? 0 then Float 0 0
  else
    let a := Z.abs ma in
    let k := 53 + Z.log2 mb - Z.log2 a in
    let num k := a * 2 ^ Z.max k 0 in
    let den k := mb * 2 ^ Z.max (- k) 0 in
    let k := if num k / den k <? 2 ^ 53 then k else k - 1 in
    Float (Z.sgn ma * rne_div (num k) (den k)) (e - k).

(** [a / b] on Python integers: the quotient of the integers themselves,
    rounded once. *)
Definition int_truediv (a b : Z) : float := div_round a b 0.

(** [a / b] on doubles. *)
Definition fdiv (a b : float) : float :=
  div_round (mant a) (mant b) (expo a - expo b).

End Binary64Div.

(** ** The vehicle counters of stage 0 (stage0_traffic_heat.py) *)
Module Stage0Counts.
Import Binary64 Binary64Div.

Definition TOTAL_VEH : Z := 5000.
Definition MIN_PER_JUNC : Z := 50.

(** [sum(counts)]. *)
Definition sum (l : list Z) : Z := fold_right Z.add 0 l.

(** Lines 103-106: [while rem > 0: counts[i%K] += 1; rem -= 1; i += 1],
    from [i]. *)
Fixpoint distribute (rem : nat) (K : Z) (i : Z) (counts : list Z) : outcome (list Z) :=
  match rem with
  | O => Ret counts
  | S rem' =>
      let idx := Z.to_nat (i mod K) in
      c ← lift (counts !! idx);
      distribute rem' K (i + 1) (<[idx := c + 1]> counts)
  end.

(** Lines 81-106, for a map of [N] junctions: the number of active
    junctions and their counters.  With no junction, [TOTAL_VEH // K]
    divides by zero. *)
Definition initial_counts (N : nat) : outcome (list Z) :=
  let K := Z.min (Z.of_nat N) (TOTAL_VEH / MIN_PER_JUNC) in
  let K := if K <=? 0 then Z.min (Z.of_nat N) 1 else K in
  if K =? 0 then Raise
  else
    let base := TOTAL_VEH / K in
    let counts := replicate (Z.to_nat K) (Z.max MIN_PER_JUNC base) in
    let cur_sum := sum counts in
    let counts :=
      if TOTAL_VEH <? cur_sum then
        let scale := int_truediv TOTAL_VEH cur_sum in
        (fun c => Z.max MIN_PER_JUNC (py_int (fmul (of_int c) scale))) <$> counts
      else counts in
    let cur_sum := sum counts in
    let rem := TOTAL_VEH - cur_sum in
    distribute (Z.to_nat rem) K 0 counts.

End Stage0Counts.

(** ** The text of a COE file

    A text is the list of its characters.  The files are ASCII, and the
    functions below are Python's on ASCII text ([str.lower] and [str.strip]
    do more on other characters). *)
Module CoeText.

Abbreviation text := (list ascii) (only parsing).

(** A string literal as a text. *)
Definition lit (s : string) : list ascii := list_ascii_of_string s.

Definition code (c : ascii) : Z := Z.of_nat (nat_of_ascii c).

(** [c.isspace()] on ASCII: tab to carriage return, the four separators
    28-31, and the space. *)
Definition is_space (c : ascii) : bool :=
  ((9 <=? code c) && (code c <=? 13)) || ((28 <=? code c) && (code c <=? 32)).

(** [c.lower()] and [c.upper()]. *)
Definition lower (c : ascii) : ascii :=
  if (65 <=? code c) && (code c <=? 90) then ascii_of_nat (nat_of_ascii c + 32) else c.
Definition upper (c : ascii) : ascii :=
  if (97 <=? code c) && (code c <=? 122) then ascii_of_nat (nat_of_ascii c - 32) else c.

(** [text.replace(old, new)] for single characters. *)
Definition replace (old new : ascii) (t : list ascii) : list ascii :=
  map (fun c => if Ascii.eqb c old then new else c) t.

(** [text.split(sep)] for a single character. *)
Fixpoint split (sep : ascii) (t : list ascii) : list (list ascii) :=
  match t with
  | [] => [[]]
  | c :: t' =>
      if Ascii.eqb c sep then [] :: split sep t'
      else match split sep t' with
           | tok :: toks => (c :: tok) :: toks
           | [] => [[c]]
           end
  end.

(** [t.strip()]. *)
Fixpoint lstrip (t : list ascii) : list ascii :=
  match t with
  | c :: t' => if is_space c then lstrip t' else t
  | [] => []
  end.
Definition strip (t : list ascii) : list ascii := rev (lstrip (rev (lstrip t))).

(** [t.startswith(p)]. *)
Fixpoint startswith (p t : list ascii) : bool :=
  match p, t with
  | [], _ => true
  | a :: p', b :: t' => Ascii.eqb a b && startswith p' t'
  | _ :: _, [] => false
  end.

(** The value of a hexadecimal digit; [c in '0123456789abcdefABCDEF']. *)
Definition hex_value (c : ascii) : option Z :=
  let n := code c in
  if (48 <=? n) && (n <=? 57) then Some (n - 48)
  else if (97 <=? n) && (n <=? 102) then Some (n - 87)
  else if (65 <=? n) && (n <=? 70) then Some (n - 55)
  else None.
Definition is_hex (c : ascii) : bool :=
  match hex_value c with
  | Some _ => true
  | None => false
  end.

(** [int(tt, 16)] on a text of hexadecimal digits; the empty text is a
    [ValueError]. *)
Definition int16 (tt : list ascii) : outcome Z :=
  match tt with
  | [] => Raise
  | _ => Ret (fold_left (fun acc c => 16 * acc + default 0 (hex_value c)) tt 0)
  end.

(** The first lines of every parser:
    [for ch in [';', '\n', '\r']: text = text.replace(ch, ',')] and
    [toks = [t.strip() for t in text.split(',') if t.strip()]]. *)
Definition tokens (t : list ascii) : list (list ascii) :=
  let t := replace ";" "," t in
  let t := replace "010" "," t in
  let t := replace "013" "," t in
  List.filter (fun tok => negb (Nat.eqb (length tok) 0)) (map strip (split "," t)).

(** The body of [for t in toks] of [parse_coe_points]: [None] for a token
    that is skipped. *)
Definition parse_token (t : list ascii) : outcome (option Z) :=
  if startswith (lit "memory_initialization") (map lower t) then Ret None
  else
    let tt := if startswith (lit "0x") (map lower t) then drop 2 t else t in
    if forallb is_hex tt then v ← int16 tt; Ret (Some v) else Ret None.

Fixpoint parse_tokens (toks : list (list ascii)) : outcome (list Z) :=
  match toks with
  | [] => Ret []
  | t :: rest =>
      v ← parse_token t;
      vals ← parse_tokens rest;
      Ret (match v with Some v => v :: vals | None => vals end)
  end.

(** [parse_coe_points(path)] (also [parse_coe_hex], [parse_coe]) on the text
    of the file. *)
Definition parse_coe_points (t : list ascii) : outcome (list Z) :=
  parse_tokens (tokens t).

(** [format(v, '0wX')] for [0 <= v]: upper-case digits, zeros in front up
    to [w] characters. *)
Definition hex_digit (d : Z) : ascii :=
  ascii_of_nat (Z.to_nat (if d <? 10 then 48 + d else 55 + d)).
Fixpoint hex_digits (fuel : nat) (v : Z) : list ascii :=
  match fuel with
  | O => []
  | S fuel' => if v =? 0 then [] else hex_digits fuel' (v / 16) ++ [hex_digit (v mod 16)]
  end.
Definition format_X (w : nat) (v : Z) : list ascii :=
  let ds := if v =? 0 then lit "0" else hex_digits (S (Z.to_nat (Z.log2 v))) v in
  repeat "0"%char (w - length ds) ++ ds.

Definition header : list ascii :=
  lit "memory_initialization_radix=16;" ++ ["010"%char] ++
  lit "memory_initialization_vector=" ++ ["010"%char].

(** The writers that put every word on a line of its own:
    [end = ',' if i < total-1 else ';'; f.write(token + end + '\n')]. *)
Definition write_coe_lines (w : nat) (vals : list Z) : list ascii :=
  header ++
  concat (imap (fun i v =>
            format_X w v ++
            (if (Z.of_nat i <? Z.of_nat (length vals) - 1) then lit "," else lit ";") ++
            ["010"%char]) vals).

(** The writers that put all words on one line:
    [f.write(format(w, '08X')); f.write(',' if i < len(frames)-1 else ';\n')]. *)
Definition write_coe (w : nat) (vals : list Z) : list ascii :=
  header ++
  concat (imap (fun i v =>
            format_X w v ++
            (if (Z.of_nat i <? Z.of_nat (length vals) - 1) then lit ","
             else lit ";" ++ ["010"%char])) vals).

(** The four characters that end a token. *)
Definition is_sep (c : ascii) : bool :=
  Ascii.eqb c "," || Ascii.eqb c ";" || Ascii.eqb c "010" || Ascii.eqb c "013".

(** A token of a written file: not empty, without separator or space. *)
Definition clean (tok : list ascii) : Prop :=
  tok <> [] /\ Forall (fun c => is_sep c = false /\ is_space c = false) tok.

(** The three replacements of the parsers. *)
Definition replace3 (t : list ascii) : list ascii :=
  replace "013" "," (replace "010" "," (replace ";" "," t)).

(** The characters [format] writes. *)
Definition upper_hex (c : ascii) : Prop := exists d, 0 <= d < 16 /\ c = hex_digit d.

(** The number a text of digits denotes. *)
Definition hex_number (t : list ascii) : Z :=
  fold_left (fun acc c => 16 * acc + default 0 (hex_value c)) t 0.

(** The two lines every writer starts with, as tokens and what follows
    them. *)
Definition header_pieces : list (list ascii * list ascii) :=
  [(lit "memory_initialization_radix=16", lit ";" ++ ["010"%char]);
   (lit "memory_initialization_vector=", ["010"%char])].

End CoeText.

(** ** The other readers of COE text *)
Module CoeReaders.
Import CoeText Words.

(** The body of [for t in tokens] of [read_coe_points] in
    generate_framebuffer.py: the two header prefixes, and an [int] that
    fails is passed over. *)
Definition read_token (t : list ascii) : option (Z * Z) :=
  if startswith (lit "memory_initialization_radix") (map lower t) ||
     startswith (lit "memory_initialization_vector") (map lower t)
  then None
  else
    let tt := if startswith (lit "0x") (map lower t) then drop 2 t else t in
    if forallb is_hex tt then
      match int16 tt with
      | Ret v => Some (node_of_word v)
      | _ => None
      end
    else None.

Definition read_coe_points (t : list ascii) : list (Z * Z) :=
  omap read_token (tokens t).

(** coe_to_mem.py: the lines of the .mem file. *)
Definition mem_token (t : list ascii) : option (list ascii) :=
  if startswith (lit "memory_initialization") (map lower t) then None
  else
    let tt := if startswith (lit "0x") (map lower t) then drop 2 t else t in
    if forallb is_hex tt then Some (map upper tt) else None.

Definition coe_to_mem (t : list ascii) : list ascii :=
  concat (map (fun v => v ++ ["010"%char]) (omap mem_token (tokens t))).

(** make_fpga_assets.py has the same reader with the shorter header test. *)
Definition read_token_assets (t : list ascii) : option (Z * Z) :=
  if startswith (lit "memory_initialization") (map lower t) then None
  else
    let tt := if startswith (lit "0x") (map lower t) then drop 2 t else t in
    if forallb is_hex tt then
      match int16 tt with
      | Ret v => Some (node_of_word v)
      | _ => None
      end
    else None.

Definition read_coe_points_assets (t : list ascii) : list (Z * Z) :=
  omap read_token_assets (tokens t).

(** runtime_controller.py, lines 71-77, on the text of lights.coe where the
    file exists. *)
Definition load_lights (N : nat) (file : option (list ascii)) : outcome (list (Z * Z)) :=
  match file with
  | Some t => vals ← parse_coe_points t; Ret (Controller.initial_lights N (Some vals))
  | None => Ret (Controller.initial_lights N None)
  end.

(** The text of a lights file: the header,
    [word = ((st & 0x3) << 14) | (tm & 0x3FFF)] for every light,
    [format(word,'04X')] and [',' if i < N-1 else ';\n']. *)
Definition write_lights (full_lights : list (Z * Z)) : list ascii :=
  write_coe 4 (light_word <$> full_lights).

(** What a light is after it was masked to two and fourteen bits. *)
Definition masked (l : Z * Z) : Z * Z := (fst l mod 4, snd l mod 16384).

Definition light_ok (l : Z * Z) : Prop := 0 <= fst l < 4 /\ 0 <= snd l < 16384.

(** A line of a .mem file: upper-case digits, at least one. *)
Definition digits (l : list ascii) : Prop := l <> [] /\ Forall upper_hex l.

(** visualize_runtime.py, [read_framebuffer_coe]: the body of [for t in toks],
    without the [0x] of the other readers. *)
Definition pixel_token (t : list ascii) : outcome (option Z) :=
  if startswith (lit "memory_initialization") (map lower t) then Ret None
  else if forallb is_hex t then v ← int16 t; Ret (Some (Z.land v 65535))
  else Ret None.

Fixpoint pixel_tokens (toks : list (list ascii)) : outcome (list Z) :=
  match toks with
  | [] => Ret []
  | t :: rest =>
      v ← pixel_token t;
      vals ← pixel_tokens rest;
      Ret (match v with Some v => v :: vals | None => vals end)
  end.

(** [vals[:n]] for any integer [n]: a negative [n] counts from the end. *)
Definition py_prefix {A} (n : Z) (l : list A) : list A :=
  if 0 <=? n then take (Z.to_nat n) l else take (length l - Z.to_nat (- n)) l.

(** [read_framebuffer_coe(path, width, height)] on the text of the file: the
    pixels of the first [width*height] values, and black ones
    [while len(pixels) < width*height]. *)
Definition read_framebuffer_coe (t : list ascii) (width height : Z)
    : outcome (list (Z * Z * Z)) :=
  vals ← pixel_tokens (tokens t);
  let pixels := rgb565_to_rgb888 <$> py_prefix (width * height) vals in
  Ret (pixels ++ replicate (Z.to_nat (width * height) - length pixels) (0, 0, 0)).

(** A channel of a pixel of the overlay. *)
Definition pixel_ok (p : Z * Z * Z) : Prop :=
  0 <= fst (fst p) <= 255 /\ 0 <= snd (fst p) <= 255 /\ 0 <= snd p <= 255.

End CoeReaders.

(** ** An exact instance of the arithmetic

    Rationals with an infinity: every operation is exact.  [hypot] is the
    integer square root, exact on the right triangles with integer sides. *)
Module ExactFloat.

Inductive xq : Type := Fin (q : Q) | Inf.

Definition lift2 (f : Q -> Q -> Q) (a b : xq) : xq :=
  match a, b with
  | Fin x, Fin y => Fin (Qred (f x y))
  | _, _ => Inf
  end.

Definition xlt (a b : xq) : bool :=
  match a, b with
  | Fin x, Fin y => negb (Qle_bool y x)
  | Fin _, Inf => true
  | Inf, _ => false
  end.

Definition xeq (a b : xq) : bool :=
  match a, b with
  | Fin x, Fin y => Qeq_bool x y
  | Inf, Inf => true
  | _, _ => false
  end.

Definition xisinf (a : xq) : bool :=
  match a with
  | Inf => true
  | Fin _ => false
  end.

#[local] Instance exact_ops : Replanner.FloatOps := {|
  Replanner.F := xq;
  Replanner.of_int := fun z => Fin (inject_Z z);
  Replanner.fadd := lift2 Qplus;
  Replanner.fmul := lift2 Qmult;
  Replanner.fdiv := lift2 Qdiv;
  Replanner.flt := xlt;
  Replanner.feq := xeq;
  Replanner.inf := Inf;
  Replanner.isinf := xisinf;
  Replanner.hypot := fun dx dy => Fin (inject_Z (Z.sqrt (dx * dx + dy * dy)))
|}.

(** The three junctions of the end-to-end scenario, (0,0), (10,0), (10,10),
    joined in a chain, and the same with a direct road of weight 25. *)
Definition nodes3 : list Runner.point := [(0, 0); (10, 0); (10, 10)].
Definition polylines3 : list (list Runner.point) :=
  [[(0, 0); (5, 0); (10, 0)]; [(10, 0); (10, 10)]].
Definition adj3 : Replanner.graph := Runner.build_graph nodes3 polylines3.
Definition adj3_direct : Replanner.graph :=
  Runner.append_edge (Runner.append_edge adj3 0 2 (Fin 25)) 2 0 (Fin 25).

(** An entry of the adjacency that ends at a junction of the map and has a
    weight that is finite and not negative. *)
Definition weight_ok (N : nat) (u : nat) (e : nat * xq) : bool :=
  (fst e <? N)%nat &&
  match snd e with
  | Fin q => Qle_bool 0%Q q
  | Inf => false
  end.

(** Two ambulances on the chain: one at the start of its route, one done. *)
Definition sim0 : Runner.sim :=
  Runner.Sim [Runner.Ambulance 0 [0; 1; 2] 0 false; Runner.Ambulance 1 [1; 2] 1 true]%nat
             [3; 1; 0] [[]; []] 0.
Definition sim1 : Runner.sim :=
  Runner.Sim [Runner.Ambulance 0 [0; 1; 2] 1 false; Runner.Ambulance 1 [1; 2] 1 true]%nat
             [2; 0; 0] [[41943040]; []] 1.

End ExactFloat.

(** * Properties *)

Module Binary64Facts.
Import Binary64.

Example lit_0_15_nearest : nearest_to lit_0_15 15 100.
Proof. unfold nearest_to; simpl. lia. Qed.

Example lit_0_40_nearest : nearest_to lit_0_40 40 100.
Proof. unfold nearest_to; simpl. lia. Qed.

Example lit_0_6_nearest : nearest_to lit_0_6 6 10.
Proof. unfold nearest_to; simpl. lia. Qed.

Example lit_0_1_nearest : nearest_to lit_0_1 1 10.
Proof. unfold nearest_to; simpl. lia. Qed.

Example lit_0_3_nearest : nearest_to lit_0_3 3 10.
Proof. unfold nearest_to; simpl. lia. Qed.

Example round_0_15_times_10 : py_round (fmul lit_0_15 (of_int 10)) = 2.
Proof. reflexivity. Qed.

Example round_0_15_times_70 : py_round (fmul lit_0_15 (of_int 70)) = 10.
Proof. reflexivity. Qed.

Example partition_counts_7 : Stage2Rules.partition_counts 7 = (1, 3, 3).
Proof. reflexivity. Qed.

Lemma rne_div_upper m p : 0 < p -> 2 * (p * rne_div m p) <= 2 * m + p.
Proof.
  intros Hp. unfold rne_div.
  pose proof (Z.div_mod m p ltac:(lia)) as Hdm.
  pose proof (Z.mod_pos_bound m p Hp) as Hr.
  set (q := m / p) in *. set (r := m mod p) in *.
  destruct (Z.ltb_spec (2 * r) p); [nia|].
  destruct (Z.ltb_spec p (2 * r)); [nia|].
  destruct (Z.even q); nia.
Qed.

Lemma rne_div_nonneg m p : 0 < p -> 0 <= m -> 0 <= rne_div m p.
Proof.
  intros Hp Hm. unfold rne_div.
  pose proof (Z.div_pos m p Hm Hp).
  destruct (_ <? _); [lia|]. destruct (_ <? _); [lia|]. destruct (Z.even _); lia.
Qed.

Local Open Scope Q_scope.

Lemma two_power_Q (k : Z) : (0 <= k)%Z -> inject_Z (2 ^ k) == 2 ^ k.
Proof. intros Hk. rewrite Zpower_Qpower by assumption. reflexivity. Qed.

Lemma two_power_pos (e : Z) : 0 < 2 ^ e.
Proof. apply Qpower_0_lt. reflexivity. Qed.

(** Injected integers and powers of two are atoms for [lra]. *)
Ltac atoms :=
  repeat match goal with
  | |- context [inject_Z ?z] =>
      let b := fresh "q" in set (b := inject_Z z) in *; clearbody b
  | H : context [inject_Z ?z] |- _ =>
      let b := fresh "q" in set (b := inject_Z z) in *; clearbody b
  | |- context [Qpower 2 ?e] =>
      let b := fresh "p" in set (b := Qpower 2 e) in *; clearbody b
  | H : context [Qpower 2 ?e] |- _ =>
      let b := fresh "p" in set (b := Qpower 2 e) in *; clearbody b
  end.

Lemma val_nonneg x : (0 <= mant x)%Z -> 0 <= val x.
Proof.
  intros H. unfold val. apply Qmult_le_0_compat.
  - rewrite Zle_Qle in H. exact H.
  - apply Qlt_le_weak, two_power_pos.
Qed.

(** The shift of [round53]: for [2^53 <= m] it is positive, and [2^k * 2^52 <= m]. *)
Lemma round53_shift m :
  (2 ^ 53 <= m)%Z ->
  let k := (Z.log2 m - 52)%Z in (1 <= k /\ 2 ^ k * 2 ^ 52 <= m)%Z.
Proof.
  intros Hm k.
  assert (H53 : (53 <= Z.log2 m)%Z).
  { apply Z.log2_le_pow2; lia. }
  split; [unfold k; lia|].
  rewrite <- Z.pow_add_r by (unfold k; lia).
  replace (k + 52)%Z with (Z.log2 m) by (unfold k; lia).
  apply Z.log2_spec. lia.
Qed.

Lemma mant_round53_nonneg m e : (0 <= m)%Z -> (0 <= mant (round53 m e))%Z.
Proof.
  intros Hm. unfold round53. rewrite Z.abs_eq by assumption.
  destruct (Z.ltb_spec m (2 ^ 53)); simpl; [assumption|].
  destruct (round53_shift m H) as [Hk _].
  apply rne_div_nonneg; [|assumption]. apply Z.pow_pos_nonneg; lia.
Qed.

(** Rounding to 53 bits raises a non-negative value by at most one part in 2^53. *)
Lemma val_round53_upper m e :
  (0 <= m)%Z -> val (round53 m e) <= (inject_Z m * 2 ^ e) * (1 + ulp).
Proof.
  intros Hm. unfold round53. rewrite Z.abs_eq by assumption.
  pose proof (two_power_pos e) as He.
  assert (Hm' : 0 <= inject_Z m) by (rewrite Zle_Qle in Hm; exact Hm).
  destruct (Z.ltb_spec m (2 ^ 53)); unfold val; cbn [mant expo].
  - assert (0 <= inject_Z m * 2 ^ e) by (apply Qmult_le_0_compat; atoms; lra).
    unfold ulp. atoms. lra.
  - destruct (round53_shift m H) as [Hk Hp].
    set (k := (Z.log2 m - 52)%Z) in *.
    assert (Hpp : (0 < 2 ^ k)%Z) by (apply Z.pow_pos_nonneg; lia).
    pose proof (rne_div_upper m (2 ^ k) Hpp) as Hu.
    set (r := rne_div m (2 ^ k)) in *.
    assert (Hz : (2 ^ 53 * (2 ^ k * r) <= (2 ^ 53 + 1) * m)%Z).
    { change (2 ^ 53)%Z with 9007199254740992%Z.
      change (2 ^ 52)%Z with 4503599627370496%Z in Hp.
      set (t := (2 ^ k * r)%Z) in *. set (p := (2 ^ k)%Z) in *. lia. }
    rewrite Zle_Qle, !inject_Z_mult, (two_power_Q k) in Hz by lia.
    rewrite Qpower_plus by discriminate.
    change (inject_Z (2 ^ 53)) with (9007199254740992 # 1) in Hz.
    change (inject_Z (2 ^ 53 + 1)) with (9007199254740993 # 1) in Hz.
    set (a := inject_Z r) in *. set (b := inject_Z m) in *.
    set (pe := 2 ^ e) in *. set (pk := 2 ^ k) in *.
    clearbody a b pe pk.
    assert (Hab : a * pk <= b * (1 + ulp)) by (unfold ulp; lra).
    assert (E1 : a * (pe * pk) == (a * pk) * pe) by ring.
    assert (E2 : b * pe * (1 + ulp) == (b * (1 + ulp)) * pe) by ring.
    rewrite E1, E2. apply Qmult_le_compat_r; lra.
Qed.

(** [round] raises a value by at most one half. *)
Lemma py_round_upper x : inject_Z (py_round x) <= val x + (1 # 2).
Proof.
  unfold py_round, val. destruct (Z.leb_spec 0 (expo x)).
  - rewrite inject_Z_mult, (two_power_Q (expo x)) by assumption.
    set (a := inject_Z (mant x) * 2 ^ expo x). clearbody a. lra.
  - set (s := (- expo x)%Z).
    assert (Hs : (0 < s)%Z) by (unfold s; lia).
    assert (Hpp : (0 < 2 ^ s)%Z) by (apply Z.pow_pos_nonneg; lia).
    pose proof (rne_div_upper (mant x) (2 ^ s) Hpp) as Hu.
    set (n := rne_div (mant x) (2 ^ s)) in *.
    rewrite Zle_Qle, inject_Z_plus, !inject_Z_mult, (two_power_Q s) in Hu by lia.
    replace (expo x) with (- s)%Z by (unfold s; lia).
    rewrite Qpower_opp.
    pose proof (two_power_pos s) as Hp.
    change (inject_Z 2) with 2 in Hu.
    set (p := 2 ^ s) in *. set (a := inject_Z n) in *. set (b := inject_Z (mant x)) in *.
    clearbody p a b.
    apply (Qmult_le_r _ _ p Hp).
    assert (E : (b * / p + (1 # 2)) * p == b + (1 # 2) * p) by (field; lra).
    rewrite E. lra.
Qed.

(** The product of two non-negative doubles. *)
Lemma val_fmul_upper a b :
  (0 <= mant a)%Z -> (0 <= mant b)%Z ->
  val (fmul a b) <= val a * val b * (1 + ulp).
Proof.
  intros Ha Hb. unfold fmul.
  eapply Qle_trans; [apply val_round53_upper; lia|].
  unfold val. rewrite inject_Z_mult, Qpower_plus by discriminate.
  apply Qle_lteq. right. ring.
Qed.

Lemma val_of_int_upper n : (0 <= n)%Z -> val (of_int n) <= inject_Z n * (1 + ulp).
Proof.
  intros Hn. unfold of_int.
  eapply Qle_trans; [apply val_round53_upper; assumption|].
  apply Qle_lteq. right. simpl. ring.
Qed.

Lemma round_product_upper c n :
  (0 <= mant c)%Z -> (0 <= n)%Z ->
  inject_Z (py_round (fmul c (of_int n))) <=
    val c * inject_Z n * (1 + ulp) * (1 + ulp) + (1 # 2).
Proof.
  intros Hc Hn.
  eapply Qle_trans; [apply py_round_upper|].
  pose proof (val_fmul_upper c (of_int n) Hc (mant_round53_nonneg n 0 Hn)) as H1.
  pose proof (val_of_int_upper n Hn) as H2.
  pose proof (val_nonneg c Hc) as H3.
  assert (H4 : val c * val (of_int n) <= val c * (inject_Z n * (1 + ulp))).
  { rewrite !(Qmult_comm (val c)). apply Qmult_le_compat_r; assumption. }
  assert (H5 : val c * val (of_int n) * (1 + ulp) <= val c * (inject_Z n * (1 + ulp)) * (1 + ulp)).
  { apply Qmult_le_compat_r; [assumption|unfold ulp; lra]. }
  set (f := val (fmul c (of_int n))) in *. clearbody f.
  unfold ulp in *. atoms. set (v := val c) in *. set (w := val (of_int n)) in *.
  clearbody v w. lra.
Qed.

Lemma val_lit_0_15 : val lit_0_15 == 5404319552844595 # 36028797018963968.
Proof. reflexivity. Qed.

Lemma val_lit_0_40 : val lit_0_40 == 7205759403792794 # 18014398509481984.
Proof. reflexivity. Qed.

End Binary64Facts.

(** ** Tiered pre-emption *)
Module Stage2Facts.
Import Binary64 Binary64Facts Stage2Rules.
Local Open Scope Q_scope.

(** The raw tier sizes leave room: [n1 + n2 <= L] from 4 junctions on. *)
Lemma raw_counts_fit L :
  (4 <= L)%Z ->
  (Z.max 1 (py_round (fmul lit_0_15 (of_int L))) +
   Z.max 3 (py_round (fmul lit_0_40 (of_int L))) <= L)%Z.
Proof.
  intros HL.
  destruct (Z.eq_dec L 4%Z) as [-> | Hne]; [vm_compute; discriminate|].
  assert (H5 : (5 <= L)%Z) by lia.
  pose proof (round_product_upper lit_0_15 L ltac:(simpl; lia) ltac:(lia)) as H1.
  pose proof (round_product_upper lit_0_40 L ltac:(simpl; lia) ltac:(lia)) as H2.
  rewrite val_lit_0_15 in H1. rewrite val_lit_0_40 in H2.
  set (r1 := py_round (fmul lit_0_15 (of_int L))) in *.
  set (r2 := py_round (fmul lit_0_40 (of_int L))) in *.
  clearbody r1 r2.
  assert (Hq : inject_Z r1 + inject_Z r2 <= inject_Z L /\
               inject_Z r1 + 3 <= inject_Z L /\ 1 + inject_Z r2 <= inject_Z L).
  { rewrite Zle_Qle in H5. change (inject_Z 5) with 5 in H5.
    unfold ulp in *.
    set (a := inject_Z r1) in *. set (b := inject_Z r2) in *. set (l := inject_Z L) in *.
    clearbody a b l. lra. }
  destruct Hq as (Ha & Hb & Hc).
  change 3 with (inject_Z 3) in Hb. change 1 with (inject_Z 1) in Hc.
  rewrite <- inject_Z_plus, <- Zle_Qle in Ha, Hb, Hc.
  lia.
Qed.

(** C3: for every route length [L >= 4] the tier partition has
    [n1 >= 1], [n2 >= 3], [n1 + n2 + n3 = L] and [n3 >= 0]. *)
Theorem C3_partition_counts (L : Z) :
  (4 <= L)%Z ->
  let '(n1, n2, n3) := partition_counts L in
  (1 <= n1 /\ 3 <= n2 /\ n1 + n2 + n3 = L /\ 0 <= n3)%Z.
Proof.
  intros HL. pose proof (raw_counts_fit L HL) as Hfit.
  unfold partition_counts.
  set (n1 := Z.max 1 (py_round (fmul lit_0_15 (of_int L)))) in *.
  set (n2 := Z.max 3 (py_round (fmul lit_0_40 (of_int L)))) in *.
  assert (H1 : (1 <= n1)%Z) by (unfold n1; lia).
  assert (H2 : (3 <= n2)%Z) by (unfold n2; lia).
  clearbody n1 n2.
  destruct (Z.ltb_spec (L - n1 - n2) 4)%Z.
  - destruct (Z.ltb_spec (L - n1 - n2 + Z.min (4 - (L - n1 - n2)) (n2 - 3)) 0)%Z; lia.
  - destruct (Z.ltb_spec (L - n1 - n2) 0)%Z; lia.
Qed.

(** The partition of a route of seven junctions. *)
Lemma C3_partition_counts_witness :
  (partition_counts 7 = (1, 3, 3) /\ (1 <= 1 /\ 3 <= 3 /\ 1 + 3 + 3 = 7 /\ 0 <= 3))%Z.
Proof.
  split; [reflexivity|]. exact (C3_partition_counts 7 ltac:(lia)).
Defined.

Local Close Scope Q_scope.
Local Open Scope Z_scope.

Example stage2_durations : G_T = 60 /\ Y_T = 10 /\ R_T = 30.
Proof. repeat split; reflexivity. Qed.

Lemma all_junctions_lookup {A} (N : nat) (x : A) (i : nat) :
  (i < N)%nat -> all_junctions N x !! i = Some x.
Proof.
  intros Hi. unfold all_junctions.
  apply elem_of_list_to_map_1.
  - rewrite <- list_fmap_compose. simpl. rewrite list_fmap_id. apply NoDup_seq.
  - apply list_elem_of_fmap. exists i. split; [reflexivity|].
    apply elem_of_seq. lia.
Qed.

Lemma tiers7 :
  let tiers := assign_tiers 1 3 route7 in
  tiers !! 0%nat = Some tier1 /\ tiers !! 1%nat = Some tier2 /\
  tiers !! 2%nat = Some tier2 /\ tiers !! 3%nat = Some tier2 /\
  tiers !! 4%nat = Some tier3 /\ tiers !! 5%nat = Some tier3 /\
  tiers !! 6%nat = Some tier3.
Proof. repeat split; vm_compute; reflexivity. Qed.

(** C8: on the route [0,1,2,3,4,5,6], in a map of at least seven junctions,
    the partition is (1, 3, 3); junction 0, the only one of tier 1, starts
    GREEN with a timer of twice the green duration; and junction 6, of tier
    3, keeps the green duration and has 0.6 times the red one. *)
Theorem C8_preemption_scenario (N : nat) :
  (7 <= N)%nat ->
  exists s, stage2_setup N route7 = Some s /\
    counts3 s = (1, 3, 3) /\
    sim_selected_state s !! 0%nat = Some (1, 2 * G_T) /\
    (exists t6, selected_timings s !! 6%nat = Some t6 /\
                tG t6 = G_T /\ 10 * tR t6 = 6 * R_T).
Proof.
  intros HN. unfold stage2_setup.
  change (partition_counts (Z.of_nat (length route7))) with (1, 3, 3).
  cbv beta iota.
  destruct tiers7 as (T0 & T1 & T2 & T3 & T4 & T5 & T6).
  set (tiers := assign_tiers 1 3 route7) in *. clearbody tiers.
  unfold route7.
  cbn [apply_modifiers]. unfold modify_junction. cbn [fst snd].
  repeat (first [rewrite T0 | rewrite T1 | rewrite T2 | rewrite T3 | rewrite T4 | rewrite T5 | rewrite T6];
          cbn [mbind option_bind];
          rewrite ?lookup_insert_ne by lia;
          rewrite !all_junctions_lookup by lia;
          cbn [mbind option_bind tier_modifier fst snd]).
  change (Z.to_nat 1) with 1%nat. cbn [take preempt_all]. unfold preempt.
  rewrite !lookup_insert_ne by lia. rewrite lookup_insert_eq.
  cbn [mbind option_bind tG].
  eexists. split; [reflexivity|]. cbn [counts3 sim_selected_state selected_timings].
  split; [reflexivity|]. split.
  - rewrite lookup_insert_eq. reflexivity.
  - eexists. split; [apply lookup_insert_eq|]. split; reflexivity.
Qed.

(** The scenario on a map of exactly seven junctions. *)
Lemma C8_preemption_scenario_witness :
  exists s, stage2_setup 7 route7 = Some s /\
    counts3 s = (1, 3, 3) /\
    sim_selected_state s !! 0%nat = Some (1, 2 * G_T) /\
    (exists t6, selected_timings s !! 6%nat = Some t6 /\
                tG t6 = G_T /\ 10 * tR t6 = 6 * R_T).
Proof. exact (C8_preemption_scenario 7 ltac:(lia)). Defined.

End Stage2Facts.

(** ** The light cycle *)
Module SignalFacts.
Import Signals.

Lemma stage0_durations : G_T = 60 /\ Y_T = 10 /\ R_T = 30.
Proof. repeat split; reflexivity. Qed.

Ltac phases :=
  unfold stage0_ok, lights_ok, stage0_initial, lights_initial, is_phase,
    RED, GREEN, YELLOW in *; simpl in *.

Lemma stage0_tick_ok l : stage0_ok l -> stage0_ok (stage0_light_tick l).
Proof.
  destruct l as [st t]. phases. intros [[-> | [-> | ->]] Ht];
    unfold stage0_light_tick; simpl in *;
    destruct (Z.leb_spec (t - 1) 0); simpl;
    unfold stage0_duration in *; simpl in *;
    pose proof stage0_durations; lia.
Qed.

Lemma lights_tick_ok l : lights_ok l -> lights_ok (lights_tick l).
Proof.
  destruct l as [st t]. phases. intros [[-> | [-> | ->]] Ht];
    unfold lights_tick; simpl in *;
    destruct (Z.leb_spec t 1); simpl;
    unfold lights_duration, GREEN_LEN, YELLOW_LEN, RED_LEN in *; simpl in *; lia.
Qed.

Lemma stage0_iter_ok n l : stage0_initial l -> stage0_ok (Nat.iter n stage0_light_tick l).
Proof.
  intros Hl. induction n as [|n IH]; simpl.
  - exact Hl.
  - apply stage0_tick_ok, IH.
Qed.

Lemma lights_iter_ok n l : lights_initial l -> lights_ok (Nat.iter n lights_tick l).
Proof.
  intros Hl. induction n as [|n IH]; simpl.
  - destruct l as [st t]. phases. destruct Hl as [Hp Ht]. split; [exact Hp|].
    destruct Hp as [-> | [-> | ->]]; simpl in *; lia.
  - apply lights_tick_ok, IH.
Qed.

(** A change of phase in a stage-0 tick: the timer was 1, the new phase is
    the next of the cycle, and the timer is its duration. *)
Lemma stage0_change l :
  stage0_ok l ->
  fst (stage0_light_tick l) <> fst l ->
  snd l = 1 /\ fst (stage0_light_tick l) = next_phase (fst l) /\
  snd (stage0_light_tick l) = stage0_duration (fst (stage0_light_tick l)).
Proof.
  destruct l as [st t]. phases. intros [[-> | [-> | ->]] Ht];
    unfold stage0_light_tick; simpl;
    destruct (Z.leb_spec (t - 1) 0); simpl; intros Hne;
    try (exfalso; apply Hne; reflexivity);
    (split; [lia | split; reflexivity]).
Qed.

Lemma lights_change l :
  lights_ok l ->
  fst (lights_tick l) <> fst l ->
  snd l = 1 /\ fst (lights_tick l) = next_phase (fst l) /\
  snd (lights_tick l) = lights_duration (fst (lights_tick l)).
Proof.
  destruct l as [st t]. phases. intros [[-> | [-> | ->]] Ht];
    unfold lights_tick; simpl;
    destruct (Z.leb_spec t 1); simpl; intros Hne;
    try (exfalso; apply Hne; reflexivity);
    (split; [lia | split; reflexivity]).
Qed.

(** The lights of the stage-0 simulation are the iterates of the tick of
    each junction, whatever the arrivals are. *)
Lemma stage0_tick_lookup arrivals s idx c l :
  s !! idx = Some (c, l) ->
  stage0_tick arrivals s !! idx =
    Some (stage0_count_tick (arrivals idx) (fst l) c, stage0_light_tick l).
Proof.
  intros H. unfold stage0_tick. rewrite list_lookup_imap, H. reflexivity.
Qed.

Lemma stage0_run_lights draws : forall s idx c l,
  s !! idx = Some (c, l) ->
  exists c', stage0_run draws s !! idx =
             Some (c', Nat.iter (length draws) stage0_light_tick l).
Proof.
  induction draws as [|a draws IH]; intros s idx c l H; simpl.
  - eauto.
  - destruct (IH _ _ _ _ (stage0_tick_lookup a s idx c l H)) as [c' Hc'].
    exists c'. unfold stage0_run in *. simpl. rewrite Hc'.
    f_equal. f_equal. clear. induction (length draws); simpl; congruence.
Qed.

Lemma advance_lights_iter n lights idx l :
  lights !! idx = Some l ->
  Nat.iter n advance_lights lights !! idx = Some (Nat.iter n lights_tick l).
Proof.
  intros H. induction n as [|n IH]; simpl; [exact H|].
  unfold advance_lights at 1. rewrite list_lookup_fmap, IH. reflexivity.
Qed.

(** C2, as stated, fails: a light that starts RED with one tick left turns
    GREEN in the first tick, and its timer was 1, not 0, when the tick began. *)
Lemma C2_counterexample : ~ changes_only_at_zero stage0_light_tick stage0_initial.
Proof.
  intros H. specialize (H 0%nat (0, 1)). simpl in H.
  assert (Hi : stage0_initial (0, 1)).
  { phases. unfold stage0_duration; simpl. pose proof stage0_durations. lia. }
  specialize (H Hi). unfold stage0_light_tick in H. simpl in H.
  assert (Hne : 1 <> 0) by lia. specialize (H Hne). lia.
Qed.

(** C2 (amended): in both scripts, at every tick and for every junction, the
    phase is RED, GREEN or YELLOW and the timer is at least 0; the phase
    changes in a tick only if the timer was 1 when the tick began (the
    decrement of the tick brings it to 0); and every change follows
    RED -> GREEN -> YELLOW -> RED and sets the timer to the duration of the
    new phase. *)
Theorem C2_light_cycle :
  (forall (n : nat) (l : light),
     stage0_initial l ->
     let before := Nat.iter n stage0_light_tick l in
     let after := stage0_light_tick before in
     is_phase (fst before) /\ 0 <= snd before /\
     (fst after <> fst before ->
      snd before = 1 /\ fst after = next_phase (fst before) /\
      snd after = stage0_duration (fst after))) /\
  (forall (n : nat) (l : light),
     lights_initial l ->
     let before := Nat.iter n lights_tick l in
     let after := lights_tick before in
     is_phase (fst before) /\ 0 <= snd before /\
     (fst after <> fst before ->
      snd before = 1 /\ fst after = next_phase (fst before) /\
      snd after = lights_duration (fst after))).
Proof.
  split; intros n l Hl before after.
  - pose proof (stage0_iter_ok n l Hl) as Hok. fold before in Hok.
    split; [apply Hok|]. split; [destruct Hok as [_ ?]; lia|].
    intros Hne. apply stage0_change; assumption.
  - pose proof (lights_iter_ok n l Hl) as Hok. fold before in Hok.
    split; [apply Hok|]. split; [destruct Hok as [_ ?]; lia|].
    intros Hne. apply lights_change; assumption.
Qed.

(** The theorem at two lights about to change: RED with one tick left in
    stage 0, and YELLOW after nine ticks from ten in the other script. *)
Lemma C2_light_cycle_witness :
  (stage0_light_tick (0, 1) = (1, 60)) /\ (Nat.iter 10 lights_tick (2, 10) = (0, 150)).
Proof.
  destruct C2_light_cycle as [H0 H1].
  assert (Hi0 : stage0_initial (0, 1)) by (vm_compute; intuition (auto; discriminate)).
  assert (Hi1 : lights_initial (2, 10)) by (vm_compute; intuition (auto; discriminate)).
  pose proof (H0 0%nat (0, 1) Hi0) as A.
  pose proof (H1 9%nat (2, 10) Hi1) as B.
  split; reflexivity.
Defined.

End SignalFacts.

(** ** Congestion counts *)
Module CongestionFacts.
Import Congestion.

Lemma decrement_on_pass_spec counts idx c :
  counts !! idx = Some c ->
  decrement_on_pass counts idx =
    Some (if 0 <? c then <[idx := c - 1]> counts else counts).
Proof.
  intros H. unfold decrement_on_pass. rewrite H. simpl.
  destruct (Z.ltb_spec 0 c); [|reflexivity].
  rewrite Z.max_r by lia. reflexivity.
Qed.

Lemma decrement_on_pass_nonneg counts idx counts' :
  Forall (fun c => 0 <= c) counts ->
  decrement_on_pass counts idx = Some counts' ->
  Forall (fun c => 0 <= c) counts' /\ length counts' = length counts.
Proof.
  intros Hc H. unfold decrement_on_pass in H.
  destruct (counts !! idx) as [c|] eqn:E; simpl in H; [|discriminate].
  destruct (Z.ltb_spec 0 c); inversion H; subst; clear H.
  - split; [|apply length_insert].
    apply Forall_insert; [assumption|lia].
  - split; [assumption|reflexivity].
Qed.

Lemma decrement_all_nonneg idxs : forall counts,
  Forall (fun c => 0 <= c) counts ->
  Forall (fun i => (i < length counts)%nat) idxs ->
  exists counts', decrement_all idxs counts = Some counts' /\
                  Forall (fun c => 0 <= c) counts' /\
                  length counts' = length counts.
Proof.
  induction idxs as [|i idxs IH]; intros counts Hc Hi; simpl.
  - eauto.
  - inversion Hi as [|? ? Hlt Hrest]; subst.
    destruct (lookup_lt_is_Some_2 counts i Hlt) as [c Hci].
    pose proof (decrement_on_pass_spec counts i c Hci) as Hd.
    destruct (decrement_on_pass_nonneg counts i _ Hc Hd) as [Hc' Hlen].
    rewrite Hd. simpl.
    destruct (IH _ Hc') as (counts' & H1 & H2 & H3).
    { rewrite Hlen. assumption. }
    exists counts'. split; [assumption|]. split; [assumption|]. congruence.
Qed.

(** C7: no number of decrements drives a count below 0.  From counts that
    are all non-negative, any sequence of decrements at junctions of the
    list succeeds and leaves them all non-negative; a decrement at a count
    that is 0 changes nothing; and the departures of stage 0 never take more
    vehicles than there are. *)
Theorem C7_counts_never_negative :
  (forall (counts : list Z) (idxs : list nat),
     Forall (fun c => 0 <= c) counts ->
     Forall (fun i => (i < length counts)%nat) idxs ->
     exists counts', decrement_all idxs counts = Some counts' /\
                     Forall (fun c => 0 <= c) counts' /\
                     length counts' = length counts) /\
  (forall (counts : list Z) (idx : nat),
     counts !! idx = Some 0 -> decrement_on_pass counts idx = Some counts) /\
  (forall (arrive : bool) (st c : Z),
     0 <= c -> 0 <= Signals.stage0_count_tick arrive st c).
Proof.
  split; [|split].
  - intros counts idxs. apply decrement_all_nonneg.
  - intros counts idx H. rewrite (decrement_on_pass_spec _ _ _ H). reflexivity.
  - intros arrive st c Hc. unfold Signals.stage0_count_tick, Signals.DEPART_WHEN_GREEN.
    destruct arrive; destruct (st =? 1); simpl;
      repeat match goal with |- context [0 <? ?x] => destruct (Z.ltb_spec 0 x) end; lia.
Qed.

(** Three decrements at a junction that holds one vehicle. *)
Lemma C7_counts_never_negative_witness :
  decrement_all [1; 1; 1]%nat [2; 1; 0] = Some [2; 0; 0] /\
  decrement_on_pass [2; 0; 0] 1 = Some [2; 0; 0].
Proof.
  destruct C7_counts_never_negative as (H1 & H2 & _).
  split.
  - destruct (H1 [2; 1; 0] [1; 1; 1]%nat) as (c' & Hc' & _).
    + repeat constructor; lia.
    + repeat constructor; simpl; lia.
    + reflexivity.
  - apply (H2 [2; 0; 0] 1%nat). reflexivity.
Defined.

End CongestionFacts.

(** ** The replanner *)
Module ReplannerFacts.
Import Replanner.

Section SearchFacts.
Context {FO : FloatOps}.

(** *** The queue *)
Lemma pop_min_elem (l : list (F * nat)) : forall x m r,
  pop_min x l = (m, r) ->
  m ∈ x :: l /\ (forall e, e ∈ r -> e ∈ x :: l) /\ length r = length l.
Proof.
  induction l as [|y l IH]; intros x m r H; simpl in H.
  - inversion H; subst. split; [left|]. split; [intros e He; inversion He|reflexivity].
  - destruct (pop_min y l) as [m' r'] eqn:E.
    destruct (IH _ _ _ E) as (Hm & Hr & Hlen).
    destruct (entry_lt m' x); inversion H; subst; clear H.
    + split; [right; exact Hm|]. split; [|simpl; congruence].
      intros e He. apply elem_of_cons in He as [-> | He]; [left|right; auto].
    + split; [left|]. split; [|reflexivity]. intros e He. right. exact He.
Qed.

Lemma heappop_elem (q : list (F * nat)) m r :
  heappop q = Some (m, r) ->
  m ∈ q /\ (forall e, e ∈ r -> e ∈ q) /\ length q = S (length r).
Proof.
  destruct q as [|x l]; simpl; [discriminate|].
  intros H. inversion H as [E]. destruct (pop_min_elem l x m r E) as (A & B & C).
  split; [exact A|]. split; [exact B|]. simpl. congruence.
Qed.

(** *** The denominator *)
Lemma fold_max_spec (cs : list Z) : forall c,
  c <= fold_left Z.max cs c /\
  Forall (fun x => x <= fold_left Z.max cs c) cs /\
  (fold_left Z.max cs c = c \/ fold_left Z.max cs c ∈ cs).
Proof.
  induction cs as [|x cs IH]; intros c; simpl.
  - split; [lia|]. split; [constructor|left; reflexivity].
  - destruct (IH (Z.max c x)) as (A & B & C).
    set (m := fold_left Z.max cs (Z.max c x)) in *. clearbody m.
    split; [lia|]. split.
    + constructor; [lia|exact B].
    + destruct C as [C | C]; [|right; right; exact C].
      destruct (Z.max_spec c x) as [[_ E] | [_ E]]; rewrite E in C.
      * right. rewrite C. left.
      * left. exact C.
Qed.

(** [max_count] is [max(1, max(counts))]: at least 1, at least every count,
    and either 1 or one of the counts. *)
Lemma max_count_spec counts maxc :
  max_count counts = Ret maxc ->
  1 <= maxc /\ Forall (fun c => c <= maxc) counts /\ (maxc = 1 \/ maxc ∈ counts).
Proof.
  destruct counts as [|c cs]; simpl; [discriminate|].
  intros H. inversion H as [E]. clear H.
  destruct (fold_max_spec cs c) as (A & B & C).
  set (m := fold_left Z.max cs c) in *. clearbody m.
  split; [lia|]. split.
  - constructor; [lia|]. eapply Forall_impl; [exact B|]. simpl. intros; lia.
  - destruct (Z.max_spec 1 m) as [[_ ->] | [_ ->]]; [|left; reflexivity].
    right. destruct C as [-> | C]; [left|right; exact C].
Qed.

(** *** The invariant of the search *)
Section Invariant.
Variables (adj : gmap nat (list (nat * F))) (counts : list Z) (alpha beta : F)
          (maxc : Z) (start N : nat).

Local Abbreviation inv := (invariant adj counts alpha beta maxc start N).

Lemma reached_insert prev v u x :
  (v < length prev)%nat -> reached start prev x -> reached start (<[v := Some u]> prev) x.
Proof.
  intros Hv [-> | [p Hp]]; [left; reflexivity|].
  right. destruct (decide (v = x)) as [-> | Hne].
  - exists u. apply list_lookup_insert_eq. exact Hv.
  - exists p. rewrite list_lookup_insert_ne by exact Hne. exact Hp.
Qed.

Lemma init_invariant st : init N start = Ret st -> inv st.
Proof.
  unfold init. destruct (Nat.ltb_spec start N) as [Hlt|]; [|discriminate].
  intros H. inversion H; subst; clear H. constructor; simpl.
  - rewrite length_insert. apply length_replicate.
  - apply length_replicate.
  - intros v d Hv. destruct (decide (start = v)) as [-> | Hne].
    + rewrite list_lookup_insert_eq in Hv by (rewrite length_replicate; exact Hlt).
      inversion Hv; subst. right. constructor.
    + rewrite list_lookup_insert_ne in Hv by exact Hne.
      apply lookup_replicate in Hv as [-> _]. left. reflexivity.
  - intros d u Hu. apply list_elem_of_singleton in Hu. inversion Hu; subst. constructor.
  - intros v u Hv. apply lookup_replicate in Hv as [Hv _]. discriminate.
  - intros v u Hv. apply lookup_replicate in Hv as [Hv _]. discriminate.
  - intros v d Hv Hd. destruct (decide (start = v)) as [E | Hne]; [left; symmetry; exact E|].
    rewrite list_lookup_insert_ne in Hv by exact Hne.
    apply lookup_replicate in Hv as [-> _]. contradiction.
  - intros d u Hu. apply list_elem_of_singleton in Hu. inversion Hu; subst. left. reflexivity.
Qed.

Lemma relax_invariant d u st e st' :
  inv st ->
  walk_cost adj counts alpha beta maxc start u d ->
  reached start (prev st) u ->
  e ∈ neighbours adj u ->
  relax counts alpha beta maxc d u st e = Ret st' ->
  inv st' /\ reached start (prev st') u.
Proof.
  intros Hinv Hw Hu He H. destruct e as [v w]. unfold relax in H.
  destruct (counts !! u) as [cu|] eqn:Ecu; simpl in H; [|discriminate].
  destruct (counts !! v) as [cv|] eqn:Ecv; simpl in H; [|discriminate].
  destruct (dist st !! v) as [dv|] eqn:Edv; simpl in H; [|discriminate].
  destruct (flt _ dv); inversion H; subst; clear H; [|split; assumption].
  destruct Hinv as [L1 L2 I1 I2 I3 I4 I5 I6].
  assert (Hv : (v < length (prev st))%nat).
  { rewrite L2, <- L1. eapply lookup_lt_Some. exact Edv. }
  assert (Hv' : (v < length (dist st))%nat) by (eapply lookup_lt_Some; exact Edv).
  assert (Hnew : walk_cost adj counts alpha beta maxc start v
                   (step_cost_from d alpha beta maxc cu cv w)).
  { eapply walk_step; eassumption. }
  split; [|apply reached_insert; assumption].
  constructor; simpl.
  - rewrite length_insert. exact L1.
  - rewrite length_insert. exact L2.
  - intros x dx Hx. destruct (decide (v = x)) as [-> | Hne].
    + rewrite list_lookup_insert_eq in Hx by exact Hv'. inversion Hx; subst.
      right. exact Hnew.
    + rewrite list_lookup_insert_ne in Hx by exact Hne. eauto.
  - intros dx x Hx. unfold heappush in Hx. apply elem_of_app in Hx as [Hx | Hx]; [eauto|].
    apply list_elem_of_singleton in Hx. inversion Hx; subst. exact Hnew.
  - intros x p Hx. destruct (decide (v = x)) as [-> | Hne].
    + rewrite list_lookup_insert_eq in Hx by exact Hv. inversion Hx; subst.
      exists w. exact He.
    + rewrite list_lookup_insert_ne in Hx by exact Hne. eauto.
  - intros x p Hx. apply reached_insert; [exact Hv|].
    destruct (decide (v = x)) as [-> | Hne].
    + rewrite list_lookup_insert_eq in Hx by exact Hv. inversion Hx; subst. exact Hu.
    + rewrite list_lookup_insert_ne in Hx by exact Hne. eauto.
  - intros x dx Hx Hd. destruct (decide (v = x)) as [-> | Hne].
    + right. exists u. apply list_lookup_insert_eq. exact Hv.
    + rewrite list_lookup_insert_ne in Hx by exact Hne.
      apply reached_insert; [exact Hv|]. eauto.
  - intros dx x Hx. unfold heappush in Hx. apply elem_of_app in Hx as [Hx | Hx].
    + apply reached_insert; [exact Hv|]. eauto.
    + apply list_elem_of_singleton in Hx. inversion Hx; subst.
      right. exists u. apply list_lookup_insert_eq. exact Hv.
Qed.

Lemma relax_all_invariant d u es : forall st st',
  inv st ->
  walk_cost adj counts alpha beta maxc start u d ->
  reached start (prev st) u ->
  (forall e, e ∈ es -> e ∈ neighbours adj u) ->
  relax_all counts alpha beta maxc d u es st = Ret st' ->
  inv st'.
Proof.
  induction es as [|e es IH]; intros st st' Hinv Hw Hu Hes H; simpl in H.
  - inversion H; subst. exact Hinv.
  - destruct (relax counts alpha beta maxc d u st e) as [st1| |] eqn:E;
      simpl in H; try discriminate.
    destruct (relax_invariant d u st e st1 Hinv Hw Hu) as [Hinv1 Hu1]; auto.
    { apply Hes. left. }
    eapply IH; eauto. intros e' He'. apply Hes. right. exact He'.
Qed.

Lemma search_invariant target fuel : forall st st',
  inv st ->
  search fuel adj counts target alpha beta maxc st = Ret st' ->
  inv st'.
Proof.
  induction fuel as [|fuel IH]; intros st st' Hinv H; simpl in H; [discriminate|].
  destruct (heappop (pq st)) as [[[d u] rest]|] eqn:Epop;
    [|inversion H; subst; exact Hinv].
  destruct (heappop_elem _ _ _ Epop) as (Hin & Hrest & _).
  assert (Hinv0 : inv (DState (dist st) (prev st) rest)).
  { destruct Hinv as [L1 L2 I1 I2 I3 I4 I5 I6]. constructor; simpl; eauto. }
  assert (Hw : walk_cost adj counts alpha beta maxc start u d).
  { apply (inv_queue_cost _ _ _ _ _ _ _ _ Hinv). exact Hin. }
  assert (Hu : reached start (prev st) u).
  { apply (inv_queue _ _ _ _ _ _ _ _ Hinv d). exact Hin. }
  simpl in H. destruct (dist st !! u) as [du|] eqn:Edu; simpl in H; [|discriminate].
  destruct (negb (feq d du)); [eapply IH; eauto|].
  destruct (u =? target)%nat; [inversion H; subst; exact Hinv0|].
  destruct (relax_all _ _ _ _ _ _ _ _) as [st1| |] eqn:E; simpl in H; try discriminate.
  eapply IH; [|exact H].
  eapply relax_all_invariant; eauto.
Qed.

End Invariant.

Lemma dijkstra_arrays_invariant fuel adj N counts start target alpha beta dist' prev' :
  dijkstra_arrays fuel adj N counts start target alpha beta = Ret (dist', prev') ->
  exists maxc st,
    max_count counts = Ret maxc /\
    invariant adj counts alpha beta maxc start N st /\
    dist st = dist' /\ prev st = prev'.
Proof.
  unfold dijkstra_arrays. intros H.
  destruct (init N start) as [st0| |] eqn:E0; simpl in H; try discriminate.
  destruct (max_count counts) as [maxc| |] eqn:Em; simpl in H; try discriminate.
  destruct (search fuel adj counts target alpha beta maxc st0) as [st| |] eqn:Es;
    simpl in H; try discriminate.
  inversion H; subst; clear H.
  exists maxc, st. split; [reflexivity|]. split; [|split; reflexivity].
  eapply search_invariant; [|exact Es].
  apply init_invariant. exact E0.
Qed.

(** *** The reconstruction *)
Lemma reconstruct_chain prev start fuel : forall u acc route,
  (forall v p, prev !! v = Some (Some p) -> reached start prev p) ->
  reached start prev u ->
  reconstruct fuel prev start (Some u) acc = Ret route ->
  exists l, route = acc ++ l /\ chain prev start u l.
Proof.
  induction fuel as [|fuel IH]; intros u acc route Hback Hu H; simpl in H; [discriminate|].
  destruct (Nat.eqb_spec u start) as [-> | Hne].
  - inversion H; subst. exists [start]. split; [reflexivity|constructor].
  - destruct Hu as [-> | [p Hp]]; [contradiction|].
    rewrite Hp in H. simpl in H.
    destruct (IH p (acc ++ [u]) route Hback (Hback _ _ Hp) H) as (l & -> & Hl).
    exists (u :: l). split.
    + rewrite <- app_assoc. reflexivity.
    + econstructor; eassumption.
Qed.

Lemma edges_along_snoc (adj : gmap nat (list (nat * F))) (r : list nat) (u : nat) :
  edges_along adj r ->
  (forall a, last r = Some a -> exists w, (u, w) ∈ neighbours adj a) ->
  edges_along adj (r ++ [u]).
Proof.
  induction r as [|a r IH]; intros Hr Hl; simpl; [exact I|].
  destruct r as [|b r]; simpl in *.
  - split; [apply Hl; reflexivity|exact I].
  - destruct Hr as [Hab Hr]. split; [exact Hab|].
    apply IH; [exact Hr|]. exact Hl.
Qed.

Lemma chain_shape (adj : gmap nat (list (nat * F))) prev start u l :
  (forall v p, prev !! v = Some (Some p) -> exists w, (v, w) ∈ neighbours adj p) ->
  chain prev start u l ->
  head l = Some u /\ last l = Some start /\ edges_along adj (reverse l).
Proof.
  intros Hedge Hc. induction Hc as [|u p l Hne Hp Hc (Hh & Hl & He)].
  - repeat split.
  - split; [reflexivity|]. split.
    + destruct l; [discriminate|]. exact Hl.
    + rewrite reverse_cons. apply edges_along_snoc; [exact He|].
      intros a Ha. rewrite last_reverse, Hh in Ha. inversion Ha; subst.
      eapply Hedge. exact Hp.
Qed.

(** C9: a route the solve returns is not empty, starts at the start junction,
    ends at the target, and joins consecutive junctions by edges of the
    graph; from a junction to itself it is the one-junction route. *)
Theorem C9_route_shape {A} fuel adj (nodes : list A) counts start target alpha beta route :
  isinf inf = true ->
  dijkstra_weighted fuel adj nodes counts start target alpha beta = Ret (Some route) ->
  route <> [] /\ head route = Some start /\ last route = Some target /\
  edges_along adj route /\ (start = target -> route = [start]).
Proof.
  intros Hinf H. unfold dijkstra_weighted in H.
  destruct (dijkstra_arrays _ _ _ _ _ _ _ _) as [[dist' prev']| |] eqn:Ea;
    simpl in H; try discriminate.
  destruct (dijkstra_arrays_invariant _ _ _ _ _ _ _ _ _ _ Ea)
    as (maxc & st & _ & Hinv & <- & <-).
  destruct (dist st !! target) as [dt|] eqn:Edt; simpl in H; [|discriminate].
  destruct (isinf dt) eqn:Ei; [discriminate|].
  destruct (reconstruct fuel (prev st) start (Some target) []) as [l| |] eqn:Er;
    simpl in H; try discriminate.
  inversion H; subst; clear H.
  assert (Hdt : dt <> inf) by (intros ->; congruence).
  destruct (reconstruct_chain _ _ _ _ _ _ (inv_back _ _ _ _ _ _ _ _ Hinv)
              (inv_finite _ _ _ _ _ _ _ _ Hinv _ _ Edt Hdt) Er) as (l' & -> & Hc).
  simpl in *.
  destruct (chain_shape adj _ _ _ _ (inv_edge _ _ _ _ _ _ _ _ Hinv) Hc) as (Hh & Hl & He).
  split; [|split; [|split; [|split]]].
  - destruct l'; [discriminate|]. rewrite reverse_cons.
    intros E. apply app_eq_nil in E as [_ E]. discriminate.
  - rewrite head_reverse. exact Hl.
  - rewrite last_reverse. exact Hh.
  - exact He.
  - intros ->. inversion Hc; subst; [reflexivity|contradiction].
Qed.


(** C1: every distance the search computes is the cost accumulated along a
    walk from the start, each edge (u,v) of weight w adding
    alpha*w + beta*((counts[u]+counts[v])/2)/maxc, where maxc is the one value
    max(1, max(counts)) read from the snapshot before the loop; alpha and beta
    default to 1.0 and 2.0. *)
Theorem C1_step_cost fuel adj N counts start target alpha beta dist' prev' :
  dijkstra_arrays fuel adj N counts start target alpha beta = Ret (dist', prev') ->
  (exists maxc,
     max_count counts = Ret maxc /\
     1 <= maxc /\ Forall (fun c => c <= maxc) counts /\ (maxc = 1 \/ maxc ∈ counts) /\
     forall v d, dist' !! v = Some d ->
       d = inf \/ walk_cost adj counts alpha beta maxc start v d) /\
  default_alpha = of_int 1 /\ default_beta = of_int 2.
Proof.
  intros H. split; [|split; reflexivity].
  destruct (dijkstra_arrays_invariant _ _ _ _ _ _ _ _ _ _ H)
    as (maxc & st & Hm & Hinv & <- & <-).
  exists maxc. split; [exact Hm|].
  destruct (max_count_spec _ _ Hm) as (A & B & C).
  repeat (split; [assumption|]).
  exact (inv_cost _ _ _ _ _ _ _ _ Hinv).
Qed.

Lemma failure_iff_infinite {A} fuel adj (nodes : list A) counts start target alpha beta
    dist' prev' dt :
  dijkstra_arrays fuel adj (length nodes) counts start target alpha beta
    = Ret (dist', prev') ->
  dist' !! target = Some dt ->
  (dijkstra_weighted fuel adj nodes counts start target alpha beta = Ret None
   <-> isinf dt = true).
Proof.
  intros Ha Hd. unfold dijkstra_weighted. rewrite Ha. simpl. rewrite Hd. simpl.
  destruct (isinf dt); split; intros H; try reflexivity; try discriminate.
  destruct (reconstruct fuel prev' start (Some target) []); simpl in H; discriminate.
Qed.

End SearchFacts.

(** *** Termination *)
Section Termination.
Context `{FOrd : FloatOrder}.

Lemma flt_asym x y : flt x y = true -> flt y x = false.
Proof.
  intros H. destruct (flt y x) eqn:E; [|reflexivity].
  pose proof (flt_trans _ _ _ H E) as C. rewrite flt_irrefl in C. discriminate.
Qed.

Lemma pop_min_perm (l : list (F * nat)) : forall x m r,
  pop_min x l = (m, r) -> x :: l ≡ₚ m :: r.
Proof.
  induction l as [|y l IH]; intros x m r H; simpl in H.
  - inversion H; subst. reflexivity.
  - destruct (pop_min y l) as [m' r'] eqn:E.
    pose proof (IH _ _ _ E) as Hp.
    destruct (entry_lt m' x); inversion H; subst; clear H.
    + rewrite Hp. apply perm_swap.
    + reflexivity.
Qed.

(** The entry [heappop] returns has a least key. *)
Lemma pop_min_least (l : list (F * nat)) : forall x m r,
  pop_min x l = (m, r) -> forall e, e ∈ r -> flt (fst e) (fst m) = false.
Proof.
  induction l as [|y l IH]; intros x m r H e He; simpl in H.
  - inversion H; subst. inversion He.
  - destruct (pop_min y l) as [m' r'] eqn:E.
    pose proof (IH _ _ _ E) as Hr.
    destruct (pop_min_elem l y m' r' E) as (Hm' & Hsub & _).
    unfold entry_lt in H.
    destruct (feq (fst m') (fst x)) eqn:Eq.
    + destruct (feq_fle _ _ Eq) as [H1 H2].
      destruct (snd m' <? snd x)%nat; inversion H; subst; clear H.
      * apply elem_of_cons in He as [-> | He]; [exact H2|auto].
      * (* x is least; e ranges over y :: l *)
        assert (He' : e = m' \/ e ∈ r').
        { rewrite (pop_min_perm l y m' r' E) in He. apply elem_of_cons in He. exact He. }
        destruct He' as [-> | He']; [exact H1|].
        eapply fle_trans; [|apply Hr; exact He']. exact H1.
    + destruct (flt (fst m') (fst x)) eqn:El; inversion H; subst; clear H.
      * apply elem_of_cons in He as [-> | He]; [apply flt_asym; exact El|auto].
      * assert (He' : e = m' \/ e ∈ r').
        { rewrite (pop_min_perm l y m' r' E) in He. apply elem_of_cons in He. exact He. }
        destruct He' as [-> | He']; [exact El|].
        eapply fle_trans; [|apply Hr; exact He']. exact El.
Qed.

Lemma unexpanded_degree_seq (adj : gmap nat (list (nat * F))) (X : gset nat) u len :
  forall a, u ∉ X ->
  (sum_list_with (fun x => if decide (x ∈ X ∪ {[u]}) then 0 else degree adj x) (seq a len)
   + (if decide (a <= u < a + len) then degree adj u else 0)
   = sum_list_with (fun x => if decide (x ∈ X) then 0 else degree adj x) (seq a len))%nat.
Proof.
  induction len as [|len IH]; intros a Hu; simpl.
  - destruct (decide _); [lia|reflexivity].
  - specialize (IH (S a) Hu).
    destruct (decide (a = u)) as [-> | Hne].
    + rewrite decide_True by set_solver.
      rewrite (decide_False (P := u ∈ X)) by exact Hu.
      rewrite decide_True by lia. rewrite decide_False in IH by lia. lia.
    + destruct (decide (a ∈ X)) as [Ha | Ha].
      * rewrite decide_True by set_solver.
        destruct (decide (a <= u < a + S len)%nat);
          [rewrite decide_True in IH by lia|rewrite decide_False in IH by lia]; lia.
      * rewrite decide_False by set_solver.
        destruct (decide (a <= u < a + S len)%nat);
          [rewrite decide_True in IH by lia|rewrite decide_False in IH by lia]; lia.
Qed.

Lemma unexpanded_degree_insert (adj : gmap nat (list (nat * F))) N (X : gset nat) u :
  u ∉ X -> (u < N)%nat ->
  (unexpanded_degree adj N (X ∪ {[u]}) + degree adj u = unexpanded_degree adj N X)%nat.
Proof.
  intros Hu Hlt. unfold unexpanded_degree.
  rewrite <- (unexpanded_degree_seq adj X u N 0 Hu).
  rewrite decide_True by lia. reflexivity.
Qed.

Lemma chain_insert_outside prev start (X : gset nat) v p u l :
  chain prev start u l -> Forall (fun x => x ∈ X) l -> v ∉ X ->
  chain (<[v := Some p]> prev) start u l.
Proof.
  intros Hc. induction Hc as [|u q l Hne Hq Hc IH]; intros HS Hv.
  - constructor.
  - inversion HS as [|? ? Hu Hl]; subst.
    econstructor; [exact Hne| |apply IH; assumption].
    rewrite list_lookup_insert_ne; [exact Hq|]. intros ->. contradiction.
Qed.

Lemma Forall_expanded_weaken (X X' : gset nat) (l : list nat) :
  X ⊆ X' -> Forall (fun x => x ∈ X) l -> Forall (fun x => x ∈ X') l.
Proof. intros Hsub H. eapply Forall_impl; [exact H|]. intros x Hx. apply Hsub. exact Hx. Qed.


Section Solve.
Variables (adj : gmap nat (list (nat * F))) (counts : list Z) (alpha beta : F)
          (maxc : Z) (start N : nat).
Hypothesis Hwf : graph_wf adj N.
Hypothesis Hnn : nonneg_costs adj counts alpha beta maxc.
Hypothesis Hcounts : (N <= length counts)%nat.

Local Abbreviation inv := (invariant adj counts alpha beta maxc start N).
Local Abbreviation settled' := (settled counts alpha beta maxc start N).

(** One edge out of an expanded junction. *)
Lemma relax_settled (X : gset nat) d u R st e :
  u ∈ X -> inv st -> settled' X d R st ->
  walk_cost adj counts alpha beta maxc start u d ->
  reached start (prev st) u ->
  dist st !! u = Some d ->
  e ∈ neighbours adj u ->
  exists st',
    relax counts alpha beta maxc d u st e = Ret st' /\
    settled' X d (fun u' e' => R u' e' \/ (u' = u /\ e' = e)) st' /\
    inv st' /\ reached start (prev st') u /\ dist st' !! u = Some d /\
    (length (pq st') <= S (length (pq st)))%nat /\
    (R u e -> st' = st).
Proof.
  intros HuX Hinv Hset Hw Hreach Hdu He. destruct e as [v w].
  pose proof (Hwf _ _ _ He) as HvN.
  pose proof (t_sub _ _ _ _ _ _ _ _ _ _ Hset u HuX) as HuN.
  destruct (lookup_lt_is_Some_2 counts u ltac:(lia)) as [cu Hcu].
  destruct (lookup_lt_is_Some_2 counts v ltac:(lia)) as [cv Hcv].
  pose proof (inv_len_dist _ _ _ _ _ _ _ _ Hinv) as Ld.
  pose proof (inv_len_prev _ _ _ _ _ _ _ _ Hinv) as Lp.
  destruct (lookup_lt_is_Some_2 (dist st) v ltac:(lia)) as [dv Hdv].
  set (nd := step_cost_from d alpha beta maxc cu cv w).
  assert (Hnd : flt nd d = false) by (eapply Hnn; eassumption).
  assert (Hrel : relax counts alpha beta maxc d u st (v, w) =
                 if flt nd dv then
                   Ret (DState (<[v := nd]> (dist st)) (<[v := Some u]> (prev st))
                               (heappush (pq st) (nd, v)))
                 else Ret st).
  { unfold relax. rewrite Hcu. simpl. rewrite Hcv. simpl. rewrite Hdv. reflexivity. }
  destruct (flt nd dv) eqn:Elt.
  - (* the distance of v drops *)
    eexists. split; [exact Hrel|].
    assert (HvX : v ∉ X).
    { intros HvX. pose proof (t_done _ _ _ _ _ _ _ _ _ _ Hset v dv HvX Hdv) as H1.
      pose proof (fle_trans dv d nd H1 Hnd) as H2. congruence. }
    assert (Huv : u <> v) by (intros ->; contradiction).
    assert (HnotR : ~ R u (v, w)).
    { intros HR. destruct (t_relaxed _ _ _ _ _ _ _ _ _ _ Hset _ _ HR) as [_ Hr].
      specialize (Hr d cu cv dv Hdu Hcu Hcv Hdv). simpl in Hr. fold nd in Hr. congruence. }
    destruct (relax_invariant adj counts alpha beta maxc start N d u st (v, w) _
                Hinv Hw Hreach He Hrel) as [Hinv' Hreach'].
    split; [|split; [exact Hinv'|split; [exact Hreach'|split; [|split]]]].
    + constructor; simpl.
      * intros k x Hx. unfold heappush in Hx. apply elem_of_app in Hx as [Hx | Hx].
        -- eapply t_keys; eassumption.
        -- apply list_elem_of_singleton in Hx. inversion Hx; subst. auto.
      * intros u' du' Hu' Hl. rewrite list_lookup_insert_ne in Hl by (intros ->; contradiction).
        eapply t_done; eassumption.
      * intros u' e' [HR | [-> ->]].
        -- destruct (t_relaxed _ _ _ _ _ _ _ _ _ _ Hset _ _ HR) as [Hu' Hr].
           split; [exact Hu'|].
           intros du' cu' cv' dv' H1 H2 H3 H4.
           rewrite list_lookup_insert_ne in H1 by (intros ->; contradiction).
           destruct (decide (v = fst e')) as [Hv | Hv].
           ++ rewrite <- Hv in H4, H3.
              rewrite list_lookup_insert_eq in H4 by lia. inversion H4; subst dv'.
              specialize (Hr du' cu' cv' dv H1 H2). rewrite <- Hv in Hr.
              specialize (Hr H3 Hdv).
              eapply fle_trans; [|exact Hr]. apply flt_asym. exact Elt.
           ++ rewrite list_lookup_insert_ne in H4 by exact Hv.
              eapply Hr; eassumption.
        -- split; [exact HuX|].
           intros du' cu' cv' dv' H1 H2 H3 H4. simpl in *.
           rewrite list_lookup_insert_ne in H1 by (intros E; apply Huv; symmetry; exact E).
           rewrite list_lookup_insert_eq in H4 by lia.
           assert (du' = d) by congruence. assert (cu' = cu) by congruence.
           assert (cv' = cv) by congruence. subst. inversion H4; subst.
           apply flt_irrefl.
      * intros k x dx Hx Hl. unfold heappush in Hx. apply elem_of_app in Hx as [Hx | Hx].
        -- destruct (decide (v = x)) as [<- | Hne].
           ++ rewrite list_lookup_insert_eq in Hl by lia. inversion Hl; subst dx.
              right. destruct (t_entry _ _ _ _ _ _ _ _ _ _ Hset _ _ _ Hx Hdv) as [-> | Hk].
              ** exact Elt.
              ** eapply flt_trans; eassumption.
           ++ rewrite list_lookup_insert_ne in Hl by exact Hne.
              eapply t_entry; eassumption.
        -- apply list_elem_of_singleton in Hx. inversion Hx; subst.
           rewrite list_lookup_insert_eq in Hl by lia. inversion Hl; subst. left. reflexivity.
      * eapply t_sub; eassumption.
      * intros x p Hx. destruct (decide (v = x)) as [<- | Hne].
        -- rewrite list_lookup_insert_eq in Hx by lia. inversion Hx; subst. exact HuX.
        -- rewrite list_lookup_insert_ne in Hx by exact Hne. eapply t_pred; eassumption.
      * intros x Hx. destruct (t_chain _ _ _ _ _ _ _ _ _ _ Hset x Hx) as (l & Hc & HF & Hlen).
        exists l. split; [|split; assumption].
        eapply chain_insert_outside; eassumption.
    + simpl. rewrite list_lookup_insert_ne by (intros E; apply Huv; symmetry; exact E). exact Hdu.
    + simpl. unfold heappush. rewrite length_app. simpl. lia.
    + intros HR. contradiction.
  - (* nothing changes *)
    exists st. split; [exact Hrel|].
    split; [|split; [exact Hinv|split; [exact Hreach|split; [exact Hdu|split; [lia|reflexivity]]]]].
    destruct Hset as [T1 T2 T3 T4 T5 T6 T7]. constructor; auto.
    intros u' e' [HR | [-> ->]]; [auto|].
    split; [exact HuX|].
    intros du' cu' cv' dv' H1 H2 H3 H4. simpl in *.
    assert (du' = d) by congruence. assert (cu' = cu) by congruence.
    assert (cv' = cv) by congruence. assert (dv' = dv) by congruence. subst. exact Elt.
Qed.


Lemma settled_weaken (X : gset nat) d (R R' : nat -> nat * F -> Prop) st :
  (forall u e, R' u e -> R u e) -> settled' X d R st -> settled' X d R' st.
Proof.
  intros HR [T1 T2 T3 T4 T5 T6 T7]. constructor; auto.
Qed.

(** All the edges out of an expanded junction. *)
Lemma relax_all_settled (X : gset nat) d u es : forall R st,
  u ∈ X -> inv st -> settled' X d R st ->
  walk_cost adj counts alpha beta maxc start u d ->
  reached start (prev st) u ->
  dist st !! u = Some d ->
  (forall e, e ∈ es -> e ∈ neighbours adj u) ->
  exists st',
    relax_all counts alpha beta maxc d u es st = Ret st' /\
    settled' X d (fun u' e' => R u' e' \/ (u' = u /\ e' ∈ es)) st' /\
    inv st' /\
    (length (pq st') <= length (pq st) + length es)%nat /\
    ((forall e, e ∈ es -> R u e) -> st' = st).
Proof.
  induction es as [|e es IH]; intros R st HuX Hinv Hset Hw Hreach Hdu Hes; simpl.
  - exists st. split; [reflexivity|]. split; [|split; [exact Hinv|split; [lia|reflexivity]]].
    eapply settled_weaken; [|exact Hset].
    intros u' e' [H | [_ H]]; [exact H|inversion H].
  - destruct (relax_settled X d u R st e HuX Hinv Hset Hw Hreach Hdu)
      as (st1 & Hr & Hset1 & Hinv1 & Hreach1 & Hdu1 & Hlen1 & Hsame1).
    { apply Hes. left. }
    destruct (IH _ st1 HuX Hinv1 Hset1 Hw Hreach1 Hdu1)
      as (st' & Hr' & Hset' & Hinv' & Hlen' & Hsame').
    { intros e' He'. apply Hes. right. exact He'. }
    exists st'. rewrite Hr. simpl. split; [exact Hr'|].
    split; [|split; [exact Hinv'|split; [lia|]]].
    + eapply settled_weaken; [|exact Hset'].
      intros u' e' [H | [-> H]]; [left; left; exact H|].
      apply elem_of_cons in H as [-> | H]; [left; right; auto|right; auto].
    + intros Hall. rewrite Hsame'.
      * apply Hsame1. apply Hall. left.
      * intros e' He'. left. apply Hall. right. exact He'.
Qed.

Local Abbreviation out_of := (fun (X : gset nat) (u : nat) (e : nat * F) =>
                                u ∈ X /\ e ∈ neighbours adj u).

(** With non-negative costs the loop ends within the budget. *)
Lemma search_returns target fuel : forall st (X : gset nat) dlast,
  inv st -> settled' X dlast (out_of X) st ->
  (length (pq st) + unexpanded_degree adj N X < fuel)%nat ->
  exists st' (X' : gset nat) dl',
    search fuel adj counts target alpha beta maxc st = Ret st' /\
    inv st' /\ settled' X' dl' (out_of X') st'.
Proof.
  induction fuel as [|fuel IH]; intros st X dlast Hinv Hset Hfuel; [lia|].
  simpl. destruct (heappop (pq st)) as [[[d u] rest]|] eqn:Epop.
  2:{ exists st, X, dlast. auto. }
  destruct (heappop_elem _ _ _ Epop) as (Hin & Hrest & Hlen).
  assert (Hleast : forall e, e ∈ rest -> flt (fst e) d = false).
  { destruct (pq st) as [|x l]; [discriminate|]. simpl in Epop. inversion Epop as [Ep].
    intros e He. apply (pop_min_least l x (d, u) rest Ep e He). }
  destruct (t_keys _ _ _ _ _ _ _ _ _ _ Hset _ _ Hin) as [Hd HuN].
  set (st0 := DState (dist st) (prev st) rest).
  assert (Hinv0 : inv st0).
  { destruct Hinv as [L1 L2 I1 I2 I3 I4 I5 I6]. constructor; simpl; eauto. }
  assert (Hset0 : settled' X d (out_of X) st0).
  { destruct Hset as [T1 T2 T3 T4 T5 T6 T7]. constructor; simpl.
    - intros k x Hx. split; [apply (Hleast (k, x) Hx)|]. apply (T1 k x). auto.
    - intros u' du' Hu' Hl. eapply fle_trans; [|exact Hd]. eapply T2; eassumption.
    - exact T3.
    - intros k x dx Hx Hl. eapply T4; eauto.
    - exact T5.
    - exact T6.
    - exact T7. }
  assert (Hw : walk_cost adj counts alpha beta maxc start u d).
  { apply (inv_queue_cost _ _ _ _ _ _ _ _ Hinv). exact Hin. }
  assert (Hreach : reached start (prev st) u).
  { apply (inv_queue _ _ _ _ _ _ _ _ Hinv d). exact Hin. }
  pose proof (inv_len_dist _ _ _ _ _ _ _ _ Hinv) as Ld.
  destruct (lookup_lt_is_Some_2 (dist st) u ltac:(lia)) as [du Hdu].
  cbn [dist]. rewrite Hdu. simpl.
  destruct (feq d du) eqn:Efeq; simpl.
  2:{ apply (IH st0 X d Hinv0 Hset0). simpl. lia. }
  assert (Hdd : d = du).
  { destruct (t_entry _ _ _ _ _ _ _ _ _ _ Hset _ _ _ Hin Hdu) as [H | H]; [exact H|].
    destruct (feq_fle _ _ Efeq) as [_ H']. congruence. }
  subst du.
  destruct (u =? target)%nat; [exists st0, X, d; auto|].
  destruct (decide (u ∈ X)) as [HuX | HuX].
  - (* expanded before: nothing is pushed *)
    destruct (relax_all_settled X d u (neighbours adj u) _ st0 HuX Hinv0 Hset0 Hw Hreach Hdu)
      as (st1 & Hr & _ & _ & _ & Hsame); [auto|].
    rewrite Hr. simpl. rewrite Hsame by (intros e He; split; assumption).
    apply (IH st0 X d Hinv0 Hset0). simpl. lia.
  - (* first expansion *)
    set (X' := X ∪ {[u]}).
    assert (Hsize : size X' = S (size X)).
    { unfold X'. rewrite size_union by set_solver. rewrite size_singleton. lia. }
    assert (Hset1 : settled' X' d (out_of X) st0).
    { destruct Hset0 as [T1 T2 T3 T4 T5 T6 T7]. constructor; simpl.
      - exact T1.
      - intros u' du' Hu' Hl. apply elem_of_union in Hu' as [Hu' | Hu'].
        + eapply T2; eassumption.
        + apply elem_of_singleton in Hu'. subst u'.
          simpl in Hl. assert (du' = d) by congruence. subst. apply flt_irrefl.
      - intros u' e' HR. destruct (T3 _ _ HR) as [Hu' Hr]. split; [|exact Hr].
        apply elem_of_union. left. exact Hu'.
      - exact T4.
      - intros u' Hu'. apply elem_of_union in Hu' as [Hu' | Hu']; [auto|].
        apply elem_of_singleton in Hu'. subst. exact HuN.
      - intros v p Hp. apply elem_of_union. left. eapply T6. exact Hp.
      - intros u' Hu'. apply elem_of_union in Hu' as [Hu' | Hu'].
        + destruct (T7 _ Hu') as (l & Hc & HF & Hl). exists l. split; [exact Hc|].
          split; [|lia]. eapply Forall_expanded_weaken; [|exact HF]. set_solver.
        + apply elem_of_singleton in Hu'. subst u'.
          destruct (decide (u = start)) as [-> | Hne].
          * exists [start]. split; [constructor|]. split; [|simpl; lia].
            constructor; [|constructor]. set_solver.
          * destruct Hreach as [-> | [p Hp]]; [contradiction|].
            destruct (T7 p (T6 _ _ Hp)) as (l & Hc & HF & Hl).
            exists (u :: l). split; [econstructor; eassumption|].
            split; [|simpl; lia].
            constructor; [set_solver|].
            eapply Forall_expanded_weaken; [|exact HF]. set_solver. }
    assert (HuX' : u ∈ X') by set_solver.
    destruct (relax_all_settled X' d u (neighbours adj u) _ st0 HuX' Hinv0 Hset1 Hw Hreach Hdu)
      as (st1 & Hr & Hset2 & Hinv2 & Hlen2 & _); [auto|].
    rewrite Hr. simpl.
    apply (IH st1 X' d Hinv2).
    + eapply settled_weaken; [|exact Hset2].
      intros u' e' [Hu' He']. apply elem_of_union in Hu' as [Hu' | Hu'].
      * left. split; assumption.
      * apply elem_of_singleton in Hu'. subst. right. auto.
    + pose proof (unexpanded_degree_insert adj N X u HuX HuN) as Hm.
      fold X' in Hm. unfold degree in Hm. simpl in Hlen2. lia.
Qed.


Lemma init_settled st :
  init N start = Ret st -> settled' ∅ (of_int 0) (out_of ∅) st.
Proof.
  unfold init. destruct (Nat.ltb_spec start N) as [Hlt|]; [|discriminate].
  intros H. inversion H; subst; clear H. constructor; simpl.
  - intros k x Hx. apply list_elem_of_singleton in Hx. inversion Hx; subst.
    split; [apply flt_irrefl|exact Hlt].
  - intros u du Hu. set_solver.
  - intros u e [Hu _]. set_solver.
  - intros k x dx Hx Hl. apply list_elem_of_singleton in Hx. inversion Hx; subst.
    rewrite list_lookup_insert_eq in Hl by (rewrite length_replicate; exact Hlt).
    inversion Hl. left. reflexivity.
  - intros u Hu. set_solver.
  - intros v p Hp. apply lookup_replicate in Hp as [Hp _]. discriminate.
  - intros u Hu. set_solver.
Qed.

Lemma settled_size (X : gset nat) d R st : settled' X d R st -> (size X <= N)%nat.
Proof.
  intros Hset. rewrite <- (size_set_seq (C := gset nat) 0 N).
  apply subseteq_size. intros x Hx. apply elem_of_set_seq.
  pose proof (t_sub _ _ _ _ _ _ _ _ _ _ Hset x Hx). lia.
Qed.

End Solve.

(** The reconstruction follows a chain to its end. *)
Lemma reconstruct_of_chain prev start u l :
  chain prev start u l ->
  forall fuel acc, (length l <= fuel)%nat ->
  reconstruct fuel prev start (Some u) acc = Ret (acc ++ l).
Proof.
  intros Hc. induction Hc as [|u p l Hne Hp Hc IH]; intros fuel acc Hf.
  - destruct fuel; [simpl in Hf; lia|]. simpl. rewrite Nat.eqb_refl. reflexivity.
  - destruct fuel; [simpl in Hf; lia|]. simpl.
    destruct (Nat.eqb_spec u start); [contradiction|].
    rewrite Hp. simpl. rewrite IH by (simpl in Hf; lia).
    rewrite <- app_assoc. reflexivity.
Qed.

(** On a graph over [N] junctions, with a count for each of them and costs
    that are not negative, the search loop ends within the budget
    [enough_fuel] and returns its arrays. *)
Lemma dijkstra_arrays_returns fuel adj N counts start target alpha beta :
  (start < N)%nat -> (N <= length counts)%nat ->
  graph_wf adj N ->
  (forall maxc, max_count counts = Ret maxc -> nonneg_costs adj counts alpha beta maxc) ->
  (enough_fuel adj N <= fuel)%nat ->
  exists maxc st (X : gset nat) dl,
    dijkstra_arrays fuel adj N counts start target alpha beta = Ret (dist st, prev st) /\
    invariant adj counts alpha beta maxc start N st /\
    settled counts alpha beta maxc start N X dl
      (fun u e => u ∈ X /\ e ∈ neighbours adj u) st.
Proof.
  intros Hs Hc Hwf Hnn Hfuel. unfold dijkstra_arrays.
  destruct (init N start) as [st0| |] eqn:E0;
    try (unfold init in E0; destruct (Nat.ltb_spec start N); [discriminate|lia]).
  simpl.
  destruct (max_count counts) as [maxc| |] eqn:Em;
    try (destruct counts; [simpl in Hc; lia|discriminate]).
  simpl.
  pose proof (init_invariant adj counts alpha beta maxc start N st0 E0) as Hinv0.
  assert (Hnn' : nonneg_costs adj counts alpha beta maxc) by (apply Hnn; reflexivity).
  assert (Hset0 : settled counts alpha beta maxc start N ∅ (of_int 0)
                    (fun u e => u ∈ (∅ : gset nat) /\ e ∈ neighbours adj u) st0).
  { eapply init_settled; eassumption. }
  destruct (fun H => search_returns adj counts alpha beta maxc start N Hwf Hnn' Hc
              target fuel st0 ∅ (of_int 0) Hinv0 Hset0 H)
    as (st' & X' & dl' & Hsearch & Hinv' & Hset').
  { unfold init in E0. destruct (start <? N)%nat; [|discriminate].
    inversion E0; subst. simpl. unfold enough_fuel in Hfuel. lia. }
  rewrite Hsearch. simpl. exists maxc, st', X', dl'. auto.
Qed.

(** Under the same conditions the whole solve returns: [None] when the
    distance of the target is infinite, a route otherwise. *)
Theorem dijkstra_weighted_returns {A} fuel adj (nodes : list A) counts start target
    alpha beta :
  (start < length nodes)%nat -> (target < length nodes)%nat ->
  (length nodes <= length counts)%nat ->
  graph_wf adj (length nodes) ->
  (forall maxc, max_count counts = Ret maxc -> nonneg_costs adj counts alpha beta maxc) ->
  (enough_fuel adj (length nodes) <= fuel)%nat ->
  exists dist' prev' dt,
    dijkstra_arrays fuel adj (length nodes) counts start target alpha beta
      = Ret (dist', prev') /\
    dist' !! target = Some dt /\
    if isinf dt
    then dijkstra_weighted fuel adj nodes counts start target alpha beta = Ret None
    else exists route,
           dijkstra_weighted fuel adj nodes counts start target alpha beta
             = Ret (Some route).
Proof.
  intros Hs Ht Hc Hwf Hnn Hfuel. set (N := length nodes) in *.
  destruct (dijkstra_arrays_returns fuel adj N counts start target alpha beta
              Hs Hc Hwf Hnn Hfuel) as (maxc & st' & X' & dl' & Harr & Hinv' & Hset').
  pose proof (inv_len_dist _ _ _ _ _ _ _ _ Hinv') as Ld.
  pose proof (inv_len_prev _ _ _ _ _ _ _ _ Hinv') as Lp.
  destruct (lookup_lt_is_Some_2 (dist st') target ltac:(lia)) as [dt Hdt].
  exists (dist st'), (prev st'), dt. split; [exact Harr|]. split; [exact Hdt|].
  unfold dijkstra_weighted. fold N. rewrite Harr. simpl. rewrite Hdt. simpl.
  destruct (isinf dt); [reflexivity|].
  assert (Hrec : exists l, reconstruct fuel (prev st') start (Some target) [] = Ret l).
  { assert (Hf : (N + 1 <= fuel)%nat) by (unfold enough_fuel in Hfuel; lia).
    destruct fuel as [|fuel']; [lia|]. simpl.
    destruct (target =? start)%nat; [eauto|].
    destruct (lookup_lt_is_Some_2 (prev st') target ltac:(lia)) as [[p|] Hp];
      rewrite Hp; simpl.
    - pose proof (t_pred _ _ _ _ _ _ _ _ _ _ Hset' _ _ Hp) as HpX.
      destruct (t_chain _ _ _ _ _ _ _ _ _ _ Hset' p HpX) as (l & Hch & _ & Hl).
      assert (Hsz : (size X' <= N)%nat) by (eapply settled_size; eassumption).
      rewrite (reconstruct_of_chain _ _ _ _ Hch) by lia. eauto.
    - destruct fuel'; simpl; eauto. }
  destruct Hrec as [l Hl]. rewrite Hl. simpl. eauto.
Qed.

End Termination.

Section CheckFacts.
Context {FO : FloatOps}.
Lemma check_graph_spec (p : nat -> nat * F -> bool) (adj : gmap nat (list (nat * F))) u e :
  check_graph p adj = true -> e ∈ neighbours adj u -> p u e = true.
Proof.
  unfold check_graph, neighbours. intros H He.
  destruct (adj !! u) as [es|] eqn:E; simpl in He; [|inversion He].
  rewrite forallb_forall in H.
  assert (Hin : In (u, es) (map_to_list adj)).
  { apply list_elem_of_In. apply elem_of_map_to_list. exact E. }
  specialize (H (u, es) Hin). simpl in H.
  rewrite forallb_forall in H.
  apply H. apply list_elem_of_In. exact He.
Qed.
End CheckFacts.

End ReplannerFacts.

(** ** The runner *)
Module RunnerFacts.
Import Replanner Runner.

Section Loop.
Context {FO : FloatOps}.

(** *** Snapping *)
Lemma node_map_lookup (nodes : list (Z * Z)) pt i :
  node_map nodes !! pt = Some i -> nodes !! i = Some pt.
Proof.
  unfold node_map. revert pt i.
  induction nodes as [|x nodes IH] using rev_ind; intros pt i H.
  - simpl in H. rewrite lookup_empty in H. discriminate.
  - rewrite imap_app, fold_left_app in H. simpl in H.
    rewrite Nat.add_0_r in H.
    destruct (decide (x = pt)) as [-> | Hne].
    + rewrite lookup_insert_eq in H. inversion H; subst.
      rewrite lookup_app_r by lia. rewrite Nat.sub_diag. reflexivity.
    + rewrite lookup_insert_ne in H by exact Hne.
      apply IH in H. rewrite lookup_app_l; [exact H|].
      eapply lookup_lt_Some. exact H.
Qed.

Lemma scan_lookup (nodes : list (Z * Z)) pt i :
  snd (fold_left (scan_step pt) (imap pair nodes) (10 ^ 9, None)) = Some i ->
  is_Some (nodes !! i).
Proof.
  revert i. induction nodes as [|x nodes IH] using rev_ind; intros i H.
  - simpl in H. discriminate.
  - rewrite imap_app, fold_left_app in H. simpl in H.
    unfold scan_step at 1 in H. simpl in H.
    destruct (_ <? _).
    + simpl in H. inversion H; subst. rewrite Nat.add_0_r.
      rewrite lookup_app_r by lia. rewrite Nat.sub_diag. eauto.
    + destruct (IH _ H) as [p Hp]. exists p.
      rewrite lookup_app_l; [exact Hp|]. eapply lookup_lt_Some. exact Hp.
Qed.

Lemma find_nearest_lookup (nodes : list (Z * Z)) pt i :
  find_nearest_node_idx nodes pt = Some i -> is_Some (nodes !! i).
Proof.
  unfold find_nearest_node_idx.
  destruct (node_map nodes !! pt) as [j|] eqn:E.
  - intros H. inversion H; subst. apply node_map_lookup in E. eauto.
  - apply scan_lookup.
Qed.

(** *** The graph *)
Lemma neighbours_append_edge (adj : gmap nat (list (nat * F))) a b w u :
  neighbours (append_edge adj a b w) u =
    if decide (a = u) then neighbours adj a ++ [(b, w)] else neighbours adj u.
Proof.
  unfold append_edge, neighbours at 1. rewrite lookup_insert.
  destruct (decide (a = u)); reflexivity.
Qed.

Lemma add_polyline_ok nodes adj poly :
  edges_ok nodes adj -> edges_ok nodes (add_polyline nodes adj poly).
Proof.
  intros Hok. unfold add_polyline.
  destruct (_ <? _)%nat; [exact Hok|].
  destruct (head poly) as [p0|]; [|exact Hok].
  destruct (last poly) as [p1|]; [|exact Hok].
  destruct (find_nearest_node_idx nodes p0) as [a|]; [|exact Hok].
  destruct (find_nearest_node_idx nodes p1) as [b|]; [|exact Hok].
  destruct (Nat.eqb_spec a b) as [|Hab]; [exact Hok|].
  destruct (nodes !! a) as [pa|] eqn:Ea; [|exact Hok].
  destruct (nodes !! b) as [pb|] eqn:Eb; [|exact Hok].
  intros u v w H. rewrite !neighbours_append_edge in H.
  destruct (decide (b = u)) as [<- | Hbu].
  - destruct (decide (a = b)) as [|_]; [contradiction|].
    apply elem_of_app in H as [H | H]; [apply Hok; exact H|].
    apply list_elem_of_singleton in H. inversion H; subst.
    split; [congruence|]. exists pb, pa. auto.
  - destruct (decide (a = u)) as [<- | Hau]; [|apply Hok; exact H].
    apply elem_of_app in H as [H | H]; [apply Hok; exact H|].
    apply list_elem_of_singleton in H. inversion H; subst.
    split; [exact Hab|]. exists pa, pb. auto.
Qed.

Lemma build_graph_ok nodes polylines : edges_ok nodes (build_graph nodes polylines).
Proof.
  unfold build_graph.
  assert (H0 : edges_ok nodes (∅ : gmap nat (list (nat * F)))).
  { intros u v w H. unfold neighbours in H. rewrite lookup_empty in H. inversion H. }
  revert H0. generalize (∅ : gmap nat (list (nat * F))).
  induction polylines as [|poly polylines IH]; intros adj Hok; simpl; [exact Hok|].
  apply IH. apply add_polyline_ok. exact Hok.
Qed.

(** C6: in the graph [build_graph] returns, every edge joins two different
    junctions and weighs the Euclidean distance between their positions; a
    polyline of fewer than 2 points adds nothing, and neither does one whose
    two ends snap to the same junction. *)
Theorem C6_build_graph :
  (forall nodes polylines, edges_ok nodes (build_graph nodes polylines)) /\
  (forall nodes adj poly,
     (length poly < 2)%nat -> add_polyline nodes adj poly = adj) /\
  (forall nodes adj poly p0 p1 a,
     head poly = Some p0 -> last poly = Some p1 ->
     find_nearest_node_idx nodes p0 = Some a ->
     find_nearest_node_idx nodes p1 = Some a ->
     add_polyline nodes adj poly = adj).
Proof.
  split; [exact build_graph_ok|]. split.
  - intros nodes adj poly H. unfold add_polyline.
    destruct (Nat.ltb_spec (length poly) 2); [reflexivity|lia].
  - intros nodes adj poly p0 p1 a H0 H1 Ha Hb. unfold add_polyline.
    rewrite H0, H1, Ha, Hb, Nat.eqb_refl.
    destruct (_ <? _)%nat; reflexivity.
Qed.

(** *** Replanning *)
Lemma reconstruct_nonempty prev start fuel : forall u acc route,
  reconstruct fuel prev start (Some u) acc = Ret route -> route <> [].
Proof.
  induction fuel as [|fuel IH]; intros u acc route H; simpl in H; [discriminate|].
  destruct (u =? start)%nat.
  - inversion H as [E]. intros E'. rewrite E' in E. destruct acc; discriminate.
  - destruct (prev !! u) as [[p|]|]; simpl in H; try discriminate.
    + eapply IH. exact H.
    + destruct fuel; simpl in H; inversion H as [E]; intros E'; rewrite E' in E;
        destruct acc; discriminate.
Qed.

Lemma dijkstra_route_nonempty {A} fuel adj (nodes : list A) counts start target alpha beta route :
  dijkstra_weighted fuel adj nodes counts start target alpha beta = Ret (Some route) ->
  route <> [].
Proof.
  unfold dijkstra_weighted. intros H.
  destruct (dijkstra_arrays _ _ _ _ _ _ _ _) as [[d p]| |]; simpl in H; try discriminate.
  destruct (d !! target) as [dt|]; simpl in H; [|discriminate].
  destruct (isinf dt); [discriminate|].
  destruct (reconstruct _ _ _ _ _) as [l| |] eqn:E; simpl in H; try discriminate.
  inversion H; subst. apply reconstruct_nonempty in E.
  destruct l; [contradiction|]. rewrite reverse_cons.
  intros E'. apply app_eq_nil in E' as [_ E']. discriminate.
Qed.

(** C4: an ambulance that is not done replans exactly when the tick count is
    a multiple of the interval and its cursor is before the last index of
    its route; the solve then runs from its current junction to the target,
    a route it returns replaces the route of the ambulance and puts the
    cursor back to 0, and a failed solve leaves route and cursor as they
    were.  A done ambulance is skipped. *)
Theorem C4_replan fuel adj nodes counts target t a :
  (replan_due t a = true <->
     t mod REPLAN_INTERVAL = 0 /\ (pos_idx a < length (path a) - 1)%nat) /\
  (replan_due t a = false -> replan fuel adj nodes counts target t a = Ret a) /\
  (replan_due t a = true ->
     exists cur, path a !! pos_idx a = Some cur /\
       forall r,
         dijkstra_weighted fuel adj nodes counts cur target default_alpha default_beta = r ->
         match r with
         | Ret (Some route) =>
             replan fuel adj nodes counts target t a
               = Ret (Ambulance (start a) route 0 (done a))
         | Ret None => replan fuel adj nodes counts target t a = Ret a
         | Raise => replan fuel adj nodes counts target t a = Raise
         | Timeout => replan fuel adj nodes counts target t a = Timeout
         end) /\
  (done a = true ->
     forall ai frames,
       ambulance_step fuel adj nodes counts target t ai a frames = Ret (a, frames)).
Proof.
  assert (Hdue : replan_due t a = true <->
            t mod REPLAN_INTERVAL = 0 /\ (pos_idx a < length (path a) - 1)%nat).
  { unfold replan_due. rewrite andb_true_iff, Z.eqb_eq, Z.ltb_lt. split; intros [? ?]; split; auto; lia. }
  split; [exact Hdue|]. split; [|split].
  - intros H. unfold replan. rewrite H. reflexivity.
  - intros H. apply Hdue in H as H'. destruct H' as [_ Hlt].
    destruct (lookup_lt_is_Some_2 (path a) (pos_idx a) ltac:(lia)) as [cur Hcur].
    exists cur. split; [exact Hcur|].
    intros r Hr. unfold replan. rewrite H, Hcur. simpl. rewrite Hr.
    destruct r as [[route|]| |]; simpl; try reflexivity.
    pose proof (dijkstra_route_nonempty _ _ _ _ _ _ _ _ _ Hr) as Hne.
    destruct route; [contradiction|reflexivity].
  - intros Hd ai frames. unfold ambulance_step. rewrite Hd. reflexivity.
Qed.

(** *** Decrements of a tick *)

Lemma dec1_iter k c :
  Nat.iter k Congestion.dec1 c = if 0 <? c then Z.max 0 (c - Z.of_nat k) else c.
Proof.
  induction k as [|k IH].
  - simpl. destruct (Z.ltb_spec 0 c); lia.
  - rewrite Nat.iter_succ, IH. unfold Congestion.dec1.
    destruct (Z.ltb_spec 0 c).
    + destruct (Z.ltb_spec 0 (Z.max 0 (c - Z.of_nat k))); lia.
    + destruct (Z.ltb_spec 0 c); lia.
Qed.

Lemma decrement_on_pass_lookup counts idx counts' j :
  Congestion.decrement_on_pass counts idx = Some counts' ->
  counts' !! j = (if decide (idx = j) then Congestion.dec1 else id) <$> counts !! j.
Proof.
  unfold Congestion.decrement_on_pass. intros H.
  destruct (counts !! idx) as [c|] eqn:E; simpl in H; [|discriminate].
  destruct (decide (idx = j)) as [<- | Hne].
  - rewrite E. simpl. unfold Congestion.dec1. destruct (0 <? c); inversion H; subst.
    + apply list_lookup_insert_eq. eapply lookup_lt_Some. exact E.
    + assumption.
  - destruct (0 <? c); inversion H; subst.
    + rewrite list_lookup_insert_ne by exact Hne. destruct (_ !! j); reflexivity.
    + destruct (_ !! j); reflexivity.
Qed.

Lemma decrement_passed_spec ambs : forall counts counts',
  decrement_passed ambs counts = Ret counts' ->
  exists idxs,
    Forall2 (fun a j => passed_junction a = Some j) ambs idxs /\
    forall j, counts' !! j = Nat.iter (count_occ Nat.eq_dec idxs j) Congestion.dec1 <$> counts !! j.
Proof.
  induction ambs as [|a ambs IH]; intros counts counts' H; simpl in H.
  - inversion H; subst. exists []. split; [constructor|].
    intros j. simpl. destruct (_ !! j); reflexivity.
  - destruct (passed_junction a) as [idx|] eqn:Ep; simpl in H; [|discriminate].
    destruct (Congestion.decrement_on_pass counts idx) as [c1|] eqn:Ed; simpl in H; [|discriminate].
    destruct (IH _ _ H) as (idxs & HF & Hl).
    exists (idx :: idxs). split; [constructor; assumption|].
    intros j. rewrite Hl, (decrement_on_pass_lookup _ _ _ j Ed).
    simpl. destruct (Nat.eq_dec idx j) as [-> | Hne].
    + rewrite decide_True by reflexivity. destruct (counts !! j); simpl; [|reflexivity].
      rewrite <- Nat.iter_succ_r. reflexivity.
    + rewrite decide_False by exact Hne. destruct (counts !! j); reflexivity.
Qed.

(** *** Cursors *)
Lemma replan_cursor_ok fuel adj nodes counts target t a a' :
  cursor_ok a -> done a = false ->
  replan fuel adj nodes counts target t a = Ret a' ->
  cursor_ok a' /\ done a' = false.
Proof.
  intros Hok Hd H. unfold replan in H.
  destruct (replan_due t a); [|inversion H; subst; auto].
  destruct (path a !! pos_idx a) as [cur|]; simpl in H; [|discriminate].
  destruct (dijkstra_weighted _ _ _ _ _ _ _ _) as [[[|x l]|]| |]; simpl in H;
    inversion H; subst; auto.
  split; [|exact Hd]. split; simpl; [lia|]. rewrite Hd. discriminate.
Qed.

Lemma advance_cursor_ok a : cursor_ok a -> done a = false -> cursor_ok (advance a).
Proof.
  intros [Hlt _] Hd. unfold advance.
  destruct (Z.ltb_spec (Z.of_nat (pos_idx a)) (Z.of_nat (length (path a)) - 1));
    split; simpl; try lia.
  rewrite Hd. discriminate.
Qed.

Lemma ambulance_step_cursor_ok fuel adj nodes counts target t ai a frames a' frames' :
  cursor_ok a ->
  ambulance_step fuel adj nodes counts target t ai a frames = Ret (a', frames') ->
  cursor_ok a' /\ (done a = true -> a' = a).
Proof.
  intros Hok H. unfold ambulance_step in H.
  destruct (done a) eqn:Hd; [inversion H; subst; auto|].
  destruct (replan _ _ _ _ _ _ _) as [a1| |] eqn:Er; simpl in H; try discriminate.
  destruct (replan_cursor_ok _ _ _ _ _ _ _ _ Hok Hd Er) as [Hok1 Hd1].
  destruct (path (advance a1) !! pos_idx (advance a1)); simpl in H; [|discriminate].
  destruct (nodes !! n); simpl in H; [|discriminate].
  destruct (frames !! ai); simpl in H; [|discriminate].
  inversion H; subst. split; [|discriminate].
  apply advance_cursor_ok; assumption.
Qed.

Lemma step_all_spec fuel adj nodes counts target t ambs : forall ai frames ambs' frames',
  Forall cursor_ok ambs ->
  step_all fuel adj nodes counts target t ai ambs frames = Ret (ambs', frames') ->
  Forall cursor_ok ambs' /\
  Forall2 (fun a a' => done a = true -> a' = a) ambs ambs'.
Proof.
  induction ambs as [|a ambs IH]; intros ai frames ambs' frames' Hok H; simpl in H.
  - inversion H; subst. split; constructor.
  - inversion Hok as [|? ? Ha Hrest]; subst.
    destruct (ambulance_step _ _ _ _ _ _ _ _ _) as [[a1 f1]| |] eqn:Ea; simpl in H;
      try discriminate.
    destruct (step_all _ _ _ _ _ _ _ _ _) as [[r1 f2]| |] eqn:Er; simpl in H;
      try discriminate.
    inversion H; subst.
    destruct (ambulance_step_cursor_ok _ _ _ _ _ _ _ _ _ _ _ Ha Ea) as [Hok1 Hsame].
    destruct (IH _ _ _ _ Hrest Er) as [Hok2 Hsame2].
    split; constructor; assumption.
Qed.

(** A done ambulance stands on its last junction, so the junction it counts
    as passed is the one before the last (the only one of a one-junction
    route). *)
Lemma passed_junction_done a :
  cursor_ok a -> done a = true ->
  passed_junction a = path a !! (length (path a) - 2)%nat.
Proof.
  intros [_ Hpos] Hd. unfold passed_junction. rewrite (Hpos Hd). f_equal. lia.
Qed.

(** C10: in every tick each ambulance of the list, done or not, decrements
    the count of the junction [path[max(0, pos_idx-1)]] if it is positive: a
    count [c > 0] that [k] ambulances point at becomes [max(0, c - k)], and
    the counts no ambulance points at are unchanged.  A done ambulance is left
    as it is by the tick and points at the junction before the last of its
    route. *)
Theorem C10_decrement_every_ambulance fuel adj nodes target s s' :
  Forall cursor_ok (ambulances s) ->
  tick fuel adj nodes target s = Ret s' ->
  Forall cursor_ok (ambulances s') /\
  (forall i a, ambulances s !! i = Some a -> done a = true ->
     ambulances s' !! i = Some a /\
     passed_junction a = path a !! (length (path a) - 2)%nat) /\
  exists idxs,
    Forall2 (fun a j => passed_junction a = Some j) (ambulances s') idxs /\
    forall j,
      counts_vals s' !! j =
        (fun c => if 0 <? c then Z.max 0 (c - Z.of_nat (count_occ Nat.eq_dec idxs j)) else c)
          <$> counts_vals s !! j.
Proof.
  intros Hok H. unfold tick in H.
  destruct (step_all _ _ _ _ _ _ _ _ _) as [[ambs frames]| |] eqn:Es; simpl in H;
    try discriminate.
  destruct (decrement_passed ambs (counts_vals s)) as [counts| |] eqn:Ed; simpl in H;
    try discriminate.
  inversion H; subst; clear H. simpl.
  destruct (step_all_spec _ _ _ _ _ _ _ _ _ _ _ Hok Es) as [Hok' Hsame].
  split; [exact Hok'|]. split.
  - intros i a Hi Hd.
    destruct (Forall2_lookup_l _ _ _ _ _ Hsame Hi) as (a' & Hi' & Ha').
    rewrite (Ha' Hd) in Hi'. split; [exact Hi'|].
    apply passed_junction_done; [|exact Hd].
    eapply Forall_lookup_1; eassumption.
  - destruct (decrement_passed_spec _ _ _ Ed) as (idxs & HF & Hl).
    exists idxs. split; [exact HF|].
    intros j. rewrite Hl. destruct (counts_vals s !! j); simpl; [|reflexivity].
    rewrite dec1_iter. reflexivity.
Qed.

(** *** Spawning *)
(** C5: once the search has returned its arrays, the solve returns [None]
    exactly when the distance of the target is infinite; on a well-formed
    graph with costs that are not negative the search does return them,
    within the budget [enough_fuel]; and an ambulance spawned on such a
    failure gets the two-junction route [start, target]. *)
Theorem C5_unreachable :
  (forall A fuel adj (nodes : list A) counts start target alpha beta dist' prev' dt,
     dijkstra_arrays fuel adj (length nodes) counts start target alpha beta
       = Ret (dist', prev') ->
     dist' !! target = Some dt ->
     (dijkstra_weighted fuel adj nodes counts start target alpha beta = Ret None
      <-> isinf dt = true)) /\
  (forall (FOrd : FloatOrder) A fuel adj (nodes : list A) counts start target alpha beta,
     (start < length nodes)%nat -> (target < length nodes)%nat ->
     (length nodes <= length counts)%nat ->
     graph_wf adj (length nodes) ->
     (forall maxc, max_count counts = Ret maxc ->
                   nonneg_costs adj counts alpha beta maxc) ->
     (enough_fuel adj (length nodes) <= fuel)%nat ->
     exists dist' prev' dt,
       dijkstra_arrays fuel adj (length nodes) counts start target alpha beta
         = Ret (dist', prev') /\
       dist' !! target = Some dt /\
       (dijkstra_weighted fuel adj nodes counts start target alpha beta = Ret None
        <-> isinf dt = true)) /\
  (forall fuel adj nodes counts target si,
     dijkstra_weighted fuel adj nodes counts si target default_alpha default_beta
       = Ret None ->
     spawn fuel adj nodes counts target si = Ret (Ambulance si [si; target] 0 false)).
Proof.
  split; [|split].
  - intros A fuel adj nodes counts start target alpha beta dist' prev' dt Ha Hd.
    eapply ReplannerFacts.failure_iff_infinite; eassumption.
  - intros FOrd A fuel adj nodes counts start target alpha beta Hs Ht Hc Hwf Hnn Hfuel.
    destruct (ReplannerFacts.dijkstra_weighted_returns fuel adj nodes counts start target
                alpha beta Hs Ht Hc Hwf Hnn Hfuel) as (dist' & prev' & dt & Ha & Hd & _).
    exists dist', prev', dt. split; [exact Ha|]. split; [exact Hd|].
    eapply ReplannerFacts.failure_iff_infinite; eassumption.
  - intros fuel adj nodes counts target si H. unfold spawn. rewrite H. reflexivity.
Qed.

End Loop.
End RunnerFacts.

(** ** The end-to-end scenario, with exact arithmetic *)
Module ScenarioFacts.
Import Replanner Runner ExactFloat ReplannerFacts RunnerFacts.
#[local] Existing Instance exact_ops.

Local Open Scope Q_scope.

Lemma xlt_fin x y : xlt (Fin x) (Fin y) = false <-> y <= x.
Proof.
  simpl. rewrite negb_false_iff. apply Qle_bool_iff.
Qed.

#[local] Instance exact_order : FloatOrder.
Proof.
  split; change (@flt exact_ops) with xlt; change (@feq exact_ops) with xeq.
  - intros [x|]; [|reflexivity]. apply xlt_fin. apply Qle_refl.
  - intros [x|] [y|] [z|] H1 H2; try discriminate; try reflexivity.
    destruct (xlt (Fin x) (Fin z)) eqn:E; [reflexivity|].
    apply xlt_fin in E.
    assert (Hyx : xlt (Fin x) (Fin y) = false).
    { apply xlt_fin. eapply Qle_trans; [|exact E].
      destruct (Qlt_le_dec y z) as [Hl | Hl]; [apply Qlt_le_weak; exact Hl|].
      apply xlt_fin in Hl. congruence. }
    congruence.
  - intros [x|] [y|] [z|] H1 H2; try discriminate; try reflexivity.
    apply xlt_fin. apply xlt_fin in H1, H2. eapply Qle_trans; eassumption.
  - intros [x|] [y|] H; try discriminate; [|split; reflexivity].
    simpl in H. apply Qeq_bool_iff in H.
    split; apply xlt_fin; rewrite H; apply Qle_refl.
Qed.

(** Exact costs are not negative when the weights, the counts and the two
    factors are not. *)
Lemma exact_nonneg_costs adj counts (a b : Q) maxc N :
  0 <= a -> 0 <= b -> (1 <= maxc)%Z ->
  Forall (fun c => (0 <= c)%Z) counts ->
  check_graph (weight_ok N) adj = true ->
  nonneg_costs adj counts (Fin a) (Fin b) maxc.
Proof.
  intros Ha Hb Hm Hc Hg d u v w cu cv He Hcu Hcv.
  pose proof (check_graph_spec _ _ _ _ Hg He) as Hw.
  unfold weight_ok in Hw. apply andb_true_iff in Hw as [_ Hw]. simpl in Hw.
  destruct w as [q|]; [|discriminate]. apply Qle_bool_iff in Hw.
  destruct d as [x|]; [|reflexivity].
  unfold step_cost_from, traffic. simpl.
  rewrite negb_false_iff. apply Qle_bool_iff.
  rewrite !Qred_correct.
  assert (H1 : 0 <= a * q) by (apply Qmult_le_0_compat; assumption).
  assert (Hcu' : (0 <= cu)%Z).
  { eapply Forall_lookup_1 in Hc; [|exact Hcu]. exact Hc. }
  assert (Hcv' : (0 <= cv)%Z).
  { eapply Forall_lookup_1 in Hc; [|exact Hcv]. exact Hc. }
  assert (H2 : 0 <= inject_Z (cu + cv) / inject_Z 2 / inject_Z maxc).
  { apply Qle_shift_div_l.
    - change 0 with (inject_Z 0). rewrite <- Zlt_Qlt. lia.
    - rewrite Qmult_0_l. apply Qle_shift_div_l; [reflexivity|].
      rewrite Qmult_0_l. change 0 with (inject_Z 0). rewrite <- Zle_Qle. lia. }
  assert (H3 : 0 <= b * (inject_Z (cu + cv) / inject_Z 2 / inject_Z maxc))
    by (apply Qmult_le_0_compat; assumption).
  set (t := b * _) in *. set (s := a * q) in *. clearbody t s.
  rewrite <- (Qplus_0_r x) at 1. rewrite <- Qplus_assoc.
  apply Qplus_le_r. rewrite <- (Qplus_0_r 0). apply Qplus_le_compat; assumption.
Qed.

Local Close Scope Q_scope.

(** The solve of the chain returns within its budget of 9 iterations. *)
Lemma chain_returns :
  exists dist' prev' dt,
    dijkstra_arrays 9 adj3 3 [0; 100; 0]%Z 0 2 default_alpha default_beta
      = Ret (dist', prev') /\
    dist' !! 2%nat = Some dt /\
    if isinf dt
    then dijkstra_weighted 9 adj3 nodes3 [0; 100; 0]%Z 0 2 default_alpha default_beta
           = Ret None
    else exists route,
           dijkstra_weighted 9 adj3 nodes3 [0; 100; 0]%Z 0 2 default_alpha default_beta
             = Ret (Some route).
Proof.
  apply (dijkstra_weighted_returns 9 adj3 nodes3 [0; 100; 0]%Z 0 2
           default_alpha default_beta).
  - simpl. lia.
  - simpl. lia.
  - simpl. lia.
  - intros u v w He.
    pose proof (check_graph_spec (weight_ok 3) adj3 u (v, w) eq_refl He) as H.
    unfold weight_ok in H. apply andb_true_iff in H as [H _].
    apply Nat.ltb_lt in H. exact H.
  - intros maxc Hm. apply (exact_nonneg_costs adj3 _ 1 2 maxc 3).
    + discriminate.
    + discriminate.
    + destruct (ReplannerFacts.max_count_spec _ _ Hm) as [H _]. exact H.
    + repeat constructor; lia.
    + reflexivity.
  - vm_compute. lia.
Defined.

Example chain_route :
  dijkstra_weighted 20 adj3 nodes3 [0; 0; 0] 0 2 default_alpha default_beta
    = Ret (Some [0; 1; 2]%nat).
Proof. vm_compute. reflexivity. Qed.

Example chain_cost :
  dijkstra_arrays 20 adj3 3 [0; 0; 0] 0 2 default_alpha default_beta
    = Ret ([Fin 0; Fin 10; Fin 20], [None; Some 0%nat; Some 1%nat]).
Proof. vm_compute. reflexivity. Qed.

(** The distances of the chain when 100 vehicles wait at the middle junction. *)
Lemma C1_step_cost_witness :
  (exists maxc,
     max_count [0; 100; 0] = Ret maxc /\
     1 <= maxc /\ Forall (fun c => c <= maxc) [0; 100; 0] /\
     (maxc = 1 \/ maxc ∈ [0; 100; 0]) /\
     forall v d, [Fin 0; Fin 11; Fin 22] !! v = Some d ->
       d = inf \/ walk_cost adj3 [0; 100; 0] default_alpha default_beta maxc 0 v d) /\
  default_alpha = of_int 1 /\ default_beta = of_int 2.
Proof.
  apply (C1_step_cost 20 adj3 3 [0; 100; 0] 0 2 default_alpha default_beta
           [Fin 0; Fin 11; Fin 22] [None; Some 0%nat; Some 1%nat]).
  vm_compute. reflexivity.
Defined.

(** The route of the chain. *)
Lemma C9_route_shape_witness :
  [0; 1; 2]%nat <> [] /\ head [0; 1; 2]%nat = Some 0%nat /\
  last [0; 1; 2]%nat = Some 2%nat /\ edges_along adj3 [0; 1; 2]%nat /\
  (0%nat = 2%nat -> [0; 1; 2]%nat = [0%nat]).
Proof.
  apply (C9_route_shape 20 adj3 nodes3 [0; 0; 0] 0 2 default_alpha default_beta).
  - reflexivity.
  - vm_compute. reflexivity.
Defined.

(** Without roads the target is out of reach: its distance stays infinite,
    the solve returns [None], and the ambulance gets the direct route. *)
Lemma C5_unreachable_witness :
  dijkstra_weighted 20 ∅ nodes3 [0; 0; 0] 0 2 default_alpha default_beta = Ret None /\
  spawn 20 ∅ nodes3 [0; 0; 0] 2 0 = Ret (Ambulance 0 [0; 2]%nat 0 false).
Proof.
  destruct C5_unreachable as (H1 & H2 & H3).
  assert (Hn : dijkstra_weighted 20 ∅ nodes3 [0; 0; 0] 0 2 default_alpha default_beta
               = Ret None).
  { destruct (H2 exact_order _ 20%nat ∅ nodes3 [0; 0; 0] 0%nat 2%nat
                default_alpha default_beta)
      as (dist' & prev' & dt & Ha & Hd & Hiff).
    - simpl. lia.
    - simpl. lia.
    - simpl. lia.
    - intros u v w He. unfold neighbours in He. rewrite lookup_empty in He. inversion He.
    - intros maxc _ d u v w cu cv He. unfold neighbours in He.
      rewrite lookup_empty in He. inversion He.
    - vm_compute. lia.
    - apply (H1 _ 20%nat ∅ nodes3 [0; 0; 0] 0%nat 2%nat default_alpha default_beta
                [Fin 0; Inf; Inf] [None; None; None] Inf).
      + vm_compute. reflexivity.
      + reflexivity.
      + reflexivity. }
  split; [exact Hn|]. apply H3. exact Hn.
Defined.

(** At tick 5 an ambulance on the direct road of weight 25 is moved to the
    chain, which costs 20; at tick 4 nothing happens. *)
Lemma C4_replan_witness :
  replan 20 adj3_direct nodes3 [0; 0; 0] 2 5 (Ambulance 0 [0; 2]%nat 0 false)
    = Ret (Ambulance 0 [0; 1; 2]%nat 0 false) /\
  replan 20 adj3_direct nodes3 [0; 0; 0] 2 4 (Ambulance 0 [0; 2]%nat 0 false)
    = Ret (Ambulance 0 [0; 2]%nat 0 false).
Proof.
  split.
  - destruct (C4_replan 20 adj3_direct nodes3 [0; 0; 0] 2 5
                (Ambulance 0 [0; 2]%nat 0 false)) as (_ & _ & H & _).
    destruct (H eq_refl) as (cur & Hcur & Hr).
    inversion Hcur; subst.
    exact (Hr (Ret (Some [0; 1; 2]%nat)) eq_refl).
  - destruct (C4_replan 20 adj3_direct nodes3 [0; 0; 0] 2 4
                (Ambulance 0 [0; 2]%nat 0 false)) as (_ & H & _).
    exact (H eq_refl).
Defined.

(** The graph of the chain: the edge from junction 0 to junction 1 weighs 10. *)
Lemma C6_build_graph_witness :
  neighbours adj3 0 = [(1%nat, Fin 10)] /\ edges_ok nodes3 adj3 /\
  add_polyline nodes3 adj3 [(0, 0)] = adj3.
Proof.
  destruct C6_build_graph as (H1 & H2 & _).
  split; [reflexivity|]. split.
  - exact (H1 nodes3 polylines3).
  - apply H2. simpl. lia.
Defined.

(** One tick of the two ambulances: both decrement, the one that is done too. *)
Lemma C10_decrement_every_ambulance_witness :
  tick 20 adj3 nodes3 2 sim0 = Ret sim1 /\
  Forall cursor_ok (ambulances sim1) /\
  counts_vals sim1 = [2; 0; 0].
Proof.
  assert (Ht : tick 20 adj3 nodes3 2 sim0 = Ret sim1) by (vm_compute; reflexivity).
  assert (Hok : Forall cursor_ok (ambulances sim0)).
  { repeat constructor; simpl; try lia; try discriminate. }
  destruct (C10_decrement_every_ambulance 20 adj3 nodes3 2 sim0 sim1 Hok Ht) as (H & _).
  split; [exact Ht|]. split; [exact H|reflexivity].
Defined.

End ScenarioFacts.

(** ** Packed words *)
Module WordFacts.
Import Words.

(** Equalities between bit fields, bit by bit. *)
Ltac mask_consts :=
  change 1023 with (Z.ones 10) in *; change 4294967295 with (Z.ones 32) in *;
  change 16383 with (Z.ones 14) in *; change 3 with (Z.ones 2) in *;
  change 15 with (Z.ones 4) in *; change 255 with (Z.ones 8) in *;
  change 31 with (Z.ones 5) in *; change 63 with (Z.ones 6) in *;
  change 65535 with (Z.ones 16) in *.

Ltac bit_step :=
  match goal with
  | |- context [Z.testbit (Z.land _ _) _] => rewrite Z.land_spec
  | |- context [Z.testbit (Z.lor _ _) _] => rewrite Z.lor_spec
  | |- context [Z.testbit (Z.shiftr _ _) _] => rewrite Z.shiftr_spec by lia
  | |- context [Z.testbit (Z.shiftl _ _) ?m] => rewrite Z.shiftl_spec by lia
  | |- context [Z.testbit (Z.ones ?k) ?m] => rewrite (Z.testbit_ones k m) by lia
  end.

Ltac bitwise :=
  apply Z.bits_inj'; intros n Hn; repeat bit_step;
  repeat match goal with
  | |- context [Z.testbit ?a ?m] => progress (ring_simplify m)
  end;
  repeat match goal with
  | |- context [?a <? ?b] => destruct (Z.ltb_spec a b); try lia
  | |- context [?a <=? ?b] => destruct (Z.leb_spec a b); try lia
  end;
  repeat match goal with
  | |- context [Z.testbit ?a ?m] => rewrite (Z.testbit_neg_r a m) by lia
  end;
  repeat match goal with
  | |- context [Z.testbit ?a ?m] => destruct (Z.testbit a m)
  end;
  try reflexivity; try lia.

Lemma land_small a k : 0 <= k -> 0 <= a < 2 ^ k -> Z.land a (Z.ones k) = a.
Proof. intros Hk Ha. rewrite Z.land_ones by lia. apply Z.mod_small; lia. Qed.

Lemma land_ones_range w k : 0 <= k -> w = Z.land w (Z.ones k) -> 0 <= w < 2 ^ k.
Proof. intros Hk ->. rewrite Z.land_ones by lia. apply Z.mod_pos_bound; lia. Qed.

Lemma frame_point_word p :
  frame_point (Runner.frame_word p) = (Z.land (fst p) 1023, Z.land (snd p) 1023).
Proof.
  unfold frame_point, Runner.frame_word. mask_consts. f_equal; bitwise.
Qed.

Lemma node_of_word_range v :
  0 <= fst (node_of_word v) < 1024 /\ 0 <= snd (node_of_word v) < 1024.
Proof.
  unfold node_of_word; simpl. mask_consts. rewrite !Z.land_ones by lia.
  split; apply Z.mod_pos_bound; lia.
Qed.

(** X1: the frame an ambulance at a junction is exported as
    (multi_ambulance_runner.py and path_selection.py) holds the position of
    the junction as [load_nodes] read it: the fallback of
    runtime_controller.py, which decodes the frame, gets it back exactly.  A
    frame of any position fits 32 bits. *)
Theorem X1_frame_round_trip v p :
  frame_point (Runner.frame_word (node_of_word v)) = node_of_word v /\
  0 <= Runner.frame_word p < 2 ^ 32.
Proof.
  split.
  - rewrite frame_point_word. destruct (node_of_word_range v) as [Hx Hy].
    destruct (node_of_word v) as [x y]; simpl in *.
    mask_consts. rewrite !land_small by lia. reflexivity.
  - unfold Runner.frame_word. mask_consts. rewrite (Z.land_ones _ 32) by lia.
    apply Z.mod_pos_bound; lia.
Qed.

(** X2: a light written as a word and read back keeps its state modulo 4
    and its timer modulo 16384 (so a timer of 16384 or more is not kept),
    and the word fits the four hexadecimal digits it is written with. *)
Theorem X2_light_word_round_trip st tm :
  light_of_word (light_word (st, tm)) = (st mod 4, tm mod 16384) /\
  0 <= light_word (st, tm) < 65536.
Proof.
  split.
  - unfold light_of_word, light_word; simpl.
    change 4 with (2 ^ 2); change 16384 with (2 ^ 14).
    rewrite <- !Z.land_ones by lia. mask_consts. f_equal; bitwise.
  - apply (land_ones_range _ 16); [lia|].
    unfold light_word; simpl. mask_consts. bitwise.
Qed.

Lemma light_round_trip_small l :
  0 <= fst l < 4 -> 0 <= snd l < 16384 -> light_of_word (light_word l) = l.
Proof.
  intros H1 H2. destruct l as [st tm]; simpl in *.
  assert (E : light_of_word (light_word (st, tm)) = (st mod 4, tm mod 16384)).
  { unfold light_of_word, light_word; simpl.
    change 4 with (2 ^ 2); change 16384 with (2 ^ 14).
    rewrite <- !Z.land_ones by lia. mask_consts. f_equal; bitwise. }
  rewrite E, !Z.mod_small by lia. reflexivity.
Qed.

(** X3: every light the two signal simulations reach, after any number of
    ticks from a light they can start with, is written to lights.coe and
    read back without loss. *)
Theorem X3_simulated_lights_survive (n : nat) (l : Z * Z) :
  (Signals.stage0_initial l ->
   light_of_word (light_word (Nat.iter n Signals.stage0_light_tick l))
   = Nat.iter n Signals.stage0_light_tick l) /\
  (Signals.lights_initial l ->
   light_of_word (light_word (Nat.iter n Signals.lights_tick l))
   = Nat.iter n Signals.lights_tick l).
Proof.
  split; intros Hl.
  - destruct (SignalFacts.stage0_iter_ok n l Hl) as [Hp Ht].
    pose proof SignalFacts.stage0_durations as (HG & HY & HR).
    apply light_round_trip_small.
    + unfold Signals.is_phase, Signals.RED, Signals.GREEN, Signals.YELLOW in Hp. lia.
    + unfold Signals.stage0_duration in Ht.
      destruct (_ =? 1); [|destruct (_ =? 2)]; lia.
  - destruct (SignalFacts.lights_iter_ok n l Hl) as [Hp Ht].
    apply light_round_trip_small.
    + unfold Signals.is_phase, Signals.RED, Signals.GREEN, Signals.YELLOW in Hp. lia.
    + unfold Signals.lights_duration, Signals.GREEN_LEN, Signals.YELLOW_LEN,
        Signals.RED_LEN in Ht.
      destruct (_ =? 1); [|destruct (_ =? 2)]; lia.
Qed.

(** A green light of stage 0 three ticks on, and a yellow light of the other
    script forty ticks on. *)
Lemma X3_simulated_lights_survive_witness :
  light_of_word (light_word (Nat.iter 3 Signals.stage0_light_tick (1, 2))) = (2, 9) /\
  light_of_word (light_word (Nat.iter 40 Signals.lights_tick (2, 10))) = (0, 120).
Proof.
  split.
  - rewrite (proj1 (X3_simulated_lights_survive 3 (1, 2))); [reflexivity|].
    unfold Signals.stage0_initial, Signals.is_phase; simpl.
    split; [right; left; reflexivity|]. vm_compute; split; discriminate.
  - rewrite (proj2 (X3_simulated_lights_survive 40 (2, 10))); [reflexivity|].
    unfold Signals.lights_initial, Signals.is_phase; simpl.
    split; [right; right; reflexivity|]. vm_compute; split; discriminate.
Defined.

(** X4: the four fields of a geometry entry do not overlap: each can be read
    back from its place in the word (x in bits 31-22, y in 21-12, the type in
    11-8, the colour in 7-0), cut to its width, and the word fits 32 bits. *)
Theorem X4_pack_geom_fields x y typ color8 :
  let w := pack_geom x y typ color8 in
  Z.land (Z.shiftr w 22) 1023 = Z.land x 1023 /\
  Z.land (Z.shiftr w 12) 1023 = Z.land y 1023 /\
  Z.land (Z.shiftr w 8) 15 = Z.land typ 15 /\
  Z.land w 255 = Z.land color8 255 /\
  0 <= w < 2 ^ 32.
Proof.
  unfold pack_geom. mask_consts.
  split; [bitwise|]. split; [bitwise|]. split; [bitwise|]. split; [bitwise|].
  apply (land_ones_range _ 32); [lia|]. bitwise.
Qed.

Lemma rgb565_fields r5 g6 b5 :
  0 <= r5 < 32 -> 0 <= g6 < 64 -> 0 <= b5 < 32 ->
  let w := Z.lor (Z.lor (Z.shiftl r5 11) (Z.shiftl g6 5)) b5 in
  Z.land (Z.shiftr w 11) 31 = r5 /\ Z.land (Z.shiftr w 5) 63 = g6 /\
  Z.land w 31 = b5 /\ 0 <= w < 65536.
Proof.
  intros Hr Hg Hb.
  rewrite <- (land_small r5 5), <- (land_small g6 6), <- (land_small b5 5) by (simpl; lia).
  cbv zeta. mask_consts.
  split; [bitwise|]. split; [bitwise|]. split; [bitwise|].
  apply (land_ones_range _ 16); [lia|]. bitwise.
Qed.

(** X5: a colour with channels in 0..255 packed by [rgb888_to_rgb565] fits
    16 bits, and the pixel visualize_runtime.py makes of it is never
    brighter than the colour and at most 9 (red, blue) or 5 (green) darker
    in a channel. *)
Theorem X5_rgb565_loss r g b :
  0 <= r <= 255 -> 0 <= g <= 255 -> 0 <= b <= 255 ->
  let '(r', g', b') := rgb565_to_rgb888 (rgb888_to_rgb565 r g b) in
  r - 9 <= r' <= r /\ g - 5 <= g' <= g /\ b - 9 <= b' <= b /\
  0 <= rgb888_to_rgb565 r g b < 65536.
Proof.
  intros Hr Hg Hb. unfold rgb565_to_rgb888, rgb888_to_rgb565.
  assert (H5 : 0 <= r * 31 / 255 < 32)
    by (split; [apply Z.div_pos; lia | apply Z.div_lt_upper_bound; lia]).
  assert (H6 : 0 <= g * 63 / 255 < 64)
    by (split; [apply Z.div_pos; lia | apply Z.div_lt_upper_bound; lia]).
  assert (H7 : 0 <= b * 31 / 255 < 32)
    by (split; [apply Z.div_pos; lia | apply Z.div_lt_upper_bound; lia]).
  destruct (rgb565_fields _ _ _ H5 H6 H7) as (-> & -> & -> & Hw).
  split; [|split; [|split; [|exact Hw]]]; clear Hw H5 H6 H7;
    Z.div_mod_to_equations; lia.
Qed.

(** The road colour (200, 200, 200) comes back as (197, 198, 197). *)
Lemma X5_rgb565_loss_witness :
  rgb565_to_rgb888 (rgb888_to_rgb565 200 200 200) = (197, 198, 197) /\
  (200 - 9 <= 197 <= 200 /\ 200 - 5 <= 198 <= 200 /\ 200 - 9 <= 197 <= 200 /\
   0 <= rgb888_to_rgb565 200 200 200 < 65536).
Proof.
  split; [reflexivity|].
  exact (X5_rgb565_loss 200 200 200 ltac:(lia) ltac:(lia) ltac:(lia)).
Defined.

Lemma polyline_steps vals : forall ps cur ps' cur',
  fold_left polyline_step vals (ps, cur) = (ps', cur') ->
  concat ps' ++ cur' = concat ps ++ cur ++ map edge_point vals /\
  (Forall (fun p => p <> []) ps -> Forall (fun p => p <> []) ps') /\
  length ps' = (length ps + length (filter (fun v => edge_flag v = true) vals))%nat.
Proof.
  induction vals as [|v vals IH]; intros ps cur ps' cur' H.
  - simpl in H. inversion H; subst. simpl. rewrite app_nil_r, Nat.add_0_r. auto.
  - change (fold_left polyline_step (v :: vals) (ps, cur))
      with (fold_left polyline_step vals (polyline_step (ps, cur) v)) in H.
    unfold polyline_step at 2 in H.
    rewrite filter_cons. destruct (edge_flag v) eqn:Ef.
    + destruct (cur ++ [edge_point v]) as [|x l] eqn:Ec.
      { destruct cur; discriminate. }
      apply IH in H as (H1 & H2 & H3). rewrite decide_True by reflexivity.
      split; [|split].
      * rewrite H1, concat_app. simpl. rewrite app_nil_r, <- Ec, <- !app_assoc. reflexivity.
      * intros Hps. apply H2. apply Forall_app; split; [exact Hps|].
        constructor; [discriminate|constructor].
      * rewrite H3, length_app. simpl. lia.
    + apply IH in H as (H1 & H2 & H3). rewrite decide_False by discriminate.
      split; [|split]; [|exact H2|exact H3].
      rewrite H1, <- !app_assoc. reflexivity.
Qed.

Lemma polyline_steps_open vals : forall ps cur ps' cur',
  fold_left polyline_step vals (ps, cur) = (ps', cur') ->
  (cur' = [] <-> match last vals with
                 | None => cur = []
                 | Some v => edge_flag v = true
                 end).
Proof.
  induction vals as [|v vals IH]; intros ps cur ps' cur' H.
  - simpl in H. inversion H; subst. reflexivity.
  - change (fold_left polyline_step (v :: vals) (ps, cur))
      with (fold_left polyline_step vals (polyline_step (ps, cur) v)) in H.
    destruct (polyline_step (ps, cur) v) as [ps1 cur1] eqn:E1.
    apply IH in H. rewrite H. destruct vals as [|v' vals].
    2:{ change (last (v :: v' :: vals)) with (last (v' :: vals)).
        destruct (last (v' :: vals)) eqn:El; [reflexivity|].
        apply last_None in El. discriminate. }
    simpl. unfold polyline_step in E1. destruct (edge_flag v).
    + inversion E1; subst. split; reflexivity.
    + inversion E1; subst. split; [destruct cur|]; discriminate.
Qed.

Lemma edge_point_range v :
  0 <= fst (edge_point v) < 512 /\ 0 <= snd (edge_point v) < 1024.
Proof.
  unfold edge_point; simpl. split.
  - apply (land_ones_range _ 9); [lia|].
    change 524287 with (Z.ones 19). mask_consts. bitwise.
  - mask_consts. rewrite (Z.land_ones _ 10) by lia. apply Z.mod_pos_bound; lia.
Qed.

(** X6: [load_edges_polylines] loses and reorders nothing: the polylines,
    one after the other, are the points of the words of the file in order;
    no polyline is empty; every point has x below 512 and y below 1024; and
    there is one polyline for each word with the end flag, and one more when
    the last word has none. *)
Theorem X6_polylines_partition vals :
  let polylines := load_edges_polylines vals in
  concat polylines = map edge_point vals /\
  Forall (fun poly => poly <> []) polylines /\
  Forall (Forall (fun p => 0 <= fst p < 512 /\ 0 <= snd p < 1024)) polylines /\
  length polylines =
    (length (filter (fun v => edge_flag v = true) vals) +
     match last vals with
     | Some v => if edge_flag v then 0 else 1
     | None => 0
     end)%nat.
Proof.
  unfold load_edges_polylines.
  destruct (fold_left polyline_step vals ([], [])) as [ps cur] eqn:E.
  pose proof (polyline_steps_open _ _ _ _ _ E) as Ho.
  apply polyline_steps in E as (H1 & H2 & H3). simpl in H1, H3.
  assert (Hc : concat (match cur with [] => ps | _ => ps ++ [cur] end)
               = map edge_point vals).
  { rewrite <- H1. destruct cur; [rewrite app_nil_r; reflexivity|].
    rewrite concat_app. simpl. rewrite app_nil_r. reflexivity. }
  cbv zeta. split; [exact Hc|]. split; [|split].
  - destruct cur; [apply H2; constructor|].
    apply Forall_app; split; [apply H2; constructor|].
    constructor; [discriminate|constructor].
  - apply Forall_concat. rewrite Hc. apply Forall_map, Forall_forall.
    intros v _. apply edge_point_range.
  - destruct cur as [|p cur].
    + rewrite H3. destruct (last vals) as [v|]; [|lia].
      rewrite (proj1 Ho eq_refl). lia.
    + rewrite length_app, H3. simpl. destruct (last vals) as [v|] eqn:El.
      * destruct (edge_flag v); [|reflexivity].
        destruct Ho as [_ Ho]. specialize (Ho eq_refl). discriminate.
      * destruct Ho as [_ Ho]. specialize (Ho eq_refl). discriminate.
Qed.

(** X7: the two readers of the edge file disagree on a word that carries
    the end-of-polyline flag: [read_coe_points] of generate_framebuffer.py
    and make_fpga_assets.py takes the flag for the top bit of x, so it reads
    the point 512 further right than [load_edges_polylines] does; on the
    other words they agree. *)
Theorem X7_flag_read_as_x v :
  node_of_word v =
  (fst (edge_point v) + (if edge_flag v then 512 else 0), snd (edge_point v)).
Proof.
  unfold node_of_word, edge_point, edge_flag; simpl.
  f_equal.
  - assert (Hb : Z.land v 524288 = if Z.testbit v 19 then 524288 else 0).
    { change 524288 with (2 ^ 19). destruct (Z.testbit v 19) eqn:Eb.
      - apply Z.bits_inj'. intros n Hn. rewrite Z.land_spec, Z.pow2_bits_eqb by lia.
        destruct (Z.eqb_spec 19 n); [subst; rewrite Eb; reflexivity|apply andb_false_r].
      - apply Z.bits_inj'. intros n Hn. rewrite Z.land_spec, Z.pow2_bits_eqb, Z.bits_0 by lia.
        destruct (Z.eqb_spec 19 n); [subst; rewrite Eb; reflexivity|apply andb_false_r]. }
    rewrite Hb. clear Hb.
    rewrite Z.testbit_odd, Z.shiftr_div_pow2 by lia.
    change 524287 with (Z.ones 19). change 1023 with (Z.ones 10).
    rewrite !Z.land_ones, !Z.shiftr_div_pow2 by lia.
    change (2 ^ 19) with 524288. change (2 ^ 10) with 1024.
    pose proof (Zmod_odd (v / 524288)) as Ho.
    destruct (Z.odd (v / 524288));
      [change (negb (524288 =? 0)) with true | change (negb (0 =? 0)) with false];
      cbv iota; Z.div_mod_to_equations; lia.
  - change 524287 with (Z.ones 19). mask_consts. bitwise.
Qed.
End WordFacts.

(** ** The whole loop of the runner *)
Module LoopFacts.
Import Replanner Runner RunnerLoop ReplannerFacts RunnerFacts.

(** *** Routes stay on the map *)
Section Bound.
Context {FO : FloatOps}.

Lemma reconstruct_bound (prev : list (option nat)) start N fuel : forall u acc route,
  (forall v p, prev !! v = Some (Some p) -> (p < N)%nat) ->
  (u < N)%nat -> Forall (fun j => (j < N)%nat) acc ->
  reconstruct fuel prev start (Some u) acc = Ret route ->
  Forall (fun j => (j < N)%nat) route.
Proof.
  induction fuel as [|fuel IH]; intros u acc route Hp Hu Hacc H; simpl in H; [discriminate|].
  assert (Hacc' : Forall (fun j => (j < N)%nat) (acc ++ [u])).
  { apply Forall_app; split; [exact Hacc|]. constructor; [exact Hu|constructor]. }
  destruct (u =? start)%nat; [inversion H; subst; exact Hacc'|].
  destruct (prev !! u) as [[p|]|] eqn:E; simpl in H; try discriminate.
  - eapply IH; [exact Hp|eapply Hp; exact E|exact Hacc'|exact H].
  - destruct fuel; simpl in H; inversion H; subst; exact Hacc'.
Qed.

Lemma route_bound {A} fuel adj (nodes : list A) counts start target alpha beta route :
  (start < length nodes)%nat -> (target < length nodes)%nat ->
  dijkstra_weighted fuel adj nodes counts start target alpha beta = Ret (Some route) ->
  Forall (fun j => (j < length nodes)%nat) route.
Proof.
  intros Hs Ht H. unfold dijkstra_weighted in H.
  destruct (dijkstra_arrays _ _ _ _ _ _ _ _) as [[dist' prev']| |] eqn:Ea;
    simpl in H; try discriminate.
  destruct (dijkstra_arrays_invariant _ _ _ _ _ _ _ _ _ _ Ea)
    as (maxc & st & _ & Hinv & <- & <-).
  destruct (dist st !! target) as [dt|] eqn:Edt; simpl in H; [|discriminate].
  destruct (isinf dt) eqn:Ei; [discriminate|].
  destruct (reconstruct fuel (prev st) start (Some target) []) as [l| |] eqn:Er;
    simpl in H; try discriminate.
  inversion H; subst; clear H.
  apply Forall_reverse.
  eapply reconstruct_bound; [|exact Ht|constructor|exact Er].
  intros v p Hp.
  destruct (inv_back _ _ _ _ _ _ _ _ Hinv _ _ Hp) as [-> | [q Hq]]; [exact Hs|].
  apply lookup_lt_Some in Hq. rewrite (inv_len_prev _ _ _ _ _ _ _ _ Hinv) in Hq. exact Hq.
Qed.
End Bound.

(** *** No step of the loop raises *)
Section Total.
Context `{FOrd : FloatOrder}.
Variables (adj : gmap nat (list (nat * F))) (nodes : list (Z * Z)) (target fuel : nat).
Let N := length nodes.
Hypothesis Hwf : graph_wf adj N.
Hypothesis Htarget : (target < N)%nat.
Hypothesis Hfuel : (enough_fuel adj N <= fuel)%nat.
Hypothesis Hcost : forall counts maxc,
  Forall (fun c => 0 <= c) counts -> max_count counts = Ret maxc ->
  nonneg_costs adj counts default_alpha default_beta maxc.

Local Abbreviation in_map := (fun a => Forall (fun j => (j < N)%nat) (path a)).

Lemma solve_total counts cur :
  Forall (fun c => 0 <= c) counts -> (N <= length counts)%nat -> (cur < N)%nat ->
  exists r, dijkstra_weighted fuel adj nodes counts cur target default_alpha default_beta
            = Ret r /\
            match r with
            | Some route => Forall (fun j => (j < N)%nat) route /\ route <> []
            | None => True
            end.
Proof.
  intros Hc Hlen Hcur.
  destruct (dijkstra_weighted_returns fuel adj nodes counts cur target
              default_alpha default_beta Hcur Htarget Hlen Hwf
              (fun maxc Hm => Hcost counts maxc Hc Hm) Hfuel)
    as (dist' & prev' & dt & _ & _ & Hr).
  destruct (isinf dt).
  - exists None. split; [exact Hr|exact I].
  - destruct Hr as [route Hr]. exists (Some route). split; [exact Hr|]. split.
    + eapply route_bound; [exact Hcur|exact Htarget|exact Hr].
    + eapply dijkstra_route_nonempty. exact Hr.
Qed.

Lemma replan_total counts t a :
  Forall (fun c => 0 <= c) counts -> (N <= length counts)%nat ->
  cursor_ok a -> in_map a ->
  exists a', replan fuel adj nodes counts target t a = Ret a' /\ in_map a'.
Proof.
  intros Hc Hlen [Hpos _] Hmap. unfold replan.
  destruct (replan_due t a); [|eauto].
  destruct (lookup_lt_is_Some_2 (path a) (pos_idx a) Hpos) as [cur Hcur].
  rewrite Hcur. simpl.
  assert (HcurN : (cur < N)%nat) by (eapply Forall_lookup_1 in Hmap; eauto).
  destruct (solve_total counts cur Hc Hlen HcurN) as (r & -> & Hr). simpl.
  destruct r as [[|x l]|]; [eauto|exists (Ambulance (start a) (x :: l) 0 (done a))|eauto].
  split; [reflexivity|]. apply Hr.
Qed.

Lemma ambulance_step_total counts t ai a frames :
  Forall (fun c => 0 <= c) counts -> (N <= length counts)%nat ->
  cursor_ok a -> in_map a -> (ai < length frames)%nat ->
  exists a' frames',
    ambulance_step fuel adj nodes counts target t ai a frames = Ret (a', frames') /\
    cursor_ok a' /\ in_map a' /\ length frames' = length frames.
Proof.
  intros Hc Hlen Hok Hmap Hai. unfold ambulance_step.
  destruct (done a) eqn:Hd; [eauto 10|].
  destruct (replan_total counts t a Hc Hlen Hok Hmap) as (a1 & Hr & Hmap1).
  rewrite Hr. simpl.
  destruct (replan_cursor_ok _ _ _ _ _ _ _ _ Hok Hd Hr) as [Hok1 Hd1].
  pose proof (advance_cursor_ok a1 Hok1 Hd1) as Hok2.
  assert (Hmap2 : in_map (advance a1)).
  { unfold advance. destruct (_ <? _); exact Hmap1. }
  destruct (lookup_lt_is_Some_2 _ _ (proj1 Hok2)) as [cur Hcur].
  rewrite Hcur. simpl.
  assert (HcurN : (cur < N)%nat) by (eapply Forall_lookup_1 in Hmap2; eauto).
  destruct (lookup_lt_is_Some_2 nodes cur HcurN) as [p Hp]. rewrite Hp. simpl.
  destruct (lookup_lt_is_Some_2 frames ai Hai) as [f Hf]. rewrite Hf. simpl.
  eexists _, _. split; [reflexivity|]. rewrite length_insert. auto.
Qed.

Lemma step_all_total counts t ambs : forall ai frames,
  Forall (fun c => 0 <= c) counts -> (N <= length counts)%nat ->
  Forall cursor_ok ambs -> Forall in_map ambs ->
  (ai + length ambs <= length frames)%nat ->
  exists ambs' frames',
    step_all fuel adj nodes counts target t ai ambs frames = Ret (ambs', frames') /\
    Forall cursor_ok ambs' /\ Forall in_map ambs' /\
    length ambs' = length ambs /\ length frames' = length frames.
Proof.
  induction ambs as [|a ambs IH]; intros ai frames Hc Hlen Hok Hmap Hai; simpl.
  - eexists _, _. split; [reflexivity|]. auto.
  - inversion Hok as [|? ? Ha Hrest]; subst. inversion Hmap as [|? ? Ma Mrest]; subst.
    simpl in Hai.
    destruct (ambulance_step_total counts t ai a frames Hc Hlen Ha Ma ltac:(lia))
      as (a1 & f1 & -> & Hok1 & Hmap1 & Hl1). simpl.
    destruct (IH (S ai) f1 Hc Hlen Hrest Mrest ltac:(lia))
      as (r1 & f2 & -> & Hok2 & Hmap2 & Hl2 & Hl3). simpl.
    eexists _, _. split; [reflexivity|]. simpl.
    repeat split; try constructor; auto; lia.
Qed.

Lemma decrement_passed_total ambs : forall counts,
  Forall (fun c => 0 <= c) counts -> (N <= length counts)%nat ->
  Forall cursor_ok ambs -> Forall in_map ambs ->
  exists counts',
    decrement_passed ambs counts = Ret counts' /\
    Forall (fun c => 0 <= c) counts' /\ length counts' = length counts.
Proof.
  induction ambs as [|a ambs IH]; intros counts Hc Hlen Hok Hmap; simpl; [eauto|].
  inversion Hok as [|? ? Ha Hrest]; subst. inversion Hmap as [|? ? Ma Mrest]; subst.
  unfold passed_junction.
  destruct (lookup_lt_is_Some_2 (path a) (pos_idx a - 1)%nat) as [idx Hidx];
    [destruct Ha; lia|].
  rewrite Hidx. simpl.
  assert (HidxN : (idx < N)%nat) by (eapply Forall_lookup_1 in Ma; eauto).
  destruct (lookup_lt_is_Some_2 counts idx ltac:(lia)) as [c Hcl].
  unfold Congestion.decrement_on_pass. rewrite Hcl. simpl.
  destruct (0 <? c); simpl.
  - destruct (IH (<[idx := Z.max 0 (c - 1)]> counts)) as (c' & -> & Hc' & Hl');
      [|rewrite length_insert; exact Hlen|exact Hrest|exact Mrest|].
    + apply Forall_insert; [exact Hc|lia].
    + rewrite length_insert in Hl'. eauto.
  - apply IH; assumption.
Qed.

Lemma tick_total s :
  sim_ok N s ->
  exists s', tick fuel adj nodes target s = Ret s' /\ sim_ok N s' /\
             ticks s' = ticks s + 1.
Proof.
  intros (Hok & Hmap & Hc & Hlen & Hfr). unfold tick.
  destruct (step_all_total (counts_vals s) (ticks s + 1) (ambulances s) 0 (amb_frames s)
              Hc Hlen Hok Hmap ltac:(simpl; lia))
    as (ambs & frames & -> & Hok' & Hmap' & Hl1 & Hl2). simpl.
  destruct (decrement_passed_total ambs (counts_vals s) Hc Hlen Hok' Hmap')
    as (counts & -> & Hc' & Hl3). simpl.
  eexists. split; [reflexivity|]. split; [|reflexivity].
  repeat split; simpl; auto; lia.
Qed.

Lemma run_total budget : forall s,
  sim_ok N s ->
  exists s', run budget fuel adj nodes target s = Ret s' /\ sim_ok N s' /\
             ticks s <= ticks s' <= Z.max (ticks s) max_ticks /\
             (max_ticks - ticks s <= Z.of_nat budget -> finished s').
Proof.
  induction budget as [|budget IH]; intros s Hs; simpl.
  - exists s. split; [reflexivity|]. split; [exact Hs|]. split; [lia|].
    intros Hb. left. lia.
  - destruct (Z.ltb_spec (ticks s) max_ticks) as [Hlt | Hge]; simpl.
    + destruct (forallb done (ambulances s)) eqn:Hd; simpl.
      * exists s. split; [reflexivity|]. split; [exact Hs|]. split; [lia|].
        intros _. right. exact Hd.
      * destruct (tick_total s Hs) as (s1 & -> & Hs1 & Ht1). simpl.
        destruct (IH s1 Hs1) as (s' & Hr & Hs' & Ht' & Hfin).
        exists s'. split; [exact Hr|]. split; [exact Hs'|]. split; [lia|].
        intros Hb. apply Hfin. lia.
    + exists s. split; [reflexivity|]. split; [exact Hs|]. split; [lia|].
      intros _. left. exact Hge.
Qed.

Lemma spawn_all_total counts spawns :
  Forall (fun c => 0 <= c) counts -> (N <= length counts)%nat ->
  Forall (fun si => (si < N)%nat) spawns ->
  exists ambs, spawn_all fuel adj nodes counts target spawns = Ret ambs /\
               Forall cursor_ok ambs /\ Forall in_map ambs /\
               length ambs = length spawns /\
               Forall (fun a => done a = false /\ pos_idx a = 0%nat) ambs.
Proof.
  intros Hc Hlen. induction spawns as [|si rest IH]; intros Hsp; simpl.
  - exists []. repeat split; constructor.
  - inversion Hsp as [|? ? Hsi Hrest]; subst.
    unfold spawn.
    destruct (solve_total counts si Hc Hlen Hsi) as (r & -> & Hr). simpl.
    destruct (IH Hrest) as (ambs & -> & Hok & Hmap & Hl & Hnew). simpl.
    eexists. split; [reflexivity|].
    assert (Hroute : Forall (fun j => (j < N)%nat)
                       (match r with None => [si; target] | Some p => p end) /\
                     (0 < length (match r with None => [si; target] | Some p => p end))%nat).
    { destruct r as [route|].
      - destruct Hr as [Hb Hne]. split; [exact Hb|].
        destruct route; [contradiction|simpl; lia].
      - split; [|simpl; lia]. repeat constructor; assumption. }
    destruct Hroute as [Hb Hpos].
    repeat split; try constructor; simpl; auto; try lia.
    split; [exact Hpos|discriminate].
Qed.

End Total.

(** X8: on a map whose adjacency only names junctions of the map, with a
    count that is not negative for every junction, spawn junctions and a
    target on the map, and an arithmetic whose comparisons are an order and
    whose step costs are not negative, lines 128-161 of [main] raise no
    exception: every solve returns, no index is out of range, the loop ends
    within [max_ticks] ticks with every ambulance done or the tick limit
    reached, and the final state has every cursor inside its route, every
    route inside the map and no negative count. *)
Theorem X8_simulation_never_raises `{FOrd : FloatOrder} (adj : gmap nat (list (nat * F)))
    (nodes : list (Z * Z)) (counts : list Z) (target : nat) (spawns : list nat)
    (fuel budget : nat) :
  graph_wf adj (length nodes) ->
  (target < length nodes)%nat ->
  Forall (fun si => (si < length nodes)%nat) spawns ->
  (length spawns <= N_AMB)%nat ->
  Forall (fun c => 0 <= c) counts ->
  (length nodes <= length counts)%nat ->
  (forall counts' maxc,
     Forall (fun c => 0 <= c) counts' -> max_count counts' = Ret maxc ->
     nonneg_costs adj counts' default_alpha default_beta maxc) ->
  (enough_fuel adj (length nodes) <= fuel)%nat ->
  (Z.to_nat max_ticks <= budget)%nat ->
  exists s',
    simulate budget fuel adj nodes counts target spawns = Ret s' /\
    sim_ok (length nodes) s' /\ 0 <= ticks s' <= max_ticks /\ finished s'.
Proof.
  intros Hwf Ht Hsp Hn Hc Hlen Hcost Hfuel Hbudget. unfold simulate.
  destruct (spawn_all_total adj nodes target fuel Hwf Ht Hfuel Hcost counts spawns
              Hc Hlen Hsp) as (ambs & -> & Hok & Hmap & Hl & _). simpl.
  destruct (run_total adj nodes target fuel Hwf Ht Hfuel Hcost budget
              (Sim ambs counts (replicate N_AMB []) 0)) as (s' & Hr & Hs' & Hticks & Hfin).
  { repeat split; simpl; auto. unfold N_AMB in *. simpl. lia. }
  exists s'. split; [exact Hr|]. split; [exact Hs'|]. simpl in Hticks, Hfin.
  split; [unfold max_ticks in *; lia|]. apply Hfin. lia.
Qed.
End LoopFacts.

Module LoopScenario.
Import Replanner Runner RunnerLoop ExactFloat ReplannerFacts ScenarioFacts LoopFacts.
#[local] Existing Instance exact_ops.
#[local] Existing Instance exact_order.

(** The chain of three junctions with ambulances spawned at junctions 0
    and 1. *)
Lemma X8_simulation_never_raises_witness :
  exists s',
    simulate 1000 9 adj3 nodes3 [3; 1; 0] 2 [0; 1]%nat = Ret s' /\
    sim_ok 3 s' /\ 0 <= ticks s' <= max_ticks /\ finished s'.
Proof.
  apply (X8_simulation_never_raises adj3 nodes3 [3; 1; 0] 2 [0; 1]%nat 9 1000).
  - intros u v w He.
    pose proof (check_graph_spec (weight_ok 3) adj3 u (v, w) eq_refl He) as H.
    unfold weight_ok in H. apply andb_true_iff in H as [H _].
    apply Nat.ltb_lt in H. exact H.
  - simpl. lia.
  - repeat constructor; simpl; lia.
  - simpl. unfold N_AMB. lia.
  - repeat constructor; lia.
  - simpl. lia.
  - intros counts' maxc Hc Hm. apply (exact_nonneg_costs adj3 _ 1 2 maxc 3).
    + discriminate.
    + discriminate.
    + destruct (ReplannerFacts.max_count_spec _ _ Hm) as [H _]. exact H.
    + exact Hc.
    + reflexivity.
  - vm_compute. lia.
  - vm_compute. lia.
Defined.

(** What that simulation computes: both ambulances done after three ticks. *)
Example simulation_of_the_chain :
  simulate 1000 9 adj3 nodes3 [3; 1; 0] 2 [0; 1]%nat
  = Ret (Sim [Ambulance 0 [0; 1; 2]%nat 2 true; Ambulance 1 [1; 2]%nat 1 true]
             [2; 0; 0] [[41943040; 41984000; 41984000]; [41984000; 41984000]] 3).
Proof. vm_compute. reflexivity. Qed.
End LoopScenario.

(** ** The runtime controller *)
Module ControllerFacts.
Import Words Controller.

Lemma set_green_spec window : forall lights,
  Forall (fun ni => (ni < length lights)%nat) window ->
  exists lights',
    set_green lights window = Ret lights' /\
    length lights' = length lights /\
    forall j, lights' !! j =
      if decide (j ∈ window) then (fun _ => (1, 60)) <$> lights !! j else lights !! j.
Proof.
  induction window as [|ni rest IH]; intros lights Hw; simpl.
  - exists lights. split; [reflexivity|]. split; [reflexivity|].
    intros j. destruct (decide (j ∈ [])) as [Hin|_]; [inversion Hin|reflexivity].
  - inversion Hw as [|? ? Hni Hrest]; subst.
    destruct (Nat.ltb_spec ni (length lights)); [|lia].
    destruct (IH (<[ni := (1, 60)]> lights)) as (lights' & -> & Hl & Hj).
    { rewrite length_insert. exact Hrest. }
    exists lights'. split; [reflexivity|]. rewrite length_insert in Hl.
    split; [exact Hl|]. intros j. rewrite Hj.
    destruct (decide (ni = j)) as [-> | Hne].
    + rewrite list_lookup_insert_eq by assumption.
      destruct (lookup_lt_is_Some_2 lights j ltac:(lia)) as [x Hx]. rewrite Hx.
      destruct (decide (j ∈ j :: rest)) as [_|Hn]; [|exfalso; apply Hn; left].
      destruct (decide (j ∈ rest)); reflexivity.
    + rewrite list_lookup_insert_ne by exact Hne.
      destruct (decide (j ∈ rest)) as [Hin | Hnin];
        destruct (decide (j ∈ ni :: rest)) as [Hin' | Hnin']; try reflexivity.
      * exfalso. apply Hnin'. right. exact Hin.
      * exfalso. apply elem_of_cons in Hin' as [-> | Hin']; contradiction.
Qed.



Lemma controller_loop_app nodes path pc ts1 : forall ts2 st,
  controller_loop nodes path pc (ts1 ++ ts2) st =
  (st' ← controller_loop nodes path pc ts1 st; controller_loop nodes path pc ts2 st').
Proof.
  induction ts1 as [|t ts1 IH]; intros ts2 st; simpl; [reflexivity|].
  destruct (controller_tick nodes path pc st t); simpl; [apply IH|reflexivity|reflexivity].
Qed.

Lemma initial_lights_length N orig : length (initial_lights N orig) = N.
Proof.
  destruct orig as [vals|]; simpl; [|apply length_replicate].
  rewrite length_app, length_fmap, length_take, length_replicate. lia.
Qed.


Lemma elem_of_take_lookup (l : list nat) n j :
  j ∈ take n l <-> exists i, (i < n)%nat /\ l !! i = Some j.
Proof.
  rewrite list_elem_of_lookup. split.
  - intros [i Hi]. apply lookup_take_Some in Hi as [Hi Hlt]. eauto.
  - intros (i & Hlt & Hi). exists i. apply lookup_take_Some. auto.
Qed.

Lemma elem_of_window (l : list nat) k n j :
  j ∈ take n (drop k l) <-> exists i, (k <= i < k + n)%nat /\ l !! i = Some j.
Proof.
  rewrite elem_of_take_lookup. split.
  - intros (i & Hlt & Hi). rewrite lookup_drop in Hi. exists (k + i)%nat. split; [lia|exact Hi].
  - intros (i & Hlt & Hi). exists (i - k)%nat. split; [lia|].
    rewrite lookup_drop. replace (k + (i - k))%nat with i by lia. exact Hi.
Qed.

Section Ticks.
Variables (nodes : list (Z * Z)) (path : list nat) (pc : nat) (lights0 : list (Z * Z)).
Hypothesis Hlen : length lights0 = length nodes.
Hypothesis Hpath : Forall (fun j => (j < length nodes)%nat) path.
Hypothesis Hpc : (1 <= pc)%nat.

Local Abbreviation covered := (Controller.covered pc).
Local Abbreviation tick_inv := (Controller.tick_inv nodes path pc lights0).

Lemma tick_inv_0 : tick_inv 0 (lights0, []).
Proof.
  constructor; simpl.
  - exact Hlen.
  - rewrite take_0. constructor.
  - intros j _. destruct (lights0 !! j); reflexivity.
  - intros j Hj. rewrite take_0 in Hj. inversion Hj.
  - intros k' j Hk. discriminate.
Qed.

Lemma covered_elem k j :
  j ∈ take (covered (S k)) path <->
  j ∈ take (covered k) path \/ j ∈ take pc (drop k path).
Proof.
  rewrite elem_of_window, !elem_of_take_lookup. simpl. split.
  - intros (i & Hlt & Hi).
    destruct (Nat.lt_ge_cases i k); [left | right]; exists i; split; auto.
    destruct k; simpl; lia.
  - intros [(i & Hlt & Hi) | (i & Hlt & Hi)]; exists i; split; auto; try lia.
    destruct k; simpl in *; lia.
Qed.

Lemma tick_step k st :
  (k < length path)%nat -> tick_inv k st ->
  exists st', controller_tick nodes path pc st k = Ret st' /\ tick_inv (S k) st'.
Proof.
  intros Hk [I1 I2 I3 I4 I5]. unfold controller_tick.
  destruct (lookup_lt_is_Some_2 path k Hk) as [current Hcur]. rewrite Hcur. simpl.
  assert (Hw : Forall (fun ni => (ni < length (decrement_timer <$> fst st))%nat)
                      (take pc (drop k path))).
  { rewrite length_fmap, I1. apply Forall_forall. intros j Hj.
    apply elem_of_window in Hj as (i & _ & Hi).
    eapply Forall_lookup_1 in Hpath; eauto. }
  destruct (set_green_spec _ _ Hw) as (lights' & -> & Hl' & Hj'). simpl.
  assert (HcurN : (current < length nodes)%nat) by (eapply Forall_lookup_1 in Hpath; eauto).
  destruct (lookup_lt_is_Some_2 nodes current HcurN) as [p Hp]. rewrite Hp. simpl.
  eexists. split; [reflexivity|]. constructor; cbn [fst snd].
  - rewrite Hl', length_fmap. exact I1.
  - rewrite (take_S_r _ _ _ Hcur). apply Forall2_app; [exact I2|].
    constructor; [eauto|constructor].
  - intros j Hj. rewrite covered_elem in Hj.
    rewrite Hj'. destruct (decide (j ∈ take pc (drop k path))) as [Hin|_]; [tauto|].
    rewrite list_lookup_fmap, I3 by tauto.
    destruct (lights0 !! j); reflexivity.
  - intros j Hj. rewrite covered_elem in Hj. rewrite Hj', list_lookup_fmap.
    destruct (decide (j ∈ take pc (drop k path))) as [Hin|Hnin].
    + apply elem_of_window in Hin as (i & _ & Hi).
      assert (HjN : (j < length (fst st))%nat).
      { rewrite I1. eapply Forall_lookup_1 in Hpath; eauto. }
      destruct (lookup_lt_is_Some_2 _ _ HjN) as [x Hx]. rewrite Hx. simpl.
      exists 60. split; [reflexivity|lia].
    + destruct Hj as [Hj | Hj]; [|contradiction].
      destruct (I4 j Hj) as (tm & Htm & Hr). rewrite Htm. simpl.
      unfold decrement_timer; simpl. destruct (Z.ltb_spec 0 tm); simpl.
      * exists (Z.max 0 (tm - 1)). split; [reflexivity|lia].
      * exists tm. split; [reflexivity|lia].
  - intros k' j Hk' Hin. inversion Hk'; subst k'. rewrite Hj', list_lookup_fmap.
    destruct (decide (j ∈ take pc (drop k path))) as [_|Hnin]; [|contradiction].
    apply elem_of_window in Hin as (i & _ & Hi).
    assert (HjN : (j < length (fst st))%nat).
    { rewrite I1. eapply Forall_lookup_1 in Hpath; eauto. }
    destruct (lookup_lt_is_Some_2 _ _ HjN) as [x Hx]. rewrite Hx. reflexivity.
Qed.

Lemma ticks_return k :
  (k <= length path)%nat ->
  exists st, controller_loop nodes path pc (seq 0 k) (lights0, []) = Ret st /\
             tick_inv k st.
Proof.
  induction k as [|k IH]; intros Hk.
  - exists (lights0, []). split; [reflexivity|apply tick_inv_0].
  - destruct IH as (st & Hst & Hinv); [lia|].
    destruct (tick_step k st ltac:(lia) Hinv) as (st' & Ht & Hinv').
    exists st'. split; [|exact Hinv'].
    rewrite seq_S, controller_loop_app, Hst. simpl. rewrite Ht. reflexivity.
Qed.

End Ticks.

Lemma preempt_count_pos L : (1 <= Z.to_nat (preempt_count L))%nat.
Proof. unfold preempt_count. lia. Qed.



(** X9: while the runtime controller replays a route whose junctions are
    all on the map, at the end of every tick the junction the ambulance
    stands at is GREEN with the full timer of 60, every junction it stood at
    before is still GREEN (with a timer between 0 and 60), and one frame has
    been recorded for each tick so far. *)
Theorem X9_ambulance_junction_green nodes orig path t j :
  Forall (fun j => (j < length nodes)%nat) path ->
  path !! t = Some j ->
  exists lights frames,
    controller_after nodes orig path (S t) = Ret (lights, frames) /\
    lights !! j = Some (1, 60) /\
    (forall i j', (i <= t)%nat -> path !! i = Some j' ->
       exists tm, lights !! j' = Some (1, tm) /\ 0 <= tm <= 60) /\
    length frames = S t.
Proof.
  intros Hpath Ht. unfold controller_after.
  set (pc := Z.to_nat (preempt_count (length path))).
  pose proof (preempt_count_pos (length path)) as Hpc. fold pc in Hpc.
  pose proof (lookup_lt_Some _ _ _ Ht) as HtL.
  destruct (ticks_return nodes path pc (initial_lights (length nodes) orig)
              (initial_lights_length _ _) Hpath Hpc (S t) ltac:(lia))
    as ([lights frames] & Hr & [I1 I2 I3 I4 I5]).
  exists lights, frames. split; [exact Hr|]. simpl in *. split; [|split].
  - apply (I5 t j eq_refl). apply elem_of_window.
    exists t. split; [lia|exact Ht].
  - intros i j' Hi Hj'. apply I4. apply elem_of_take_lookup.
    exists i. split; [simpl; lia|exact Hj'].
  - apply Forall2_length in I2. rewrite <- I2, length_take. lia.
Qed.


(** The three junctions of the chain, replayed to the second tick. *)
Lemma X9_ambulance_junction_green_witness :
  exists lights frames,
    controller_after ExactFloat.nodes3 None [0; 1; 2]%nat 2 = Ret (lights, frames) /\
    lights !! 1%nat = Some (1, 60) /\
    (forall i j', (i <= 1)%nat -> [0; 1; 2]%nat !! i = Some j' ->
       exists tm, lights !! j' = Some (1, tm) /\ 0 <= tm <= 60) /\
    length frames = 2%nat.
Proof.
  apply (X9_ambulance_junction_green ExactFloat.nodes3 None [0; 1; 2]%nat 1 1).
  - repeat constructor; simpl; lia.
  - reflexivity.
Defined.

End ControllerFacts.

(** ** The tiers and the timings of a whole route *)
Module Stage2SetupFacts.
Import Stage2Tiers.
Import Binary64 Stage2Rules Stage2Facts.

(** *** The tiers of a route *)

Lemma assign_tiers_snoc n1 n2 path ni :
  assign_tiers n1 n2 (path ++ [ni]) =
  <[ni := tier_at n1 n2 (length path)]> (assign_tiers n1 n2 path).
Proof.
  unfold assign_tiers. rewrite imap_app, fold_left_app. simpl.
  rewrite Nat.add_0_r. reflexivity.
Qed.

(** The tier of a junction is the tier of the last position it has on the
    route. *)
Lemma assign_tiers_lookup n1 n2 path : forall ni,
  (ni ∉ path -> assign_tiers n1 n2 path !! ni = None) /\
  (forall i, path !! i = Some ni ->
     (forall i', (i < i')%nat -> path !! i' <> Some ni) ->
     assign_tiers n1 n2 path !! ni = Some (tier_at n1 n2 i)).
Proof.
  induction path as [|x path IH] using rev_ind; intros ni.
  - split; [intros _; apply lookup_empty|]. intros i Hi. discriminate.
  - rewrite assign_tiers_snoc. destruct (IH ni) as [IH1 IH2]. split.
    + intros Hn. rewrite not_elem_of_app, not_elem_of_cons in Hn.
      destruct Hn as [Hn1 [Hn2 _]].
      rewrite lookup_insert_ne by congruence. apply IH1. exact Hn1.
    + intros i Hi Hlast. destruct (decide (x = ni)) as [-> | Hne].
      * rewrite lookup_insert_eq. f_equal. f_equal.
        destruct (Nat.lt_trichotomy i (length path)) as [Hlt | [-> | Hgt]]; [|reflexivity|].
        -- exfalso. apply (Hlast (length path) Hlt).
           rewrite lookup_app_r, Nat.sub_diag by lia. reflexivity.
        -- apply lookup_lt_Some in Hi. rewrite length_app in Hi. simpl in Hi. lia.
      * rewrite lookup_insert_ne by exact Hne.
        assert (Hlt : (i < length path)%nat).
        { pose proof (lookup_lt_Some _ _ _ Hi) as Hb.
          rewrite length_app in Hb. simpl in Hb.
          destruct (Nat.eq_dec i (length path)) as [-> | ?]; [|lia].
          rewrite lookup_app_r, Nat.sub_diag in Hi by lia. simpl in Hi. congruence. }
        apply IH2.
        -- rewrite lookup_app_l in Hi by exact Hlt. exact Hi.
        -- intros i' Hi' E. apply (Hlast i' Hi'). rewrite lookup_app_l; [exact E|].
           apply lookup_lt_Some in E. exact E.
Qed.


Lemma last_occurrence (path : list nat) ni :
  ni ∈ path ->
  exists i, path !! i = Some ni /\ forall i', (i < i')%nat -> path !! i' <> Some ni.
Proof.
  induction path as [|x path IH] using rev_ind; intros Hin; [inversion Hin|].
  destruct (decide (x = ni)) as [-> | Hne].
  - exists (length path). split.
    + rewrite lookup_app_r, Nat.sub_diag by lia. reflexivity.
    + intros i' Hi' E. apply lookup_lt_Some in E. rewrite length_app in E. simpl in E. lia.
  - apply elem_of_app in Hin as [Hin | Hin].
    2:{ apply list_elem_of_singleton in Hin. congruence. }
    destruct (IH Hin) as (i & Hi & Hlast). exists i. split.
    + rewrite lookup_app_l; [exact Hi|]. apply lookup_lt_Some in Hi. exact Hi.
    + intros i' Hi' E.
      destruct (Nat.lt_ge_cases i' (length path)) as [Hlt | Hge].
      * rewrite lookup_app_l in E by exact Hlt. exact (Hlast i' Hi' E).
      * pose proof (lookup_lt_Some _ _ _ E) as Hb. rewrite length_app in Hb. simpl in Hb.
        replace i' with (length path) in E by lia.
        rewrite lookup_app_r, Nat.sub_diag in E by lia. simpl in E. congruence.
Qed.

(** *** The modifiers *)

(** What the loop makes of the entries of a junction of tier [t]. *)
Lemma tier_modifier_again t sel oth :
  tier_modifier t (fst (tier_modifier t sel oth)) (snd (tier_modifier t sel oth))
  = tier_modifier t sel oth.
Proof. destruct t; reflexivity. Qed.

Lemma tier_modifier_base_Y (t : tier) sel oth :
  tY sel = Y_T -> tY oth = Y_T -> tR oth = R_T ->
  tier_modifier t sel oth = tier_modifier t base_timings base_timings.
Proof. intros H1 H2 H3. destruct t; simpl; rewrite H1, H2, H3; reflexivity. Qed.

Lemma modified_init tiers N :
  modified tiers N [] (all_junctions N base_timings, all_junctions N base_timings).
Proof.
  intros ni. split.
  - intros Hlt. exists base_timings, base_timings. simpl.
    rewrite !all_junctions_lookup by exact Hlt.
    split; [reflexivity|]. split; [reflexivity|]. split; [auto|].
    intros Hin. inversion Hin.
  - intros Hge. simpl. unfold all_junctions.
    assert (H : (list_to_map ((fun i => (i, base_timings)) <$> seq 0 N)
                   : gmap nat timings) !! ni = None).
    { apply not_elem_of_list_to_map_1. rewrite <- list_fmap_compose. simpl.
      rewrite list_fmap_id. rewrite elem_of_seq. lia. }
    split; exact H.
Qed.

Lemma apply_modifiers_spec tiers N path : forall seen st,
  modified tiers N seen st ->
  Forall (fun ni => is_Some (tiers !! ni)) path ->
  (Forall (fun ni => (ni < N)%nat) path ->
   exists st', apply_modifiers tiers path st = Some st' /\
               modified tiers N (seen ++ path) st') /\
  (~ Forall (fun ni => (ni < N)%nat) path -> apply_modifiers tiers path st = None).
Proof.
  induction path as [|ni path IH]; intros seen st Hm Ht.
  - split; [|intros Hn; exfalso; apply Hn; constructor].
    intros _. exists st. rewrite app_nil_r. split; [reflexivity|exact Hm].
  - inversion Ht as [|? ? [t Htier] Hrest]; subst.
    destruct (Nat.lt_ge_cases ni N) as [Hlt | Hge].
    2:{ split; [intros Hf; inversion Hf; lia|]. intros _. simpl. unfold modify_junction.
        rewrite Htier. simpl. destruct (Hm ni) as [_ Hnone].
        destruct (Hnone Hge) as [-> _]. reflexivity. }
    destruct (Hm ni) as [Hsome _]. destruct (Hsome Hlt) as (sel & oth & Hs & Ho & Hbase & Hseen).
    assert (Hmod : tier_modifier t sel oth = tier_modifier t base_timings base_timings).
    { destruct (decide (ni ∈ seen)) as [Hin | Hnin].
      - destruct (Hseen Hin) as (t' & Ht' & E). rewrite Htier in Ht'. inversion Ht'; subst t'.
        pose proof (tier_modifier_again t base_timings base_timings) as Ha.
        rewrite <- E in Ha. simpl in Ha. rewrite Ha. exact E.
      - destruct (Hbase Hnin) as [-> ->]. reflexivity. }
    simpl. unfold modify_junction. rewrite Htier, Hs, Ho. simpl. rewrite Hmod.
    destruct (tier_modifier t base_timings base_timings) as [sel' oth'] eqn:Etm.
    simpl.
    assert (Hm1 : modified tiers N (seen ++ [ni]) (<[ni := sel']> (fst st), <[ni := oth']> (snd st))).
    { intros nj. destruct (Hm nj) as [Hj1 Hj2]. split.
      - intros Hjlt. simpl. destruct (decide (ni = nj)) as [<- | Hne].
        + rewrite !lookup_insert_eq. exists sel', oth'.
          split; [reflexivity|]. split; [reflexivity|]. split.
          * intros Hn. exfalso. apply Hn. apply elem_of_app. right. left.
          * intros _. exists t. split; [exact Htier|symmetry; exact Etm].
        + rewrite !lookup_insert_ne by exact Hne.
          destruct (Hj1 Hjlt) as (s & o & H1 & H2 & H3 & H4).
          exists s, o. split; [exact H1|]. split; [exact H2|]. split.
          * intros Hn. apply H3. intros Hin. apply Hn. apply elem_of_app. left. exact Hin.
          * intros Hin. apply H4. apply elem_of_app in Hin as [Hin | Hin]; [exact Hin|].
            apply list_elem_of_singleton in Hin. congruence.
      - intros Hjge. simpl. rewrite !lookup_insert_ne by lia. apply Hj2. exact Hjge. }
    destruct (IH _ _ Hm1 Hrest) as [IH1 IH2]. split.
    + intros Hf. inversion Hf; subst. destruct (IH1 ltac:(assumption)) as (st' & Hr & Hm').
      exists st'. split; [exact Hr|]. rewrite <- app_assoc in Hm'. exact Hm'.
    + intros Hn. apply IH2. intros Hf. apply Hn. constructor; assumption.
Qed.

Lemma preempt_all_spec (selected : gmap nat timings) idxs : forall state,
  Forall (fun idx => is_Some (selected !! idx)) idxs ->
  exists state', preempt_all selected idxs state = Some state' /\
    forall ni, state' !! ni =
      if decide (ni ∈ idxs) then (fun sel => (1, tG sel)) <$> selected !! ni
      else state !! ni.
Proof.
  induction idxs as [|idx idxs IH]; intros state Hs; simpl.
  - exists state. split; [reflexivity|]. intros ni.
    destruct (decide (ni ∈ [])) as [Hin|_]; [inversion Hin|reflexivity].
  - inversion Hs as [|? ? [sel Hsel] Hrest]; subst.
    unfold preempt. rewrite Hsel. simpl.
    destruct (IH (<[idx := (1, tG sel)]> state) Hrest) as (state' & -> & Hl).
    exists state'. split; [reflexivity|]. intros ni. rewrite Hl.
    destruct (decide (ni ∈ idxs)) as [Hin | Hnin];
      destruct (decide (ni ∈ idx :: idxs)) as [Hin' | Hnin']; try reflexivity.
    + exfalso. apply Hnin'. right. exact Hin.
    + apply elem_of_cons in Hin' as [-> | Hin']; [|contradiction].
      rewrite lookup_insert_eq, Hsel. reflexivity.
    + rewrite lookup_insert_ne; [reflexivity|]. intros ->. apply Hnin'. left.
Qed.

(** The timings of the three tiers, in ticks. *)
Example tier_timings :
  tier_modifier tier1 base_timings base_timings = (Timings 120 10 7, Timings 0 10 30) /\
  tier_modifier tier2 base_timings base_timings = (Timings 90 10 15, Timings 30 10 30) /\
  tier_modifier tier3 base_timings base_timings = (Timings 60 10 18, Timings 60 10 30).
Proof. repeat split; vm_compute; reflexivity. Qed.


Lemma route_has_tiers n1 n2 path :
  Forall (fun ni => is_Some (assign_tiers n1 n2 path !! ni)) path.
Proof.
  apply Forall_forall. intros ni Hin.
  destruct (last_occurrence path ni Hin) as (i & Hi & Hlast).
  destruct (assign_tiers_lookup n1 n2 path ni) as [_ H]. rewrite (H i Hi Hlast). eauto.
Qed.

(** X11: lines 100-151 of stage2_full_rules.py, for any route on a map of
    [N] junctions.  The set-up succeeds exactly when every route junction is
    on the map (another one is a [KeyError]).  When it succeeds, a junction
    off the route keeps the base timings; a route junction has the timings
    of the tier of its last position on the route, however often the loop
    visits it; a junction among the first [n1] of the route starts GREEN
    with its green duration and every other junction starts RED with its
    red duration; and there is no entry past the map. *)
Theorem X11_stage2_setup (N : nat) (path : list nat) :
  let '(n1, n2, n3) := partition_counts (Z.of_nat (length path)) in
  (is_Some (stage2_setup N path) <-> Forall (fun ni => (ni < N)%nat) path) /\
  forall s, stage2_setup N path = Some s ->
    counts3 s = (n1, n2, n3) /\
    forall ni,
      ((ni < N)%nat ->
       exists sel oth,
         selected_timings s !! ni = Some sel /\ others_timings s !! ni = Some oth /\
         (ni ∉ path -> sel = base_timings /\ oth = base_timings) /\
         (forall i, path !! i = Some ni ->
            (forall i', (i < i')%nat -> path !! i' <> Some ni) ->
            (sel, oth) = tier_modifier (tier_at n1 n2 i) base_timings base_timings) /\
         sim_selected_state s !! ni =
           Some (if decide (ni ∈ take (Z.to_nat n1) path)
                 then (1, tG sel) else (0, tR sel))) /\
      ((N <= ni)%nat ->
       selected_timings s !! ni = None /\ others_timings s !! ni = None /\
       sim_selected_state s !! ni = None).
Proof.
  unfold stage2_setup.
  destruct (partition_counts (Z.of_nat (length path))) as [[n1 n2] n3].
  set (tiers := assign_tiers n1 n2 path).
  pose proof (route_has_tiers n1 n2 path) as Ht. fold tiers in Ht.
  destruct (apply_modifiers_spec tiers N path [] _ (modified_init tiers N) Ht) as [Hok Hbad].
  destruct (decide (Forall (fun ni => (ni < N)%nat) path)) as [Hf | Hnf].
  2:{ rewrite (Hbad Hnf). simpl. split; [|intros s Hs; discriminate].
      split; [intros [s Hs]; discriminate|contradiction]. }
  destruct (Hok Hf) as ([sel oth] & Hr & Hm). rewrite Hr. simpl in Hm |- *.
  assert (Hsel : Forall (fun idx => is_Some (sel !! idx)) (take (Z.to_nat n1) path)).
  { apply Forall_take. apply Forall_forall. intros ni Hin.
    rewrite Forall_forall in Hf. destruct (Hm ni) as [H1 _].
    destruct (H1 (Hf ni Hin)) as (x & _ & Hx & _). simpl in Hx. eauto. }
  destruct (preempt_all_spec sel _ ((fun t => (0, tR t)) <$> sel) Hsel) as (state' & -> & Hst).
  simpl. split; [split; [intros _; exact Hf|eauto]|].
  intros s Hs. inversion Hs; subst s; clear Hs. simpl. split; [reflexivity|].
  intros ni. destruct (Hm ni) as [H1 H2]. split.
  - intros Hlt. destruct (H1 Hlt) as (x & o & Hx & Ho & Hbase & Hseen). simpl in Hx, Ho.
    exists x, o. split; [exact Hx|]. split; [exact Ho|]. split; [exact Hbase|]. split.
    + intros i Hi Hlast. destruct (Hseen (list_elem_of_lookup_2 _ _ _ Hi)) as (t & Ht' & E).
      destruct (assign_tiers_lookup n1 n2 path ni) as [_ Hl].
      unfold tiers in Ht'. rewrite (Hl i Hi Hlast) in Ht'. inversion Ht'; subst t. exact E.
    + rewrite Hst. rewrite Hx, lookup_fmap, Hx. simpl.
      destruct (decide (ni ∈ take (Z.to_nat n1) path)); reflexivity.
  - intros Hge. destruct (H2 Hge) as [Hn1 Hn2]. simpl in Hn1, Hn2.
    split; [exact Hn1|]. split; [exact Hn2|]. rewrite Hst.
    destruct (decide (ni ∈ take (Z.to_nat n1) path)) as [Hin | _].
    + rewrite Hn1. reflexivity.
    + rewrite lookup_fmap, Hn1. reflexivity.
Qed.

(** *** The sizes of the tiers *)

Lemma partition_counts_bounds L n1 n2 n3 :
  4 <= L -> partition_counts L = (n1, n2, n3) ->
  1 <= n1 /\ 3 <= n2 /\ 0 <= n3 /\ n1 + n2 + n3 = L.
Proof.
  intros HL. pose proof (raw_counts_fit L HL) as Hfit.
  unfold partition_counts.
  set (a := Z.max 1 (py_round (fmul lit_0_15 (of_int L)))) in *.
  set (b := Z.max 3 (py_round (fmul lit_0_40 (of_int L)))) in *.
  assert (H1 : 1 <= a) by (unfold a; lia).
  assert (H2 : 3 <= b) by (unfold b; lia).
  clearbody a b.
  destruct (Z.ltb_spec (L - a - b) 4).
  - destruct (Z.ltb_spec (L - a - b + Z.min (4 - (L - a - b)) (b - 3)) 0); [lia|].
    intros E; inversion E; subst; lia.
  - destruct (Z.ltb_spec (L - a - b) 0); [lia|].
    intros E; inversion E; subst; lia.
Qed.

Lemma filter_positions {A} (P : A -> bool) (Q : nat -> bool) (l : list A) : forall k,
  (forall i x, l !! i = Some x -> P x = Q (k + i)%nat) ->
  length (List.filter P l) = length (List.filter Q (seq k (length l))).
Proof.
  induction l as [|x l IH]; intros k H; [reflexivity|].
  assert (E : P x = Q k) by (rewrite (H 0%nat x eq_refl); f_equal; lia).
  simpl. rewrite <- E.
  assert (IH' : length (List.filter P l) = length (List.filter Q (seq (S k) (length l)))).
  { apply IH. intros i y Hi. rewrite (H (S i) y Hi). f_equal. lia. }
  destruct (P x); simpl; rewrite IH'; reflexivity.
Qed.

Lemma tier_positions n1 n2 L :
  0 <= n1 -> 0 <= n2 ->
  let count t := Z.of_nat (length (List.filter (fun i => tier_eqb t (tier_at n1 n2 i))
                                               (seq 0 L))) in
  count tier1 = Z.min (Z.of_nat L) n1 /\
  count tier2 = Z.min (Z.of_nat L) (n1 + n2) - Z.min (Z.of_nat L) n1 /\
  count tier3 = Z.of_nat L - Z.min (Z.of_nat L) (n1 + n2).
Proof.
  intros H1 H2. cbv zeta. induction L as [|L IH]; [simpl; lia|].
  rewrite seq_S, !List.filter_app, !List.length_app, !Nat2Z.inj_add.
  destruct IH as (-> & -> & ->).
  cbn [List.filter]. change (0 + L)%nat with L. unfold tier_at.
  destruct (Z.ltb_spec (Z.of_nat L) n1); [cbn [tier_eqb length]; lia|].
  destruct (Z.ltb_spec (Z.of_nat L) (n1 + n2)); cbn [tier_eqb length]; lia.
Qed.

(** X12: on a route of at least four junctions that visits no junction
    twice, the tiers have exactly the sizes [partition_counts] returns:
    [n1] junctions in tier 1, [n2] in tier 2 and [n3] in tier 3. *)
Theorem X12_tier_sizes (path : list nat) :
  NoDup path -> (4 <= length path)%nat ->
  let '(n1, n2, n3) := partition_counts (Z.of_nat (length path)) in
  let tiers := assign_tiers n1 n2 path in
  Z.of_nat (tier_size tiers tier1 path) = n1 /\
  Z.of_nat (tier_size tiers tier2 path) = n2 /\
  Z.of_nat (tier_size tiers tier3 path) = n3.
Proof.
  intros Hnd HL.
  destruct (partition_counts (Z.of_nat (length path))) as [[n1 n2] n3] eqn:Ep.
  destruct (partition_counts_bounds (Z.of_nat (length path)) n1 n2 n3 ltac:(lia) Ep) as (H1 & H2 & H3 & Hsum).
  cbv zeta. unfold tier_size.
  assert (Hpos : forall t i ni, path !! i = Some ni ->
            match assign_tiers n1 n2 path !! ni with
            | Some t' => tier_eqb t t'
            | None => false
            end = tier_eqb t (tier_at n1 n2 (0 + i))).
  { intros t i ni Hi. destruct (assign_tiers_lookup n1 n2 path ni) as [_ Hl].
    rewrite (Hl i Hi); [reflexivity|].
    intros i' Hi' E. pose proof (NoDup_lookup _ _ _ _ Hnd Hi E). lia. }
  rewrite (filter_positions _ (fun i => tier_eqb tier1 (tier_at n1 n2 i)) path 0 (Hpos tier1)).
  rewrite (filter_positions _ (fun i => tier_eqb tier2 (tier_at n1 n2 i)) path 0 (Hpos tier2)).
  rewrite (filter_positions _ (fun i => tier_eqb tier3 (tier_at n1 n2 i)) path 0 (Hpos tier3)).
  destruct (tier_positions n1 n2 (length path) ltac:(lia) ltac:(lia)) as (T1 & T2 & T3).
  rewrite T1, T2, T3. lia.
Qed.


(** The route of seven junctions on a map of eight: junction 6 is in tier 3,
    junction 7 is off the route. *)
Lemma X11_stage2_setup_witness :
  exists s, stage2_setup 8 route7 = Some s /\
    selected_timings s !! 6%nat = Some (Timings 60 10 18) /\
    sim_selected_state s !! 0%nat = Some (1, 120) /\
    sim_selected_state s !! 7%nat = Some (0, 30).
Proof.
  pose proof (X11_stage2_setup 8 route7) as H.
  change (partition_counts (Z.of_nat (length route7))) with (1, 3, 3) in H.
  cbv beta iota in H. destruct H as [Hiff Hres].
  destruct (proj2 Hiff) as [s Hs]; [unfold route7; repeat constructor; lia|].
  exists s. split; [exact Hs|]. destruct (Hres s Hs) as [_ Hni].
  split; [|split].
  - destruct (proj1 (Hni 6%nat) ltac:(lia)) as (sel & oth & -> & _ & _ & Hlast & _).
    specialize (Hlast 6%nat eq_refl).
    assert (E : (sel, oth) = tier_modifier (tier_at 1 3 6) base_timings base_timings).
    { apply Hlast. intros i' Hi' E. apply lookup_lt_Some in E. simpl in E. lia. }
    inversion E. reflexivity.
  - destruct (proj1 (Hni 0%nat) ltac:(lia)) as (sel & oth & _ & _ & _ & Hlast & ->).
    specialize (Hlast 0%nat eq_refl).
    assert (E : (sel, oth) = tier_modifier (tier_at 1 3 0) base_timings base_timings).
    { apply Hlast. intros i' Hi' E. destruct i' as [|[|[|[|[|[|[|i']]]]]]]; try lia;
        simpl in E; try discriminate. }
    inversion E. reflexivity.
  - destruct (proj1 (Hni 7%nat) ltac:(lia)) as (sel & oth & _ & _ & Hoff & _ & ->).
    destruct Hoff as [-> _]; [|reflexivity].
    unfold route7. intros Hin. repeat (apply elem_of_cons in Hin as [Hin | Hin]; [discriminate|]).
    inversion Hin.
Defined.

(** The route of seven junctions: one, three and three. *)
Lemma X12_tier_sizes_witness :
  Z.of_nat (tier_size (assign_tiers 1 3 route7) tier1 route7) = 1 /\
  Z.of_nat (tier_size (assign_tiers 1 3 route7) tier2 route7) = 3 /\
  Z.of_nat (tier_size (assign_tiers 1 3 route7) tier3 route7) = 3.
Proof.
  assert (Hnd : NoDup route7).
  { unfold route7.
    repeat (apply NoDup_cons_2; [rewrite ?elem_of_cons, elem_of_nil; lia|]).
    apply NoDup_nil_2. }
  assert (HL : (4 <= length route7)%nat) by (simpl; lia).
  pose proof (X12_tier_sizes route7 Hnd HL) as H.
  change (partition_counts (Z.of_nat (length route7))) with (1, 3, 3) in H.
  exact H.
Defined.

End Stage2SetupFacts.

(** ** The rasterizer *)
Module RasterFacts.
Import Words Raster.

Lemma pixel_index_bound x y :
  on_screen x y = true -> (pixel_index x y < Z.to_nat (WIDTH * HEIGHT))%nat.
Proof.
  unfold on_screen, pixel_index, WIDTH, HEIGHT. intros H.
  apply andb_true_iff in H as [H Hy2]. apply andb_true_iff in H as [H Hy1].
  apply andb_true_iff in H as [Hx1 Hx2]. lia.
Qed.

Lemma set_pixel_spec buf x y color :
  length buf = Z.to_nat (WIDTH * HEIGHT) ->
  exists buf', set_pixel buf x y color = Ret buf' /\ length buf' = length buf /\
    (on_screen x y = true -> buf' !! pixel_index x y = Some color) /\
    (forall k, buf !! k = Some color -> buf' !! k = Some color) /\
    (forall k, buf' !! k <> buf !! k ->
       buf' !! k = Some color /\ on_screen x y = true /\ k = pixel_index x y).
Proof.
  intros Hlen. unfold set_pixel. destruct (on_screen x y) eqn:Eon.
  - pose proof (pixel_index_bound x y Eon) as Hb.
    destruct (Nat.ltb_spec (pixel_index x y) (length buf)); [|lia].
    eexists. split; [reflexivity|]. rewrite length_insert.
    split; [reflexivity|]. split; [|split].
    + intros _. apply list_lookup_insert_eq. lia.
    + intros k Hk. destruct (decide (pixel_index x y = k)) as [<- | Hne].
      * apply list_lookup_insert_eq. lia.
      * rewrite list_lookup_insert_ne by exact Hne. exact Hk.
    + intros k Hk. destruct (decide (pixel_index x y = k)) as [<- | Hne].
      * split; [apply list_lookup_insert_eq; lia|]. auto.
      * rewrite list_lookup_insert_ne in Hk by exact Hne. contradiction.
  - exists buf. split; [reflexivity|]. split; [reflexivity|]. split; [discriminate|].
    split; [auto|]. intros k Hk. contradiction.
Qed.

(** *** Bresenham's loop

    After [i] steps in x and [j] steps in y the error term is
    [dx - D - i * D + j * dx], where [D] is the absolute difference in y;
    a step in x is never taken at [i = dx], nor one in y at [j = D]. *)
Section Line.
Variables (X0 Y0 x1 y1 color : Z).
Let dx := Z.abs (x1 - X0).
Let D := Z.abs (y1 - Y0).
Let sx := if X0 <? x1 then 1 else -1.
Let sy := if Y0 <? y1 then 1 else -1.

Lemma line_loop_returns (fuel : nat) : forall (i j : Z) (buf : list Z),
  0 <= i <= dx -> 0 <= j <= D ->
  (dx - i) + (D - j) < Z.of_nat fuel ->
  length buf = Z.to_nat (WIDTH * HEIGHT) ->
  exists buf',
    line_loop fuel buf (X0 + sx * i) (Y0 + sy * j) x1 y1 dx (- D) sx sy
              (dx - D - i * D + j * dx) color = Ret buf' /\
    length buf' = length buf /\
    (on_screen x1 y1 = true -> buf' !! pixel_index x1 y1 = Some color) /\
    (on_screen (X0 + sx * i) (Y0 + sy * j) = true ->
     buf' !! pixel_index (X0 + sx * i) (Y0 + sy * j) = Some color) /\
    (forall k, buf !! k = Some color -> buf' !! k = Some color) /\
    painted_within buf buf' color X0 Y0 x1 y1.
Proof.
  induction fuel as [|fuel IH]; intros i j buf Hi Hj Hfuel Hlen; [lia|].
  cbn [line_loop].
  destruct (set_pixel_spec buf (X0 + sx * i) (Y0 + sy * j) color Hlen)
    as (buf1 & -> & Hl1 & Hset & Hkeep & Hframe).
  cbn [mbind outcome_bind].
  assert (Hx1 : x1 = X0 + sx * dx) by (unfold sx, dx; destruct (Z.ltb_spec X0 x1); lia).
  assert (Hy1 : y1 = Y0 + sy * D) by (unfold sy, D; destruct (Z.ltb_spec Y0 y1); lia).
  assert (Hsx : sx = 1 \/ sx = -1) by (unfold sx; destruct (X0 <? x1); auto).
  assert (Hsy : sy = 1 \/ sy = -1) by (unfold sy; destruct (Y0 <? y1); auto).
  assert (Hbox : forall a b, 0 <= a <= dx -> 0 <= b <= D ->
            Z.min X0 x1 <= X0 + sx * a <= Z.max X0 x1 /\
            Z.min Y0 y1 <= Y0 + sy * b <= Z.max Y0 y1).
  { intros a b Ha Hb. rewrite Hx1, Hy1. destruct Hsx as [-> | ->], Hsy as [-> | ->]; lia. }
  assert (Hframe1 : painted_within buf buf1 color X0 Y0 x1 y1).
  { intros k Hk. destruct (Hframe k Hk) as (Hc & Hon & ->). split; [exact Hc|].
    exists (X0 + sx * i), (Y0 + sy * j). split; [exact Hon|]. split; [reflexivity|].
    apply Hbox; assumption. }
  destruct ((X0 + sx * i =? x1) && (Y0 + sy * j =? y1)) eqn:Eend.
  - apply andb_true_iff in Eend as [Ex Ey]. apply Z.eqb_eq in Ex, Ey.
    exists buf1. split; [reflexivity|]. split; [exact Hl1|]. split; [|split; [|split]].
    + rewrite <- Ex, <- Ey. exact Hset.
    + exact Hset.
    + exact Hkeep.
    + exact Hframe1.
  - assert (Hnot : ~ (i = dx /\ j = D)).
    { intros [-> ->]. rewrite <- Hx1, <- Hy1, !Z.eqb_refl in Eend. discriminate. }
    set (err := dx - D - i * D + j * dx).
    assert (HnoX : - D <= 2 * err -> i < dx).
    { intros Hc. destruct (Z.eq_dec i dx) as [-> | ?]; [|lia].
      exfalso. assert (j < D) by lia. unfold err in Hc. nia. }
    assert (HnoY : 2 * err <= dx -> j < D).
    { intros Hc. destruct (Z.eq_dec j D) as [-> | ?]; [|lia].
      exfalso. assert (i < dx) by lia. unfold err in Hc. nia. }
    assert (Hdx : 0 <= dx) by (unfold dx; lia).
    assert (HD : 0 <= D) by (unfold D; lia).
    cbv zeta.
    destruct (Z.leb_spec (- D) (2 * err)) as [Cx | Cx];
      destruct (Z.leb_spec (2 * err) dx) as [Cy | Cy]; try lia.
    + (* both steps *)
      specialize (HnoX Cx). specialize (HnoY Cy).
      destruct (IH (i + 1) (j + 1) buf1 ltac:(lia) ltac:(lia) ltac:(lia) ltac:(lia))
        as (buf' & Hr & Hl' & He & _ & Hk' & Hf').
      replace (X0 + sx * (i + 1)) with (X0 + sx * i + sx) in Hr by ring.
      replace (Y0 + sy * (j + 1)) with (Y0 + sy * j + sy) in Hr by ring.
      replace (dx - D - (i + 1) * D + (j + 1) * dx) with (err + - D + dx) in Hr
        by (unfold err; ring).
      exists buf'. split; [exact Hr|]. split; [lia|]. split; [exact He|].
      split; [intros Hon; apply Hk', Hset, Hon|]. split; [intros k Hk; apply Hk', Hkeep, Hk|].
      intros k Hk. destruct (decide (buf' !! k = buf1 !! k)) as [E | Hne].
      * rewrite E in Hk |- *. apply Hframe1. exact Hk.
      * apply Hf'. exact Hne.
    + (* x only *)
      specialize (HnoX Cx).
      destruct (IH (i + 1) j buf1 ltac:(lia) ltac:(lia) ltac:(lia) ltac:(lia))
        as (buf' & Hr & Hl' & He & _ & Hk' & Hf').
      replace (X0 + sx * (i + 1)) with (X0 + sx * i + sx) in Hr by ring.
      replace (dx - D - (i + 1) * D + j * dx) with (err + - D) in Hr
        by (unfold err; ring).
      exists buf'. split; [exact Hr|]. split; [lia|]. split; [exact He|].
      split; [intros Hon; apply Hk', Hset, Hon|]. split; [intros k Hk; apply Hk', Hkeep, Hk|].
      intros k Hk. destruct (decide (buf' !! k = buf1 !! k)) as [E | Hne].
      * rewrite E in Hk |- *. apply Hframe1. exact Hk.
      * apply Hf'. exact Hne.
    + (* y only *)
      specialize (HnoY Cy).
      destruct (IH i (j + 1) buf1 ltac:(lia) ltac:(lia) ltac:(lia) ltac:(lia))
        as (buf' & Hr & Hl' & He & _ & Hk' & Hf').
      replace (Y0 + sy * (j + 1)) with (Y0 + sy * j + sy) in Hr by ring.
      replace (dx - D - i * D + (j + 1) * dx) with (err + dx) in Hr
        by (unfold err; ring).
      exists buf'. split; [exact Hr|]. split; [lia|]. split; [exact He|].
      split; [intros Hon; apply Hk', Hset, Hon|]. split; [intros k Hk; apply Hk', Hkeep, Hk|].
      intros k Hk. destruct (decide (buf' !! k = buf1 !! k)) as [E | Hne].
      * rewrite E in Hk |- *. apply Hframe1. exact Hk.
      * apply Hf'. exact Hne.
Qed.
End Line.


(** X13: [draw_line] ends for all integer endpoints, within
    [|x1-x0| + |y1-y0| + 1] iterations, on a buffer of the size of the
    screen; it keeps the length of the buffer, paints both endpoints when
    they are on the screen, never repaints a pixel that had the colour, and
    every pixel it changes gets the colour and lies on the screen inside the
    rectangle spanned by the endpoints. *)
Theorem X13_draw_line (fuel : nat) (buf : list Z) (x0 y0 x1 y1 color : Z) :
  length buf = Z.to_nat (WIDTH * HEIGHT) ->
  Z.abs (x1 - x0) + Z.abs (y1 - y0) < Z.of_nat fuel ->
  exists buf',
    draw_line fuel buf x0 y0 x1 y1 color = Ret buf' /\
    length buf' = length buf /\
    (on_screen x0 y0 = true -> buf' !! pixel_index x0 y0 = Some color) /\
    (on_screen x1 y1 = true -> buf' !! pixel_index x1 y1 = Some color) /\
    (forall k, buf !! k = Some color -> buf' !! k = Some color) /\
    painted_within buf buf' color x0 y0 x1 y1.
Proof.
  intros Hlen Hfuel. unfold draw_line.
  destruct (line_loop_returns x0 y0 x1 y1 color fuel 0 0 buf
              ltac:(lia) ltac:(lia) ltac:(lia) Hlen)
    as (buf' & Hr & Hl & He & Hs & Hk & Hf).
  rewrite ?Z.mul_0_r, ?Z.add_0_r in Hr, Hs.
  replace (Z.abs (x1 - x0) - Z.abs (y1 - y0) - 0 * Z.abs (y1 - y0) + 0 * Z.abs (x1 - x0))
    with (Z.abs (x1 - x0) + - Z.abs (y1 - y0)) in Hr by ring.
  exists buf'. split; [|auto].
  rewrite <- Hr. reflexivity.
Qed.

(** What the loop over the edges needs of one line. *)
Lemma draw_line_total (fuel : nat) (buf : list Z) (x0 y0 x1 y1 color : Z) :
  length buf = Z.to_nat (WIDTH * HEIGHT) ->
  Z.abs (x1 - x0) + Z.abs (y1 - y0) < Z.of_nat fuel ->
  exists buf',
    draw_line fuel buf x0 y0 x1 y1 color = Ret buf' /\
    length buf' = length buf /\
    (on_screen x0 y0 = true -> buf' !! pixel_index x0 y0 = Some color) /\
    (on_screen x1 y1 = true -> buf' !! pixel_index x1 y1 = Some color) /\
    (forall k, buf !! k = Some color -> buf' !! k = Some color) /\
    (forall k, buf' !! k <> buf !! k -> buf' !! k = Some color).
Proof.
  intros Hlen Hfuel. unfold draw_line.
  destruct (line_loop_returns x0 y0 x1 y1 color fuel 0 0 buf
              ltac:(lia) ltac:(lia) ltac:(lia) Hlen)
    as (buf' & Hr & Hl & He & Hs & Hk & Hf).
  rewrite ?Z.mul_0_r, ?Z.add_0_r in Hr, Hs.
  replace (Z.abs (x1 - x0) - Z.abs (y1 - y0) - 0 * Z.abs (y1 - y0) + 0 * Z.abs (x1 - x0))
    with (Z.abs (x1 - x0) + - Z.abs (y1 - y0)) in Hr by ring.
  exists buf'. split; [rewrite <- Hr; reflexivity|].
  split; [exact Hl|]. split; [exact Hs|]. split; [exact He|]. split; [exact Hk|].
  intros k Hne. apply (Hf k Hne).
Qed.

Lemma clamp_on_screen x y : on_screen (clamp_x x) (screen_y y) = true.
Proof.
  unfold on_screen, clamp_x, screen_y, WIDTH, HEIGHT.
  repeat (apply andb_true_iff; split); lia.
Qed.

(** X14: the loop over the edge points draws a line for each pair of
    consecutive points and raises nothing: as the endpoints are clamped to
    the screen, [WIDTH + HEIGHT] iterations are enough for every line.  Both
    clamped endpoints of every pair end up in the colour, a last point
    without a partner is not drawn, and every pixel the loop changes has the
    colour. *)
Theorem X14_draw_edges (fuel : nat) (edges : list (Z * Z)) (color : Z) :
  (Z.to_nat (WIDTH + HEIGHT) <= fuel)%nat ->
  forall buf, length buf = Z.to_nat (WIDTH * HEIGHT) ->
  exists buf',
    draw_edges fuel buf edges color = Ret buf' /\
    length buf' = length buf /\
    (forall i p, (i < 2 * (length edges / 2))%nat -> edges !! i = Some p ->
       buf' !! pixel_index (clamp_x (fst p)) (screen_y (snd p)) = Some color) /\
    (forall k, buf !! k = Some color -> buf' !! k = Some color) /\
    (forall k, buf' !! k <> buf !! k -> buf' !! k = Some color).
Proof.
  intros Hfuel. induction edges as [edges IH] using (induction_ltof1 _ (@length _)).
  unfold ltof in IH. intros buf Hlen.
  destruct edges as [|[x0 y0] [|[x1 y1] rest]].
  - exists buf. split; [reflexivity|]. split; [reflexivity|].
    split; [intros i p Hi; simpl in Hi; lia|]. split; [auto|]. intros k Hk. contradiction.
  - exists buf. split; [reflexivity|]. split; [reflexivity|].
    split; [intros i p Hi; simpl in Hi; lia|]. split; [auto|]. intros k Hk. contradiction.
  - cbn [draw_edges].
    destruct (draw_line_total fuel buf (clamp_x x0) (screen_y y0) (clamp_x x1) (screen_y y1)
                color Hlen) as (buf1 & -> & Hl1 & Hs1 & He1 & Hk1 & Hf1).
    { pose proof (clamp_on_screen x0 y0) as A. pose proof (clamp_on_screen x1 y1) as B.
      unfold on_screen, WIDTH, HEIGHT in *.
      repeat (apply andb_true_iff in A as [A ?]). repeat (apply andb_true_iff in B as [B ?]).
      unfold WIDTH, HEIGHT in Hfuel. lia. }
    cbn [mbind outcome_bind].
    destruct (IH rest ltac:(simpl; lia) buf1 ltac:(lia)) as (buf' & Hr & Hl' & Hp' & Hk' & Hf').
    exists buf'. split; [exact Hr|]. split; [lia|]. split; [|split].
    + intros i p Hi Hp. destruct i as [|[|i]].
      * inversion Hp; subst p. simpl. apply Hk', Hs1, clamp_on_screen.
      * inversion Hp; subst p. simpl. apply Hk', He1, clamp_on_screen.
      * simpl in Hp. apply (Hp' i p); [|exact Hp].
        assert (E : (length ((x0, y0) :: (x1, y1) :: rest) / 2
                     = S (length rest / 2))%nat).
        { cbn [length]. replace (S (S (length rest))) with (length rest + 1 * 2)%nat by lia.
          rewrite Nat.div_add by lia. lia. }
        rewrite E in Hi. lia.
    + intros k Hk. apply Hk', Hk1, Hk.
    + intros k Hk. destruct (decide (buf' !! k = buf1 !! k)) as [E | Hne].
      * rewrite E in Hk |- *. apply Hf1. exact Hk.
      * apply Hf'. exact Hne.
Qed.


(** A line from (0, 0) to (3, 2) in the road colour on a black screen. *)
Lemma X13_draw_line_witness :
  exists buf',
    draw_line 6 (replicate (Z.to_nat (WIDTH * HEIGHT)) 0) 0 0 3 2 50744 = Ret buf' /\
    length buf' = length (replicate (Z.to_nat (WIDTH * HEIGHT)) 0) /\
    (on_screen 0 0 = true -> buf' !! pixel_index 0 0 = Some 50744) /\
    (on_screen 3 2 = true -> buf' !! pixel_index 3 2 = Some 50744) /\
    (forall k, replicate (Z.to_nat (WIDTH * HEIGHT)) 0 !! k = Some 50744 ->
               buf' !! k = Some 50744) /\
    painted_within (replicate (Z.to_nat (WIDTH * HEIGHT)) 0) buf' 50744 0 0 3 2.
Proof.
  apply (X13_draw_line 6 (replicate (Z.to_nat (WIDTH * HEIGHT)) 0) 0 0 3 2 50744).
  - apply length_replicate.
  - simpl. lia.
Defined.

(** Three edge points: one line, and a point left over. *)
Lemma X14_draw_edges_witness :
  exists buf',
    draw_edges 1120 (replicate (Z.to_nat (WIDTH * HEIGHT)) 0) [(0, 0); (3, 2); (7, 7)] 50744
      = Ret buf' /\
    length buf' = length (replicate (Z.to_nat (WIDTH * HEIGHT)) 0) /\
    (forall i p, (i < 2 * (length [(0, 0); (3, 2); (7, 7)] / 2))%nat ->
       [(0, 0); (3, 2); (7, 7)] !! i = Some p ->
       buf' !! pixel_index (clamp_x (fst p)) (screen_y (snd p)) = Some 50744) /\
    (forall k, replicate (Z.to_nat (WIDTH * HEIGHT)) 0 !! k = Some 50744 ->
               buf' !! k = Some 50744) /\
    (forall k, buf' !! k <> replicate (Z.to_nat (WIDTH * HEIGHT)) 0 !! k ->
               buf' !! k = Some 50744).
Proof.
  apply (X14_draw_edges 1120 [(0, 0); (3, 2); (7, 7)] 50744).
  - unfold WIDTH, HEIGHT. lia.
  - apply length_replicate.
Defined.

End RasterFacts.

(** ** The vehicle counters of stage 0 *)
Module Stage0CountsFacts.
Import Stage0Counts.

Lemma sum_replicate n c : sum (replicate n c) = Z.of_nat n * c.
Proof. induction n as [|n IH]; [reflexivity|]. cbn [replicate sum fold_right] in *. unfold sum in IH. lia. Qed.

Lemma sum_app l1 l2 : sum (l1 ++ l2) = sum l1 + sum l2.
Proof. induction l1 as [|x l1 IH]; [reflexivity|]. simpl. unfold sum in *. simpl. lia. Qed.

Ltac range_bool :=
  repeat match goal with
  | |- context [?a <=? ?b] => destruct (Z.leb_spec a b)
  | |- context [?a <? ?b] => destruct (Z.ltb_spec a b)
  end; simpl; try reflexivity; try lia.

Lemma distribute_spec rem K : forall i counts,
  Z.of_nat (length counts) = K -> 0 <= i -> i + Z.of_nat rem <= K ->
  exists counts',
    distribute rem K i counts = Ret counts' /\
    length counts' = length counts /\
    forall j, counts' !! j =
      (fun c => if (i <=? Z.of_nat j) && (Z.of_nat j <? i + Z.of_nat rem)
                then c + 1 else c) <$> counts !! j.
Proof.
  induction rem as [|rem IH]; intros i counts HK Hi Hr.
  - exists counts. split; [reflexivity|]. split; [reflexivity|]. intros j.
    destruct (counts !! j); [|reflexivity]. simpl. f_equal. range_bool.
  - cbn [distribute]. rewrite Z.mod_small by lia.
    destruct (lookup_lt_is_Some_2 counts (Z.to_nat i) ltac:(lia)) as [c Hc].
    rewrite Hc. cbn [lift mbind outcome_bind].
    destruct (IH (i + 1) (<[Z.to_nat i := c + 1]> counts)) as (counts' & -> & Hl & Hj).
    { rewrite length_insert. exact HK. } { lia. } { lia. }
    exists counts'. split; [reflexivity|]. rewrite length_insert in Hl.
    split; [exact Hl|]. intros j. rewrite Hj.
    destruct (decide (Z.to_nat i = j)) as [<- | Hne].
    + rewrite list_lookup_insert_eq by lia. rewrite Hc. simpl. f_equal. range_bool.
    + rewrite list_lookup_insert_ne by exact Hne.
      destruct (counts !! j) as [x|]; [|reflexivity]. simpl. f_equal. range_bool.
Qed.

Lemma sum_lookup_eq (l1 l2 : list Z) (f : nat -> Z -> Z) :
  (forall j, l2 !! j = f j <$> l1 !! j) -> l2 = imap f l1.
Proof.
  intros H. apply list_eq. intros j. rewrite H, list_lookup_imap. reflexivity.
Qed.

Lemma sum_bump (r : nat) (l : list Z) : forall k,
  sum (imap (fun j c => if (0 <=? Z.of_nat (k + j)) && (Z.of_nat (k + j) <? Z.of_nat r)
                        then c + 1 else c) l)
  = sum l + Z.max 0 (Z.min (Z.of_nat (k + length l)) (Z.of_nat r) - Z.of_nat k).
Proof.
  induction l as [|x l IH]; intros k; [simpl; lia|].
  cbn [imap sum fold_right].
  assert (E : sum (imap ((fun j c => if (0 <=? Z.of_nat (k + j)) && (Z.of_nat (k + j) <? Z.of_nat r)
                        then c + 1 else c) ∘ S) l)
              = sum l + Z.max 0 (Z.min (Z.of_nat (S k + length l)) (Z.of_nat r) - Z.of_nat (S k))).
  { rewrite <- IH. f_equal. apply imap_ext. intros j c _. simpl.
    replace (k + S j)%nat with (S (k + j)) by lia. reflexivity. }
  unfold sum in *. rewrite E. rewrite Nat.add_0_r. cbn [length].
  range_bool.
Qed.

(** X15: the vehicle counters stage 0 starts from.  With no junction the
    script divides by zero.  With at least one there are [min(N, 100)]
    active junctions, their counters add up to [TOTAL_VEH] = 5000, each is at
    least [MIN_PER_JUNC] = 50, and any two differ by at most one (each is
    [5000 // K] or one more); the rescaling branch is never taken. *)
Theorem X15_initial_counts (N : nat) :
  (N = 0%nat -> initial_counts N = Raise) /\
  ((1 <= N)%nat ->
   exists counts,
     initial_counts N = Ret counts /\
     Z.of_nat (length counts) = Z.min (Z.of_nat N) 100 /\
     sum counts = TOTAL_VEH /\
     Forall (fun c => MIN_PER_JUNC <= c) counts /\
     Forall (fun c => c = TOTAL_VEH / Z.of_nat (length counts) \/
                      c = TOTAL_VEH / Z.of_nat (length counts) + 1) counts).
Proof.
  split; [intros ->; reflexivity|]. intros HN. unfold initial_counts.
  change (TOTAL_VEH / MIN_PER_JUNC) with 100.
  set (K := Z.min (Z.of_nat N) 100).
  assert (HK : 1 <= K <= 100) by (unfold K; lia).
  destruct (Z.leb_spec K 0); [lia|]. destruct (Z.eqb_spec K 0); [lia|].
  set (base := TOTAL_VEH / K).
  assert (Hbase : 50 <= base /\ K * base <= 5000 /\ 5000 - K * base < K).
  { unfold base, TOTAL_VEH. split; [apply Z.div_le_lower_bound; lia|].
    pose proof (Z.mul_div_le 5000 K ltac:(lia)).
    pose proof (Z.mul_succ_div_gt 5000 K ltac:(lia)). lia. }
  replace (Z.max MIN_PER_JUNC base) with base by (unfold MIN_PER_JUNC; lia).
  rewrite sum_replicate, Z2Nat.id by lia.
  destruct (Z.ltb_spec TOTAL_VEH (K * base)); [unfold TOTAL_VEH in *; lia|].
  rewrite sum_replicate, Z2Nat.id by lia.
  destruct (distribute_spec (Z.to_nat (TOTAL_VEH - K * base)) K 0
              (replicate (Z.to_nat K) base)) as (counts & Hr & Hl & Hj).
  { rewrite length_replicate. lia. } { lia. } { unfold TOTAL_VEH. lia. }
  exists counts. split; [exact Hr|]. rewrite length_replicate in Hl.
  split; [lia|].
  assert (Hlen : Z.of_nat (length counts) = K) by lia.
  split; [|split].
  - rewrite (sum_lookup_eq _ _ _ Hj).
    pose proof (sum_bump (Z.to_nat (TOTAL_VEH - K * base)) (replicate (Z.to_nat K) base) 0) as Hb.
    cbn [Nat.add] in Hb. rewrite Z.add_0_l in *.
    replace (Z.of_nat 0) with 0 in Hb by reflexivity.
    etransitivity; [exact Hb|].
    rewrite sum_replicate, length_replicate. unfold TOTAL_VEH in *. lia.
  - apply Forall_lookup. intros j c Hc. rewrite Hj in Hc.
    destruct (replicate (Z.to_nat K) base !! j) as [x|] eqn:Ex; [|discriminate].
    apply lookup_replicate in Ex as [-> _]. simpl in Hc. inversion Hc.
    unfold MIN_PER_JUNC. destruct (_ && _); lia.
  - apply Forall_lookup. intros j c Hc. rewrite Hj in Hc.
    destruct (replicate (Z.to_nat K) base !! j) as [x|] eqn:Ex; [|discriminate].
    apply lookup_replicate in Ex as [-> _]. simpl in Hc. inversion Hc.
    rewrite Hlen. fold base. destruct (_ && _); auto.
Qed.

(** Three junctions share the vehicles as 1667, 1667 and 1666. *)
Lemma X15_initial_counts_witness :
  initial_counts 3 = Ret [1667; 1667; 1666] /\
  exists counts,
    initial_counts 3 = Ret counts /\
    Z.of_nat (length counts) = Z.min (Z.of_nat 3) 100 /\
    sum counts = TOTAL_VEH /\
    Forall (fun c => MIN_PER_JUNC <= c) counts /\
    Forall (fun c => c = TOTAL_VEH / Z.of_nat (length counts) \/
                     c = TOTAL_VEH / Z.of_nat (length counts) + 1) counts.
Proof.
  split; [reflexivity|]. apply (proj2 (X15_initial_counts 3)). lia.
Defined.

End Stage0CountsFacts.

(** ** The text of a COE file *)
Module CoeTextFacts.
Import CoeText.

Lemma replace3_app t1 t2 : replace3 (t1 ++ t2) = replace3 t1 ++ replace3 t2.
Proof. unfold replace3, replace. rewrite !map_app. reflexivity. Qed.

Lemma replace3_char c :
  replace3 [c] = [if is_sep c then ","%char else c] /\
  (is_sep c = false -> Ascii.eqb c "," = false).
Proof.
  unfold replace3, replace, is_sep. simpl.
  destruct (Ascii.eqb_spec c ";") as [-> | H1]; [split; [reflexivity|discriminate]|].
  destruct (Ascii.eqb_spec c "010") as [-> | H2]; [split; [reflexivity|discriminate]|].
  destruct (Ascii.eqb_spec c "013") as [-> | H3]; [split; [reflexivity|discriminate]|].
  destruct (Ascii.eqb_spec c ",") as [-> | H4]; [split; [reflexivity|discriminate]|].
  simpl. split; [reflexivity|reflexivity].
Qed.

Lemma replace3_clean tok :
  Forall (fun c => is_sep c = false /\ is_space c = false) tok ->
  replace3 tok = tok /\ Forall (fun c => Ascii.eqb c "," = false) tok.
Proof.
  induction 1 as [|c tok [Hc _] _ [IH1 IH2]]; [split; [reflexivity|constructor]|].
  change (c :: tok) with ([c] ++ tok). rewrite replace3_app, IH1.
  destruct (replace3_char c) as [-> Hcomma]. rewrite Hc. split; [reflexivity|].
  constructor; [apply Hcomma; exact Hc|exact IH2].
Qed.

Lemma replace3_seps seps :
  Forall (fun c => is_sep c = true) seps ->
  replace3 seps = repeat ","%char (length seps).
Proof.
  induction 1 as [|c seps Hc _ IH]; [reflexivity|].
  change (c :: seps) with ([c] ++ seps). rewrite replace3_app, IH.
  destruct (replace3_char c) as [-> _]. rewrite Hc. reflexivity.
Qed.

Lemma split_token tok rest :
  Forall (fun c => Ascii.eqb c "," = false) tok ->
  split "," (tok ++ ","%char :: rest) = tok :: split "," rest.
Proof.
  induction 1 as [|c tok Hc _ IH]; [reflexivity|].
  simpl. rewrite Hc. simpl in IH. rewrite IH. reflexivity.
Qed.

Lemma split_commas k rest :
  split "," (repeat ","%char k ++ rest) = repeat [] k ++ split "," rest.
Proof. induction k as [|k IH]; [reflexivity|]. simpl. rewrite IH. reflexivity. Qed.

Lemma lstrip_clean tok :
  Forall (fun c => is_space c = false) tok -> lstrip tok = tok.
Proof. destruct 1 as [|c tok Hc _]; [reflexivity|]. simpl. rewrite Hc. reflexivity. Qed.

Lemma strip_clean tok :
  Forall (fun c => is_space c = false) tok -> strip tok = tok.
Proof.
  intros H. unfold strip. rewrite (lstrip_clean tok H).
  rewrite lstrip_clean, rev_involutive; [reflexivity|].
  apply Forall_forall. intros c Hc. rewrite Forall_forall in H. apply H.
  apply list_elem_of_In. apply in_rev. apply list_elem_of_In. exact Hc.
Qed.

(** The tokens of a text made of clean tokens, each followed by one or more
    separators. *)
Lemma tokens_pieces (pieces : list (list ascii * list ascii)) :
  Forall (fun p => clean (fst p) /\ snd p <> [] /\
                   Forall (fun c => is_sep c = true) (snd p)) pieces ->
  tokens (concat (map (fun p => fst p ++ snd p) pieces)) = map fst pieces.
Proof.
  unfold tokens. fold (replace3 (concat (map (fun p => fst p ++ snd p) pieces))).
  induction 1 as [|[tok seps] pieces (Hclean & Hne & Hseps) _ IH]; [reflexivity|].
  cbn [map concat fst snd] in *. destruct Hclean as [Htok Hchars].
  rewrite <- app_assoc, !replace3_app.
  destruct (replace3_clean tok Hchars) as [-> Hcomma].
  rewrite (replace3_seps seps Hseps).
  destruct seps as [|s seps]; [contradiction|]. cbn [length repeat].
  rewrite <- app_comm_cons, split_token by exact Hcomma.
  rewrite split_commas. cbn [map List.filter].
  rewrite strip_clean.
  2:{ eapply Forall_impl; [exact Hchars|]. intros c [_ Hc]. exact Hc. }
  destruct tok as [|c tok]; [contradiction|]. cbn [length Nat.eqb negb].
  f_equal. rewrite map_app, List.filter_app.
  rewrite IH.
  assert (E : List.filter (fun tok0 : list ascii => negb (length tok0 =? 0)%nat)
                (map strip (repeat [] (length seps))) = []).
  { induction (length seps) as [|k IHk]; [reflexivity|]. simpl. exact IHk. }
  rewrite E. reflexivity.
Qed.


(** *** Hexadecimal digits *)

Lemma hex_digit_cases d (P : ascii -> Prop) :
  0 <= d < 16 ->
  P "0"%char -> P "1"%char -> P "2"%char -> P "3"%char -> P "4"%char -> P "5"%char ->
  P "6"%char -> P "7"%char -> P "8"%char -> P "9"%char -> P "A"%char -> P "B"%char ->
  P "C"%char -> P "D"%char -> P "E"%char -> P "F"%char ->
  P (hex_digit d).
Proof.
  intros Hd. intros.
  assert (H' : d = 0 \/ d = 1 \/ d = 2 \/ d = 3 \/ d = 4 \/ d = 5 \/ d = 6 \/ d = 7 \/
               d = 8 \/ d = 9 \/ d = 10 \/ d = 11 \/ d = 12 \/ d = 13 \/ d = 14 \/ d = 15)
    by lia.
  repeat (destruct H' as [-> | H']; [assumption|]). subst. assumption.
Qed.

Lemma upper_hex_facts c :
  upper_hex c ->
  is_sep c = false /\ is_space c = false /\ is_hex c = true /\
  lower c <> "m"%char /\ lower c <> "x"%char.
Proof.
  intros (d & Hd & ->). apply (hex_digit_cases d); [exact Hd|..];
    (split; [reflexivity|]); (split; [reflexivity|]); (split; [reflexivity|]);
    split; vm_compute; discriminate.
Qed.

Lemma hex_value_digit d : 0 <= d < 16 -> hex_value (hex_digit d) = Some d.
Proof.
  intros Hd.
  assert (H' : d = 0 \/ d = 1 \/ d = 2 \/ d = 3 \/ d = 4 \/ d = 5 \/ d = 6 \/ d = 7 \/
               d = 8 \/ d = 9 \/ d = 10 \/ d = 11 \/ d = 12 \/ d = 13 \/ d = 14 \/ d = 15)
    by lia.
  repeat (destruct H' as [-> | H']; [reflexivity|]). subst. reflexivity.
Qed.

Lemma hex_number_snoc t c :
  hex_number (t ++ [c]) = 16 * hex_number t + default 0 (hex_value c).
Proof. unfold hex_number. rewrite fold_left_app. reflexivity. Qed.

Lemma hex_digits_spec fuel : forall v,
  0 <= v < 16 ^ Z.of_nat fuel ->
  hex_number (hex_digits fuel v) = v /\ Forall upper_hex (hex_digits fuel v) /\
  (0 < v -> hex_digits fuel v <> []).
Proof.
  induction fuel as [|fuel IH]; intros v Hv.
  - simpl in *. assert (v = 0) by lia. subst. split; [reflexivity|]. split; [constructor|lia].
  - cbn [hex_digits]. destruct (Z.eqb_spec v 0) as [-> | Hne].
    + split; [reflexivity|]. split; [constructor|lia].
    + assert (Hq : 0 <= v / 16 < 16 ^ Z.of_nat fuel).
      { split; [apply Z.div_pos; lia|]. apply Z.div_lt_upper_bound; [lia|].
        rewrite Nat2Z.inj_succ, Z.pow_succ_r in Hv by lia. lia. }
      destruct (IH (v / 16) Hq) as (Hn & Hf & _).
      assert (Hm : 0 <= v mod 16 < 16) by (apply Z.mod_pos_bound; lia).
      split; [|split].
      * rewrite hex_number_snoc, Hn, hex_value_digit by exact Hm. simpl.
        pose proof (Z.div_mod v 16 ltac:(lia)). lia.
      * apply Forall_app. split; [exact Hf|]. constructor; [|constructor].
        exists (v mod 16). split; [exact Hm|reflexivity].
      * intros _ E. apply app_eq_nil in E as [_ E]. discriminate.
Qed.

Lemma hex_number_zeros k t : hex_number (repeat "0"%char k ++ t) = hex_number t.
Proof.
  unfold hex_number. rewrite fold_left_app.
  assert (E : fold_left (fun acc c => 16 * acc + default 0 (hex_value c))
                (repeat "0"%char k) 0 = 0).
  { induction k as [|k IH]; [reflexivity|]. simpl. exact IH. }
  rewrite E. reflexivity.
Qed.

Lemma format_X_spec w v :
  0 <= v ->
  hex_number (format_X w v) = v /\ Forall upper_hex (format_X w v) /\ format_X w v <> [].
Proof.
  intros Hv. unfold format_X.
  set (ds := if v =? 0 then lit "0" else hex_digits (S (Z.to_nat (Z.log2 v))) v).
  assert (Hds : hex_number ds = v /\ Forall upper_hex ds /\ ds <> []).
  { unfold ds. destruct (Z.eqb_spec v 0) as [-> | Hne].
    - split; [reflexivity|]. split; [|discriminate].
      constructor; [|constructor]. exists 0. split; [lia|reflexivity].
    - destruct (hex_digits_spec (S (Z.to_nat (Z.log2 v))) v) as (H1 & H2 & H3).
      + split; [exact Hv|].
        pose proof (Z.log2_nonneg v). pose proof (Z.log2_spec v ltac:(lia)) as [_ Hlt].
        rewrite Nat2Z.inj_succ, Z2Nat.id by lia.
        eapply Z.lt_le_trans; [exact Hlt|].
        change 16 with (2 ^ 4). rewrite <- Z.pow_mul_r by lia.
        apply Z.pow_le_mono_r; lia.
      + split; [exact H1|]. split; [exact H2|]. apply H3. lia. }
  destruct Hds as (H1 & H2 & H3). split; [|split].
  - rewrite hex_number_zeros. exact H1.
  - apply Forall_app. split; [|exact H2].
    apply Forall_forall. intros c Hc. apply list_elem_of_In, repeat_spec in Hc. subst c.
    exists 0. split; [lia|reflexivity].
  - intros E. apply app_eq_nil in E as [_ E]. contradiction.
Qed.

(** A written word is a clean token, and it is read back as the word. *)
Lemma format_X_clean w v : 0 <= v -> clean (format_X w v).
Proof.
  intros Hv. destruct (format_X_spec w v Hv) as (_ & Hf & Hne). split; [exact Hne|].
  eapply Forall_impl; [exact Hf|]. intros c Hc.
  destruct (upper_hex_facts c Hc) as (H1 & H2 & _). auto.
Qed.

Lemma parse_token_format w v : 0 <= v -> parse_token (format_X w v) = Ret (Some v).
Proof.
  intros Hv. destruct (format_X_spec w v Hv) as (Hn & Hf & Hne).
  unfold parse_token. destruct (format_X w v) as [|c1 t] eqn:E; [contradiction|].
  inversion Hf as [|? ? Hc1 Ht]; subst.
  destruct (upper_hex_facts c1 Hc1) as (_ & _ & Hh1 & Hm & _).
  assert (E1 : startswith (lit "memory_initialization") (map lower (c1 :: t)) = false).
  { change (startswith (lit "memory_initialization") (map lower (c1 :: t)))
      with (Ascii.eqb "m" (lower c1) &&
            startswith (lit "emory_initialization") (map lower t)).
    destruct (Ascii.eqb_spec "m" (lower c1)) as [Heq|_]; [|reflexivity].
    exfalso. apply Hm. symmetry. exact Heq. }
  rewrite E1.
  assert (E2 : startswith (lit "0x") (map lower (c1 :: t)) = false).
  { destruct t as [|c2 t'].
    - change (startswith (lit "0x") (map lower [c1]))
        with (Ascii.eqb "0" (lower c1) && false). apply andb_false_r.
    - inversion Ht as [|? ? Hc2 _]; subst.
      destruct (upper_hex_facts c2 Hc2) as (_ & _ & _ & _ & Hx).
      change (startswith (lit "0x") (map lower (c1 :: c2 :: t')))
        with (Ascii.eqb "0" (lower c1) && (Ascii.eqb "x" (lower c2) && true)).
      destruct (Ascii.eqb_spec "x" (lower c2)) as [Heq|_].
      + exfalso. apply Hx. symmetry. exact Heq.
      + apply andb_false_r. }
  rewrite E2.
  assert (E3 : forallb is_hex (c1 :: t) = true).
  { apply forallb_forall. intros c Hc. apply list_elem_of_In in Hc.
    rewrite Forall_forall in Hf. destruct (upper_hex_facts c (Hf c Hc)) as (_ & _ & H & _).
    exact H. }
  rewrite E3. reflexivity.
Qed.


(** *** A written file read back *)

Lemma map_imap {A B C} (g : B -> C) (l : list A) : forall (f : nat -> A -> B),
  map g (imap f l) = imap (fun i x => g (f i x)) l.
Proof.
  induction l as [|x l IH]; intros f; [reflexivity|].
  simpl. rewrite IH. reflexivity.
Qed.

Lemma imap_const {A B} (g : A -> B) (l : list A) : imap (fun _ x => g x) l = map g l.
Proof. induction l as [|x l IH]; [reflexivity|]. simpl. rewrite <- IH. reflexivity. Qed.

Lemma Forall_imap {A B} (P : B -> Prop) (l : list A) : forall (f : nat -> A -> B),
  (forall i x, l !! i = Some x -> P (f i x)) -> Forall P (imap f l).
Proof.
  induction l as [|x l IH]; intros f H; [constructor|].
  simpl. constructor; [apply (H 0%nat); reflexivity|].
  apply IH. intros i y Hi. apply (H (S i)). exact Hi.
Qed.

Lemma header_pieces_ok :
  Forall (fun p => clean (fst p) /\ snd p <> [] /\
                   Forall (fun c => is_sep c = true) (snd p)) header_pieces.
Proof.
  unfold header_pieces, clean. repeat constructor; simpl; try discriminate.
Qed.

Lemma parse_formatted w vals :
  Forall (fun v => 0 <= v) vals -> parse_tokens (map (format_X w) vals) = Ret vals.
Proof.
  induction 1 as [|v vals Hv _ IH]; [reflexivity|].
  cbn [map parse_tokens]. rewrite parse_token_format by exact Hv.
  cbn [mbind outcome_bind]. rewrite IH. reflexivity.
Qed.

Lemma parse_written (seps : nat -> list ascii) (w : nat) (vals : list Z) :
  (forall i, seps i <> [] /\ Forall (fun c => is_sep c = true) (seps i)) ->
  Forall (fun v => 0 <= v) vals ->
  parse_coe_points (header ++ concat (imap (fun i v => format_X w v ++ seps i) vals))
  = Ret vals.
Proof.
  intros Hseps Hvals. unfold parse_coe_points.
  set (pieces := header_pieces ++ imap (fun i v => (format_X w v, seps i)) vals).
  assert (E : header ++ concat (imap (fun i v => format_X w v ++ seps i) vals)
              = concat (map (fun p => fst p ++ snd p) pieces)).
  { unfold pieces. rewrite map_app, concat_app, map_imap.
    f_equal. }
  rewrite E, tokens_pieces.
  2:{ unfold pieces. apply Forall_app. split; [apply header_pieces_ok|].
      apply Forall_imap. intros i v Hv. cbn [fst snd].
      pose proof (Forall_lookup_1 _ _ _ _ Hvals Hv) as Hnn. cbv beta in Hnn.
      split; [apply format_X_clean; exact Hnn|]. apply Hseps. }
  unfold pieces. rewrite map_app, map_imap. simpl fst. rewrite imap_const.
  cbn [header_pieces map fst app parse_tokens].
  change (parse_token (lit "memory_initialization_radix=16")) with (@Ret (option Z) None).
  change (parse_token (lit "memory_initialization_vector=")) with (@Ret (option Z) None).
  cbn [mbind outcome_bind].
  rewrite (parse_formatted w vals Hvals). reflexivity.
Qed.

(** X16: a file written by either kind of writer (one word a line, or all
    words on one line) is read back by [parse_coe_points] as the list of
    words that was written, for any width of the hexadecimal format and any
    words that are not negative: the two header lines are skipped and
    nothing else is lost or added. *)
Theorem X16_coe_round_trip (w : nat) (vals : list Z) :
  Forall (fun v => 0 <= v) vals ->
  parse_coe_points (write_coe_lines w vals) = Ret vals /\
  parse_coe_points (write_coe w vals) = Ret vals.
Proof.
  intros Hvals. split.
  - unfold write_coe_lines.
    apply (parse_written
             (fun i => (if Z.of_nat i <? Z.of_nat (length vals) - 1
                        then lit "," else lit ";") ++ ["010"%char]) w vals);
      [|exact Hvals].
    intros i. destruct (_ <? _); split; try discriminate; repeat constructor.
  - unfold write_coe.
    apply (parse_written
             (fun i => if Z.of_nat i <? Z.of_nat (length vals) - 1
                       then lit "," else lit ";" ++ ["010"%char]) w vals);
      [|exact Hvals].
    intros i. destruct (_ <? _); split; try discriminate; repeat constructor.
Qed.

(** Three words, written with four digits each. *)
Lemma X16_coe_round_trip_witness :
  parse_coe_points (write_coe_lines 4 [1; 255; 4096]) = Ret [1; 255; 4096] /\
  parse_coe_points (write_coe 4 [1; 255; 4096]) = Ret [1; 255; 4096].
Proof.
  apply (X16_coe_round_trip 4 [1; 255; 4096]). repeat constructor; lia.
Defined.

End CoeTextFacts.

(** ** The other readers of COE text *)
Module CoeReaderFacts.
Import CoeText CoeTextFacts CoeReaders Words WordFacts.

Lemma startswith_app p t : startswith p (p ++ t) = true.
Proof. induction p as [|c p IH]; [reflexivity|]. simpl. rewrite Ascii.eqb_refl. exact IH. Qed.

Lemma startswith_split p t : startswith p t = true -> exists r, t = p ++ r.
Proof.
  revert t. induction p as [|c p IH]; intros t H; [exists t; reflexivity|].
  destruct t as [|d t]; [discriminate|]. simpl in H.
  apply andb_true_iff in H as [Hc Hp]. apply Ascii.eqb_eq in Hc. subst d.
  destruct (IH t Hp) as [r ->]. exists r. reflexivity.
Qed.

Lemma hex_number_nonneg t : 0 <= hex_number t.
Proof.
  unfold hex_number.
  assert (H : forall acc, 0 <= acc ->
            0 <= fold_left (fun acc c => 16 * acc + default 0 (hex_value c)) t acc).
  { induction t as [|c t IH]; intros acc Hacc; [exact Hacc|].
    simpl. apply IH. unfold hex_value.
    repeat match goal with |- context [if ?b then _ else _] => destruct b eqn:? end;
      simpl; lia. }
  apply H. lia.
Qed.

(** What a token does to the parser. *)
Lemma parse_token_cases tok :
  tok <> [] ->
  (parse_token tok = Raise /\ map lower tok = lit "0x") \/
  (exists v, parse_token tok = Ret v /\ map lower tok <> lit "0x" /\
             match v with Some z => 0 <= z | None => True end).
Proof.
  intros Hne. unfold parse_token.
  destruct (startswith (lit "memory_initialization") (map lower tok)) eqn:Eh.
  - right. exists None. split; [reflexivity|]. split; [|exact I].
    apply startswith_split in Eh as [r Er]. rewrite Er. discriminate.
  - destruct (startswith (lit "0x") (map lower tok)) eqn:Ex.
    + destruct tok as [|c1 tok]; [contradiction|].
      destruct tok as [|c2 rest].
      { exfalso. change (startswith (lit "0x") (map lower [c1]))
          with (Ascii.eqb "0" (lower c1) && false) in Ex.
        rewrite andb_false_r in Ex. discriminate. }
      destruct rest as [|c3 rest].
      * left. simpl drop. cbn [forallb int16]. split; [reflexivity|].
        apply startswith_split in Ex as [r Er]. rewrite Er.
        destruct r; [reflexivity|]. apply (f_equal (@length _)) in Er. simpl in Er. lia.
      * right. simpl drop. destruct (forallb is_hex (c3 :: rest)).
        -- exists (Some (hex_number (c3 :: rest))). split; [reflexivity|].
           split; [discriminate|apply hex_number_nonneg].
        -- exists None. split; [reflexivity|]. split; [discriminate|exact I].
    + right. assert (Hx : map lower tok <> lit "0x").
      { intros E. rewrite E in Ex. discriminate. }
      destruct (forallb is_hex tok).
      * destruct tok as [|c tok]; [contradiction|].
        exists (Some (hex_number (c :: tok))). split; [reflexivity|].
        split; [exact Hx|apply hex_number_nonneg].
      * exists None. split; [reflexivity|]. split; [exact Hx|exact I].
Qed.

Lemma tokens_nonempty t : Forall (fun tok => tok <> []) (tokens t).
Proof.
  unfold tokens. apply Forall_forall. intros tok Hin.
  apply list_elem_of_In, filter_In in Hin as [_ Hne].
  intros ->. discriminate.
Qed.

Lemma parse_tokens_cases toks :
  Forall (fun tok => tok <> []) toks ->
  (parse_tokens toks = Raise /\ exists tok, tok ∈ toks /\ map lower tok = lit "0x") \/
  (exists vals, parse_tokens toks = Ret vals /\ Forall (fun v => 0 <= v) vals /\
                forall tok, tok ∈ toks -> map lower tok <> lit "0x").
Proof.
  induction 1 as [|tok toks Hne _ IH].
  - right. exists []. split; [reflexivity|]. split; [constructor|].
    intros tok Hin. inversion Hin.
  - cbn [parse_tokens].
    destruct (parse_token_cases tok Hne) as [[-> Hx] | (v & -> & Hx & Hv)].
    + left. split; [reflexivity|]. exists tok. split; [left|exact Hx].
    + cbn [mbind outcome_bind].
      destruct IH as [[-> (tok' & Hin & Hx')] | (vals & -> & Hvals & Hall)].
      * left. split; [reflexivity|]. exists tok'. split; [right; exact Hin|exact Hx'].
      * right. cbn [mbind outcome_bind]. eexists. split; [reflexivity|]. split.
        -- destruct v; [constructor; assumption|exact Hvals].
        -- intros tok' Hin. apply elem_of_cons in Hin as [-> | Hin]; [exact Hx|].
           apply Hall. exact Hin.
Qed.

(** X18: [parse_coe_points] (and [parse_coe_hex], [parse_coe]) raises
    [ValueError] exactly when some token of the text is [0x], in either
    case, with nothing behind it: the empty rest passes the test for
    hexadecimal digits and [int] refuses it.  On any other text the parser
    returns, and no value it returns is negative. *)
Theorem X18_parse_raises (t : list ascii) :
  (parse_coe_points t = Raise <->
   exists tok, tok ∈ tokens t /\ map lower tok = lit "0x") /\
  parse_coe_points t <> Timeout /\
  forall vals, parse_coe_points t = Ret vals -> Forall (fun v => 0 <= v) vals.
Proof.
  unfold parse_coe_points.
  destruct (parse_tokens_cases (tokens t) (tokens_nonempty t))
    as [[Hr Hex] | (vals & Hr & Hvals & Hall)]; rewrite Hr.
  - split; [split; [intros _; exact Hex|reflexivity]|]. split; [discriminate|].
    intros vals E. discriminate.
  - split; [split; [discriminate|]|].
    + intros (tok & Hin & Hx). exfalso. exact (Hall tok Hin Hx).
    + split; [discriminate|]. intros vals' E. inversion E; subst. exact Hvals.
Qed.


(** *** The reader that passes over what it cannot read *)

(** The shorter header test skips the same tokens. *)
Lemma read_token_assets_eq tok : read_token_assets tok = read_token tok.
Proof.
  unfold read_token_assets, read_token.
  destruct (startswith (lit "memory_initialization") (map lower tok)) eqn:Eh.
  - apply startswith_split in Eh as [r Er].
    destruct tok as [|c rest]; [discriminate|].
    assert (Hc : lower c = "m"%char) by (simpl in Er; inversion Er; reflexivity).
    assert (Ex : startswith (lit "0x") (map lower (c :: rest)) = false).
    { change (startswith (lit "0x") (map lower (c :: rest)))
        with (Ascii.eqb "0" (lower c) && startswith (lit "x") (map lower rest)).
      rewrite Hc. reflexivity. }
    rewrite Ex.
    assert (Eh' : is_hex c = false).
    { unfold is_hex, hex_value. unfold lower in Hc.
      destruct ((65 <=? code c) && (code c <=? 90)) eqn:Eu.
      - apply (f_equal nat_of_ascii) in Hc. rewrite nat_ascii_embedding in Hc.
        + change (nat_of_ascii "m") with 109%nat in Hc.
          assert (H : code c = 77) by (unfold code; lia).
          rewrite H. reflexivity.
        + pose proof (nat_ascii_bounded c). unfold code in Eu. lia.
      - subst c. reflexivity. }
    cbn [forallb]. rewrite Eh'. destruct (_ || _); reflexivity.
  - assert (E1 : startswith (lit "memory_initialization_radix") (map lower tok) = false).
    { destruct (startswith (lit "memory_initialization_radix") (map lower tok)) eqn:E;
        [|reflexivity].
      apply startswith_split in E as [r Er]. rewrite Er in Eh.
      change (lit "memory_initialization_radix" ++ r)
        with (lit "memory_initialization" ++ (lit "_radix" ++ r)) in Eh.
      rewrite startswith_app in Eh. discriminate. }
    assert (E2 : startswith (lit "memory_initialization_vector") (map lower tok) = false).
    { destruct (startswith (lit "memory_initialization_vector") (map lower tok)) eqn:E;
        [|reflexivity].
      apply startswith_split in E as [r Er]. rewrite Er in Eh.
      change (lit "memory_initialization_vector" ++ r)
        with (lit "memory_initialization" ++ (lit "_vector" ++ r)) in Eh.
      rewrite startswith_app in Eh. discriminate. }
    rewrite E1, E2. reflexivity.
Qed.

Lemma read_token_parse tok v :
  parse_token tok = Ret v -> read_token_assets tok = node_of_word <$> v.
Proof.
  unfold parse_token, read_token_assets.
  destruct (startswith (lit "memory_initialization") (map lower tok));
    [intros E; inversion E; reflexivity|].
  destruct (forallb is_hex _); [|intros E; inversion E; reflexivity].
  destruct (int16 _); simpl; intros E; inversion E; reflexivity.
Qed.

Lemma omap_cons {A B} (f : A -> option B) x l :
  omap f (x :: l) = match f x with Some y => y :: omap f l | None => omap f l end.
Proof. reflexivity. Qed.

Lemma read_tokens_parse toks : forall vals,
  parse_tokens toks = Ret vals -> omap read_token_assets toks = node_of_word <$> vals.
Proof.
  induction toks as [|tok toks IH]; intros vals H; simpl in H.
  - inversion H. reflexivity.
  - destruct (parse_token tok) as [v| |] eqn:Et; simpl in H; try discriminate.
    destruct (parse_tokens toks) as [vs| |] eqn:Es; simpl in H; try discriminate.
    inversion H; subst; clear H.
    rewrite omap_cons, (read_token_parse tok v Et), (IH vs eq_refl).
    destruct v; reflexivity.
Qed.

Lemma read_tokens_assets_eq (toks : list (list ascii)) : omap read_token_assets toks = omap read_token toks.
Proof.
  induction toks as [|tok toks IH]; [reflexivity|].
  rewrite !omap_cons, IH, read_token_assets_eq. reflexivity.
Qed.

(** X19: where [parse_coe_points] returns, the two [read_coe_points] of
    generate_framebuffer.py and make_fpga_assets.py return the points
    [load_nodes] makes of the same values: neither the longer header test of
    the first nor the [try] of both changes what is read. *)
Theorem X19_readers_agree (t : list ascii) (vals : list Z) :
  parse_coe_points t = Ret vals ->
  read_coe_points t = load_nodes vals /\ read_coe_points_assets t = load_nodes vals.
Proof.
  unfold parse_coe_points, read_coe_points, read_coe_points_assets, load_nodes. intros H.
  rewrite <- read_tokens_assets_eq, (read_tokens_parse _ _ H). split; reflexivity.
Qed.

(** Three junctions, written with five digits. *)
Lemma X19_readers_agree_witness :
  read_coe_points (write_coe 5 [102500; 307400; 512700]) =
    load_nodes [102500; 307400; 512700] /\
  read_coe_points_assets (write_coe 5 [102500; 307400; 512700]) =
    load_nodes [102500; 307400; 512700].
Proof.
  apply (X19_readers_agree (write_coe 5 [102500; 307400; 512700])). reflexivity.
Defined.

(** *** Lights through a file *)

Lemma light_word_read l :
  light_of_word (light_word l) = masked l /\ 0 <= light_word l.
Proof.
  destruct l as [st tm]. split.
  - unfold light_of_word, light_word, masked; simpl.
    change 4 with (2 ^ 2); change 16384 with (2 ^ 14).
    rewrite <- !Z.land_ones by lia. mask_consts. f_equal; bitwise.
  - apply (land_ones_range _ 16); [lia|].
    unfold light_word; simpl. mask_consts. bitwise.
Qed.

Lemma parse_lights ls :
  parse_coe_points (write_lights ls) = Ret (light_word <$> ls).
Proof.
  unfold write_lights, write_coe.
  apply (parse_written
           (fun i => if Z.of_nat i <? Z.of_nat (length (light_word <$> ls)) - 1
                     then lit "," else lit ";" ++ ["010"%char]) 4 (light_word <$> ls)).
  - intros i. destruct (_ <? _); split; try discriminate; repeat constructor.
  - apply Forall_fmap, Forall_forall. intros l _. apply light_word_read.
Qed.

(** X17: a lights file written by any of the writers is read by the
    runtime controller as the lights that were written, masked to two and
    fourteen bits, cut to the number of junctions and filled up with [0,60]
    where the file is shorter.  Lights in range, for as many junctions as the
    map has, come back unchanged. *)
Theorem X17_lights_through_text (N : nat) (ls : list (Z * Z)) :
  load_lights N (Some (write_lights ls)) =
    Ret (take N (masked <$> ls) ++ replicate (N - length ls) (0, 60)) /\
  (Forall light_ok ls -> load_lights (length ls) (Some (write_lights ls)) = Ret ls).
Proof.
  assert (G : forall M, load_lights M (Some (write_lights ls)) =
                Ret (take M (masked <$> ls) ++ replicate (M - length ls) (0, 60))).
  { intros M. unfold load_lights. rewrite parse_lights. cbn [mbind outcome_bind].
    unfold Controller.initial_lights. rewrite length_fmap, <- fmap_take, <- list_fmap_compose.
    rewrite <- fmap_take. do 2 f_equal. apply list_fmap_ext. intros i l _.
    apply light_word_read. }
  split; [apply G|]. intros Hok. rewrite G, Nat.sub_diag, app_nil_r.
  rewrite take_ge by (rewrite length_fmap; lia).
  clear G. f_equal. induction Hok as [|l ls [H1 H2] _ IH]; [reflexivity|].
  cbn [fmap list_fmap]. rewrite IH. f_equal.
  destruct l as [st tm]. unfold masked. simpl in *. rewrite !Z.mod_small by lia. reflexivity.
Qed.

(** Three lights of a running junction map. *)
Lemma X17_lights_through_text_witness :
  load_lights 3 (Some (write_lights [(1, 60); (0, 0); (3, 16383)])) =
    Ret [(1, 60); (0, 0); (3, 16383)].
Proof.
  apply (X17_lights_through_text 3 [(1, 60); (0, 0); (3, 16383)]).
  unfold light_ok. repeat constructor; simpl; lia.
Defined.

(** *** From COE to .mem *)

Lemma upper_of_hex c :
  is_hex c = true -> upper_hex (upper c) /\ hex_value (upper c) = hex_value c.
Proof.
  destruct c as [b0 b1 b2 b3 b4 b5 b6 b7].
  destruct b0, b1, b2, b3, b4, b5, b6, b7; intros H; try discriminate H;
    (split; [|reflexivity]);
    match goal with
    | |- upper_hex (upper ?c) =>
        let d := eval vm_compute in (default 0 (hex_value c)) in
        exists d; split; [lia|reflexivity]
    end.
Qed.

Lemma upper_hex_upper c : upper_hex c -> upper c = c.
Proof. intros (d & Hd & ->). apply (hex_digit_cases d); [exact Hd|..]; reflexivity. Qed.

Lemma hex_digits_upper tt :
  forallb is_hex tt = true ->
  Forall upper_hex (map upper tt) /\ hex_number (map upper tt) = hex_number tt.
Proof.
  intros H. split.
  - apply Forall_forall. intros c Hc. apply list_elem_of_In, in_map_iff in Hc as (c0 & <- & Hc0).
    rewrite forallb_forall in H. apply upper_of_hex, H, Hc0.
  - unfold hex_number.
    assert (G : forall acc,
              fold_left (fun acc c => 16 * acc + default 0 (hex_value c)) (map upper tt) acc =
              fold_left (fun acc c => 16 * acc + default 0 (hex_value c)) tt acc);
      [|apply G].
    induction tt as [|c tt IH]; intros acc; [reflexivity|].
    cbn [forallb] in H. apply andb_true_iff in H as [Hc Htt].
    cbn [map fold_left]. destruct (upper_of_hex c Hc) as [_ ->]. apply IH, Htt.
Qed.

(** A text of upper-case digits is a token the parsers read as its number. *)
Lemma digits_token t :
  t <> [] -> Forall upper_hex t ->
  startswith (lit "memory_initialization") (map lower t) = false /\
  startswith (lit "0x") (map lower t) = false /\ forallb is_hex t = true.
Proof.
  intros Hne Hf. destruct t as [|c1 t]; [contradiction|].
  inversion Hf as [|? ? Hc1 Ht]; subst.
  destruct (upper_hex_facts c1 Hc1) as (_ & _ & Hh1 & Hm & _).
  split; [|split].
  - change (startswith (lit "memory_initialization") (map lower (c1 :: t)))
      with (Ascii.eqb "m" (lower c1) &&
            startswith (lit "emory_initialization") (map lower t)).
    destruct (Ascii.eqb_spec "m" (lower c1)) as [Heq|_]; [|reflexivity].
    exfalso. apply Hm. symmetry. exact Heq.
  - destruct t as [|c2 t'].
    + change (startswith (lit "0x") (map lower [c1]))
        with (Ascii.eqb "0" (lower c1) && false). apply andb_false_r.
    + inversion Ht as [|? ? Hc2 _]; subst.
      destruct (upper_hex_facts c2 Hc2) as (_ & _ & _ & _ & Hx).
      change (startswith (lit "0x") (map lower (c1 :: c2 :: t')))
        with (Ascii.eqb "0" (lower c1) && (Ascii.eqb "x" (lower c2) && true)).
      destruct (Ascii.eqb_spec "x" (lower c2)) as [Heq|_].
      * exfalso. apply Hx. symmetry. exact Heq.
      * apply andb_false_r.
  - apply forallb_forall. intros c Hc. apply list_elem_of_In in Hc.
    rewrite Forall_forall in Hf. destruct (upper_hex_facts c (Hf c Hc)) as (_ & _ & H & _).
    exact H.
Qed.

Lemma parse_token_digits t :
  t <> [] -> Forall upper_hex t -> parse_token t = Ret (Some (hex_number t)).
Proof.
  intros Hne Hf. destruct (digits_token t Hne Hf) as (E1 & E2 & E3).
  unfold parse_token. rewrite E1, E2, E3. destruct t; [contradiction|reflexivity].
Qed.

Lemma mem_token_digits t :
  t <> [] -> Forall upper_hex t -> mem_token t = Some t.
Proof.
  intros Hne Hf. destruct (digits_token t Hne Hf) as (E1 & E2 & E3).
  unfold mem_token. rewrite E1, E2, E3. f_equal.
  clear - Hf. induction Hf as [|c t Hc _ IH]; [reflexivity|].
  cbn [map]. rewrite IH, (upper_hex_upper c Hc). reflexivity.
Qed.

(** What a token the parser reads becomes in the .mem file. *)
Lemma mem_token_parse tok v :
  parse_token tok = Ret v ->
  match v with
  | Some z => exists l, mem_token tok = Some l /\ digits l /\ hex_number l = z
  | None => mem_token tok = None
  end.
Proof.
  unfold parse_token, mem_token.
  destruct (startswith (lit "memory_initialization") (map lower tok));
    [intros E; inversion E; reflexivity|].
  set (tt := if startswith (lit "0x") (map lower tok) then drop 2 tok else tok).
  destruct (forallb is_hex tt) eqn:Eh; [|intros E; inversion E; reflexivity].
  destruct tt as [|c tt'] eqn:Ett; [discriminate|].
  intros E. inversion E; subst v. exists (map upper (c :: tt')).
  destruct (hex_digits_upper (c :: tt') Eh) as [Hf Hn].
  split; [reflexivity|]. split; [split; [discriminate|exact Hf]|exact Hn].
Qed.

Lemma mem_lines toks : forall vals,
  parse_tokens toks = Ret vals ->
  Forall digits (omap mem_token toks) /\ parse_tokens (omap mem_token toks) = Ret vals.
Proof.
  induction toks as [|tok toks IH]; intros vals H; simpl in H.
  - inversion H. split; [constructor|reflexivity].
  - destruct (parse_token tok) as [v| |] eqn:Et; simpl in H; try discriminate.
    destruct (parse_tokens toks) as [vs| |] eqn:Es; simpl in H; try discriminate.
    inversion H; subst; clear H. destruct (IH vs eq_refl) as [IH1 IH2].
    rewrite omap_cons. pose proof (mem_token_parse tok v Et) as Hm.
    destruct v as [z|].
    + destruct Hm as (l & -> & Hl & Hz). split; [constructor; assumption|].
      cbn [parse_tokens]. rewrite (parse_token_digits l) by apply Hl.
      cbn [mbind outcome_bind]. rewrite IH2, Hz. reflexivity.
    + rewrite Hm. split; assumption.
Qed.

Lemma tokens_lines (lines : list (list ascii)) :
  Forall digits lines ->
  tokens (concat (map (fun v => v ++ ["010"%char]) lines)) = lines.
Proof.
  intros H.
  assert (E : map (fun v => v ++ ["010"%char]) lines
              = map (fun p => fst p ++ snd p) (map (fun v => (v, ["010"%char])) lines)).
  { rewrite map_map. reflexivity. }
  rewrite E, tokens_pieces.
  - rewrite map_map. apply map_id.
  - apply Forall_forall. intros p Hp.
    apply list_elem_of_In, in_map_iff in Hp as (l & <- & Hl). cbn [fst snd].
    rewrite Forall_forall in H. destruct (H l (proj2 (list_elem_of_In _ _) Hl)) as [Hne Hf].
    split; [|split; [discriminate|repeat constructor]].
    split; [exact Hne|]. eapply Forall_impl; [exact Hf|]. intros c Hc.
    destruct (upper_hex_facts c Hc) as (H1 & H2 & _). auto.
Qed.

Lemma tokens_written (seps : nat -> list ascii) (w : nat) (vals : list Z) :
  (forall i, seps i <> [] /\ Forall (fun c => is_sep c = true) (seps i)) ->
  Forall (fun v => 0 <= v) vals ->
  tokens (header ++ concat (imap (fun i v => format_X w v ++ seps i) vals))
  = map fst header_pieces ++ map (format_X w) vals.
Proof.
  intros Hseps Hvals.
  set (pieces := header_pieces ++ imap (fun i v => (format_X w v, seps i)) vals).
  assert (E : header ++ concat (imap (fun i v => format_X w v ++ seps i) vals)
              = concat (map (fun p => fst p ++ snd p) pieces)).
  { unfold pieces. rewrite map_app, concat_app, map_imap. f_equal. }
  rewrite E, tokens_pieces.
  2:{ unfold pieces. apply Forall_app. split; [apply header_pieces_ok|].
      apply Forall_imap. intros i v Hv. cbn [fst snd].
      pose proof (Forall_lookup_1 _ _ _ _ Hvals Hv) as Hnn. cbv beta in Hnn.
      split; [apply format_X_clean; exact Hnn|]. apply Hseps. }
  unfold pieces. rewrite map_app, map_imap. simpl fst. rewrite imap_const. reflexivity.
Qed.

Lemma mem_formatted w vals :
  Forall (fun v => 0 <= v) vals ->
  omap mem_token (map (format_X w) vals) = map (format_X w) vals.
Proof.
  induction 1 as [|v vals Hv _ IH]; [reflexivity|].
  cbn [map]. rewrite omap_cons, IH.
  destruct (format_X_spec w v Hv) as (_ & Hf & Hne).
  rewrite (mem_token_digits _ Hne Hf). reflexivity.
Qed.

(** X20: the conversion to .mem keeps the words: what [parse_coe_points]
    reads from the .mem text is what it read from the COE text.  The .mem
    text of a written file is the written tokens, one a line, without the
    header. *)
Theorem X20_mem_keeps_words :
  (forall t vals,
     parse_coe_points t = Ret vals -> parse_coe_points (coe_to_mem t) = Ret vals) /\
  (forall w vals,
     Forall (fun v => 0 <= v) vals ->
     coe_to_mem (write_coe_lines w vals) =
       concat (map (fun v => format_X w v ++ ["010"%char]) vals) /\
     coe_to_mem (write_coe w vals) =
       concat (map (fun v => format_X w v ++ ["010"%char]) vals)).
Proof.
  split.
  - intros t vals H. unfold parse_coe_points in *. unfold coe_to_mem.
    destruct (mem_lines (tokens t) vals H) as [Hd Hp].
    rewrite (tokens_lines _ Hd). exact Hp.
  - intros w vals Hvals. unfold coe_to_mem, write_coe_lines, write_coe.
    rewrite (tokens_written
               (fun i => (if Z.of_nat i <? Z.of_nat (length vals) - 1
                          then lit "," else lit ";") ++ ["010"%char]) w vals);
      [|intros i; destruct (_ <? _); split; try discriminate; repeat constructor
       |exact Hvals].
    rewrite (tokens_written
               (fun i => if Z.of_nat i <? Z.of_nat (length vals) - 1
                         then lit "," else lit ";" ++ ["010"%char]) w vals);
      [|intros i; destruct (_ <? _); split; try discriminate; repeat constructor
       |exact Hvals].
    cbn [header_pieces map fst app]. rewrite !omap_cons.
    change (mem_token (lit "memory_initialization_radix=16")) with (@None (list ascii)).
    change (mem_token (lit "memory_initialization_vector=")) with (@None (list ascii)).
    rewrite (mem_formatted w vals Hvals), map_map. split; reflexivity.
Qed.

(** Three words of a lights file. *)
Lemma X20_mem_keeps_words_witness :
  parse_coe_points (coe_to_mem (write_coe 4 [16444; 0; 65535])) = Ret [16444; 0; 65535] /\
  coe_to_mem (write_coe 4 [16444; 0; 65535]) =
    concat (map (fun v => format_X 4 v ++ ["010"%char]) [16444; 0; 65535]).
Proof.
  destruct X20_mem_keeps_words as [H1 H2]. split.
  - apply H1. reflexivity.
  - apply (H2 4%nat [16444; 0; 65535]). repeat constructor; lia.
Defined.

(** *** The framebuffer of the overlay *)

Lemma pixel_token_returns tok :
  tok <> [] ->
  exists v, pixel_token tok = Ret v /\
            match v with Some z => 0 <= z < 65536 | None => True end.
Proof.
  intros Hne. unfold pixel_token.
  destruct (startswith _ _); [exists None; split; [reflexivity|exact I]|].
  destruct (forallb is_hex tok); [|exists None; split; [reflexivity|exact I]].
  destruct tok as [|c tok]; [contradiction|].
  eexists. split; [reflexivity|]. cbv beta.
  apply (land_ones_range _ 16); [lia|]. mask_consts. bitwise.
Qed.

Lemma pixel_tokens_return toks :
  Forall (fun tok => tok <> []) toks ->
  exists vals, pixel_tokens toks = Ret vals /\ Forall (fun z => 0 <= z < 65536) vals.
Proof.
  induction 1 as [|tok toks Hne _ (vals & IH & Hvals)].
  - exists []. split; [reflexivity|constructor].
  - cbn [pixel_tokens]. destruct (pixel_token_returns tok Hne) as (v & -> & Hv).
    cbn [mbind outcome_bind]. rewrite IH. cbn [mbind outcome_bind].
    eexists. split; [reflexivity|]. destruct v; [constructor; assumption|exact Hvals].
Qed.

Lemma rgb565_to_rgb888_ok v : pixel_ok (rgb565_to_rgb888 v).
Proof.
  unfold pixel_ok, rgb565_to_rgb888. cbn [fst snd].
  assert (H1 : 0 <= Z.land (Z.shiftr v 11) 31 < 32).
  { change 31 with (Z.ones 5). rewrite Z.land_ones by lia. apply Z.mod_pos_bound. lia. }
  assert (H2 : 0 <= Z.land (Z.shiftr v 5) 63 < 64).
  { change 63 with (Z.ones 6). rewrite Z.land_ones by lia. apply Z.mod_pos_bound. lia. }
  assert (H3 : 0 <= Z.land v 31 < 32).
  { change 31 with (Z.ones 5). rewrite Z.land_ones by lia. apply Z.mod_pos_bound. lia. }
  repeat split; try (apply Z.div_pos; lia);
    apply Z.div_le_upper_bound; lia.
Qed.

Lemma pixel_token_format v :
  0 <= v < 65536 -> pixel_token (format_X 4 v) = Ret (Some v).
Proof.
  intros Hv. destruct (format_X_spec 4 v ltac:(lia)) as (Hn & Hf & Hne).
  destruct (digits_token _ Hne Hf) as (E1 & _ & E3).
  unfold pixel_token. rewrite E1, E3.
  destruct (format_X 4 v) as [|c t] eqn:E; [contradiction|].
  cbn [int16 mbind outcome_bind]. fold (hex_number (c :: t)). rewrite Hn.
  do 2 f_equal. change 65535 with (Z.ones 16). apply land_small; lia.
Qed.

Lemma pixels_formatted vals :
  Forall (fun v => 0 <= v < 65536) vals ->
  pixel_tokens (map (format_X 4) vals) = Ret vals.
Proof.
  induction 1 as [|v vals Hv _ IH]; [reflexivity|].
  cbn [map pixel_tokens]. rewrite pixel_token_format by exact Hv.
  cbn [mbind outcome_bind]. rewrite IH. reflexivity.
Qed.

(** X21: for [width*height] that is not negative, [read_framebuffer_coe]
    does not raise on any text and returns exactly [width*height] pixels with
    every channel between 0 and 255.  Of a written framebuffer of 16-bit
    values it returns the pixels of the first [width*height] values, and
    black ones after them. *)
Theorem X21_read_framebuffer (width height : Z) :
  0 <= width * height ->
  (forall t, exists pixels,
     read_framebuffer_coe t width height = Ret pixels /\
     length pixels = Z.to_nat (width * height) /\ Forall pixel_ok pixels) /\
  (forall vals,
     Forall (fun v => 0 <= v < 65536) vals ->
     read_framebuffer_coe (write_coe_lines 4 vals) width height =
       Ret (take (Z.to_nat (width * height)) (rgb565_to_rgb888 <$> vals) ++
            replicate (Z.to_nat (width * height) - length vals) (0, 0, 0))).
Proof.
  intros Hwh. unfold read_framebuffer_coe, py_prefix.
  destruct (Z.leb_spec 0 (width * height)) as [_|]; [|lia].
  set (n := Z.to_nat (width * height)). split.
  - intros t. destruct (pixel_tokens_return (tokens t) (tokens_nonempty t)) as (vals & -> & _).
    cbn [mbind outcome_bind]. eexists. split; [reflexivity|]. split.
    + rewrite length_app, length_replicate, length_fmap, length_take. lia.
    + apply Forall_app. split.
      * apply Forall_fmap, Forall_forall. intros v _. apply rgb565_to_rgb888_ok.
      * apply Forall_replicate. unfold pixel_ok. simpl. lia.
  - intros vals Hvals. unfold write_coe_lines.
    rewrite (tokens_written
               (fun i => (if Z.of_nat i <? Z.of_nat (length vals) - 1
                          then lit "," else lit ";") ++ ["010"%char]) 4 vals);
      [|intros i; destruct (_ <? _); split; try discriminate; repeat constructor
       |eapply Forall_impl; [exact Hvals|intros v Hv; cbv beta in *; lia]].
    cbn [header_pieces map fst app pixel_tokens].
    change (pixel_token (lit "memory_initialization_radix=16")) with (@Ret (option Z) None).
    change (pixel_token (lit "memory_initialization_vector=")) with (@Ret (option Z) None).
    cbn [mbind outcome_bind]. rewrite (pixels_formatted vals Hvals).
    cbn [mbind outcome_bind]. rewrite fmap_take, length_take, length_fmap.
    replace (n - n `min` length vals)%nat with (n - length vals)%nat by lia.
    reflexivity.
Qed.

(** Two pixels of a picture of two by two. *)
Lemma X21_read_framebuffer_witness :
  read_framebuffer_coe (write_coe_lines 4 [50744; 31]) 2 2 =
    Ret [(197, 198, 197); (0, 0, 255); (0, 0, 0); (0, 0, 0)].
Proof.
  destruct (X21_read_framebuffer 2 2 ltac:(lia)) as [_ H].
  apply (H [50744; 31]). repeat constructor; lia.
Defined.

End CoeReaderFacts.
